(** * Sparse matrices: a shallow embedding of the calculator's core

    The development follows the Python sources:
    - [matrix_core.py]: class [SparseMatrix] (constructor, [set], [get],
      [items]);
    - [operations.py]: [check_dimensions], [add], [subtract], [multiply];
    - [matrix_io.py]: [parse_matrix_file], [write_matrix_to_file];
    - [main.py]: the table [OPERATIONS] and the computation of [main].

    Python objects are mutable and passed by reference, so the code is
    embedded in a state-and-exception monad over an explicit store.  A
    matrix instance holds [rows], [cols] and a reference to its [data]
    dictionary; dictionaries live in the store too, so that aliasing between
    matrices, and between their dictionaries, is expressible.

    The class does not fix the type of the values.  In the first part they
    are Python integers (arbitrary precision), modelled by [Z]: this part
    is about the structure of the matrices (keys, bounds, zeros, stores) and
    about operations that touch a value once.  Module [Float64] embeds the
    class and the operations [subtract] and [multiply] again over IEEE 754
    binary64 numbers, the values that the parser stores; what depends on
    rounding, on the infinities and on NaN is stated and proved there. *)

From Stdlib Require Import Ascii String Floats.
From stdpp Require Import base option list numbers strings pretty sorting.

Open Scope Z_scope.

(** ** Python dictionaries

    A [dict] keeps its items in insertion order and its keys are pairwise
    distinct.  Assigning to a key that is present keeps the key's position;
    a new key goes to the end. *)

Module Dict.
Section dict.
Context {K V : Type} `{EqDecision K}.

Definition t : Type := list (K * V).

(** [{}] *)
Definition empty : t := [].

Fixpoint lookup (k : K) (d : t) : option V :=
  match d with
  | [] => None
  | (k', v) :: d' => if decide (k = k') then Some v else lookup k d'
  end.

(** [k in d] *)
Definition contains (k : K) (d : t) : bool :=
  match lookup k d with Some _ => true | None => false end.

(** [d.get(k, dflt)] *)
Definition get (k : K) (dflt : V) (d : t) : V :=
  match lookup k d with Some v => v | None => dflt end.

(** [d[k] = v] *)
Fixpoint setitem (k : K) (v : V) (d : t) : t :=
  match d with
  | [] => [(k, v)]
  | (k', v') :: d' =>
      if decide (k = k') then (k, v) :: d' else (k', v') :: setitem k v d'
  end.

(** [del d[k]], for a key that is present (the only use in the sources is
    guarded by [k in d]); absent keys leave the dictionary as it is. *)
Fixpoint delitem (k : K) (d : t) : t :=
  match d with
  | [] => []
  | (k', v') :: d' =>
      if decide (k = k') then d' else (k', v') :: delitem k d'
  end.

(** [d.items()], in iteration order *)
Definition items (d : t) : list (K * V) := d.

Definition keys (d : t) : list K := d.*1.

(** The representation invariant of a dictionary: distinct keys. *)
Definition ok (d : t) : Prop := NoDup (keys d).
End dict.
Global Arguments t : clear implicits.
End Dict.

(** ** The store, exceptions and the monad *)

Definition loc := nat.
Bind Scope nat_scope with loc.

(** Instance attributes of a [SparseMatrix] object; [data] refers to the
    dictionary object created by the constructor. *)
Record SparseMatrix := mkSparseMatrix { rows : Z; cols : Z; data : loc }.

Record heap := mkHeap {
  objs : list SparseMatrix;
  dicts : list (Dict.t (Z * Z) Z)
}.

Definition empty_heap : heap := mkHeap [] [].

(** Exceptions.  [IndexError] and [ValueError] carry the message of the
    [raise] statement; a [ValueError] also stands for the exceptions of its
    subclasses, [UnicodeEncodeError] among them.  [AttributeError] is what
    Python raises when a reference does not denote an object of the
    expected class, [OSError] what a write to a broken pipe raises. *)
Inductive exn :=
| IndexError (msg : string)
| ValueError (msg : string)
| AttributeError
| OSError (msg : string).

Inductive outcome (A : Type) :=
| Ret (x : A)
| Raise (e : exn).
Global Arguments Ret {A} x.
Global Arguments Raise {A} e.

Definition M (A : Type) : Type := heap → outcome A * heap.

Definition raise {A} (e : exn) : M A := λ h, (Raise e, h).

Global Instance M_ret : MRet M := λ A x h, (Ret x, h).
Global Instance M_bind : MBind M := λ A B f m h,
  match m h with
  | (Ret x, h') => f x h'
  | (Raise e, h') => (Raise e, h')
  end.

(** [for x in l: body(x)] *)
Fixpoint for_each {A} (l : list A) (body : A → M unit) : M unit :=
  match l with
  | [] => mret tt
  | x :: l' => body x;; for_each l' body
  end.

(** Store primitives. *)
Definition instance (a : loc) : M SparseMatrix :=
  λ h, match objs h !! a with
       | Some o => (Ret o, h)
       | None => (Raise AttributeError, h)
       end.

Definition read_dict (d : loc) : M (Dict.t (Z * Z) Z) :=
  λ h, match dicts h !! d with
       | Some m => (Ret m, h)
       | None => (Raise AttributeError, h)
       end.

Definition write_dict (d : loc) (m : Dict.t (Z * Z) Z) : M unit :=
  λ h, match dicts h !! d with
       | Some _ => (Ret tt, mkHeap (objs h) (<[d := m]> (dicts h)))
       | None => (Raise AttributeError, h)
       end.

Definition new_dict : M loc :=
  λ h, (Ret (length (dicts h)), mkHeap (objs h) (dicts h ++ [Dict.empty])).

Definition new_instance (o : SparseMatrix) : M loc :=
  λ h, (Ret (length (objs h)), mkHeap (objs h ++ [o]) (dicts h)).

(** ** matrix_core.py: class SparseMatrix *)

(** [SparseMatrix(rows, cols)]: [__init__] stores the two dimensions as they
    are given and a new empty dictionary. *)
Definition SparseMatrix_init (rows cols : Z) : M loc :=
  d ← new_dict;
  new_instance (mkSparseMatrix rows cols d).

Definition out_of_bounds (o : SparseMatrix) (row col : Z) : bool :=
  (row <? 0) || (col <? 0) || (row >=? rows o) || (col >=? cols o).

(** [self.set(row, col, value)] *)
Definition SparseMatrix_set (self : loc) (row col value : Z) : M unit :=
  o ← instance self;
  if out_of_bounds o row col then
    raise (IndexError "Index out of bounds.")
  else
    d ← read_dict (data o);
    if negb (value =? 0) then
      write_dict (data o) (Dict.setitem (row, col) value d)
    else if Dict.contains (row, col) d then
      write_dict (data o) (Dict.delitem (row, col) d)
    else
      mret tt.

(** [self.get(row, col)] *)
Definition SparseMatrix_get (self : loc) (row col : Z) : M Z :=
  o ← instance self;
  d ← read_dict (data o);
  mret (Dict.get (row, col) 0 d).

(** [self.items()]: the items of [self.data].  The view is read where the
    loop over it starts; no loop of the sources writes the dictionary it
    iterates over. *)
Definition SparseMatrix_items (self : loc) : M (list ((Z * Z) * Z)) :=
  o ← instance self;
  d ← read_dict (data o);
  mret (Dict.items d).

(** ** operations.py *)

Definition msg_dims_add : string :=
  "Matrix dimensions must match for addition or subtraction.".
Definition msg_dims_mul : string :=
  "Matrix A columns must equal Matrix B rows for multiplication.".
Definition msg_unknown : string := "Unknown operation.".

Definition check_dimensions (a b : loc) (operation : string) : M unit :=
  if bool_decide (operation = "add"%string)
     || bool_decide (operation = "subtract"%string) then
    oa ← instance a;
    ob ← instance b;
    if negb (rows oa =? rows ob) || negb (cols oa =? cols ob) then
      raise (ValueError msg_dims_add)
    else mret tt
  else if bool_decide (operation = "multiply"%string) then
    oa ← instance a;
    ob ← instance b;
    if negb (cols oa =? rows ob) then
      raise (ValueError msg_dims_mul)
    else mret tt
  else
    raise (ValueError msg_unknown).

Definition add (a b : loc) : M loc :=
  check_dimensions a b "add";;
  oa ← instance a;
  result ← SparseMatrix_init (rows oa) (cols oa);
  ia ← SparseMatrix_items a;
  for_each ia (λ '((i, j), val), SparseMatrix_set result i j val);;
  ib ← SparseMatrix_items b;
  for_each ib (λ '((i, j), val),
    g ← SparseMatrix_get result i j;
    SparseMatrix_set result i j (g + val));;
  mret result.

Definition subtract (a b : loc) : M loc :=
  check_dimensions a b "subtract";;
  oa ← instance a;
  result ← SparseMatrix_init (rows oa) (cols oa);
  ia ← SparseMatrix_items a;
  for_each ia (λ '((i, j), val), SparseMatrix_set result i j val);;
  ib ← SparseMatrix_items b;
  for_each ib (λ '((i, j), val),
    g ← SparseMatrix_get result i j;
    SparseMatrix_set result i j (g - val));;
  mret result.

(** The index [b_cols] of [multiply] is a local dictionary of dictionaries
    that never leaves the function, so it is a plain value here.  One
    iteration of the loop that fills it: *)
Definition b_cols_step (b_cols : Dict.t Z (Dict.t Z Z)) (e : (Z * Z) * Z)
  : Dict.t Z (Dict.t Z Z) :=
  let '((row, col), val) := e in
  let b_cols1 :=
    if negb (Dict.contains row b_cols)
    then Dict.setitem row Dict.empty b_cols
    else b_cols in
  Dict.setitem row (Dict.setitem col val (Dict.get row Dict.empty b_cols1))
    b_cols1.

Definition multiply (a b : loc) : M loc :=
  check_dimensions a b "multiply";;
  oa ← instance a;
  ob ← instance b;
  result ← SparseMatrix_init (rows oa) (cols ob);
  ib ← SparseMatrix_items b;
  let b_cols := foldl b_cols_step Dict.empty ib in
  ia ← SparseMatrix_items a;
  for_each ia (λ '((i, k), val_a),
    match Dict.lookup k b_cols with
    | Some row_k =>
        for_each (Dict.items row_k) (λ '(j, val_b),
          g ← SparseMatrix_get result i j;
          SparseMatrix_set result i j (g + val_a * val_b))
    | None => mret tt
    end);;
  mret result.

(** ** matrix_io.py: parse_matrix_file

    The parser is embedded from the list [lines] on, that is the stripped,
    non-empty lines of the file; [stripped_lines] gives them from the lines
    of the file.  What the code asks of Python and does not compute itself
    is a parameter of the embedding, collected in [builtins]: the
    conversions [int] and [float] with the messages of the [ValueError]
    they raise, [str.strip], the formatting of a percentage, and [print],
    which writes to the standard output and can raise. *)

Record builtins := mkBuiltins {
  (* int(s): None when it raises its ValueError *)
  py_int : string → option Z;
  (* the message of the ValueError that int(s) raises *)
  int_message : string → string;
  (* float(s): None when it raises its ValueError.  The parser does no
     arithmetic on the value: it passes it to set, which compares it with
     zero.  In this part the value is an integer, as for the literals 5
     and -3. *)
  py_float : string → option Z;
  (* the message of the ValueError that float(s) raises *)
  float_message : string → string;
  (* s.strip() *)
  py_strip : string → string;
  (* f"{a / b * 100:.2f}" *)
  py_percent : Z → Z → string;
  (* print(text): None when the text is written to the standard output,
     Some e when print raises e (a UnicodeEncodeError, which is a
     ValueError, for a character that the encoding of the output lacks; a
     ValueError on a closed stream; an OSError on a broken pipe) *)
  stdout : string → option exn
}.

Definition newline : string := String "010"%char EmptyString.

(** [print(text)] *)
Definition print (py : builtins) (text : string) : M unit :=
  match stdout py text with
  | None => mret tt
  | Some e => raise e
  end.

(** [[line.strip() for line in f if line.strip()]] *)
Definition stripped_lines (py : builtins) (file : list string) : list string :=
  py_strip py <$> filter (λ line, py_strip py line ≠ EmptyString) file.

Fixpoint startswith (prefix s : string) : bool :=
  match prefix, s with
  | EmptyString, _ => true
  | String a prefix', String b s' =>
      bool_decide (a = b) && startswith prefix' s'
  | String _ _, EmptyString => false
  end.

Definition endswith (suffix s : string) : bool :=
  startswith (String.rev suffix) (String.rev s).

(** [s.split(sep)] for a separator of one character *)
Fixpoint split (sep : ascii) (s : string) : list string :=
  match s with
  | EmptyString => [EmptyString]
  | String c s' =>
      if bool_decide (c = sep) then EmptyString :: split sep s'
      else match split sep s' with
           | p :: ps => String c p :: ps
           | [] => [String c EmptyString]
           end
  end.

(** [s.replace(" ", "")] *)
Fixpoint remove_spaces (s : string) : string :=
  match s with
  | EmptyString => EmptyString
  | String c s' =>
      if bool_decide (c = " "%char) then remove_spaces s'
      else String c (remove_spaces s')
  end.

Fixpoint drop_last (s : string) : string :=
  match s with
  | EmptyString => EmptyString
  | String c EmptyString => EmptyString
  | String c s' => String c (drop_last s')
  end.

(** [s[1:-1]] *)
Definition slice_1_m1 (s : string) : string :=
  match s with
  | EmptyString => EmptyString
  | String _ s' => drop_last s'
  end.

Definition msg_missing_header : string :=
  "Invalid file format: missing rows/cols declaration".
Definition msg_list_index : string := "list index out of range".
Definition msg_invalid_format (line_num : nat) (line : string) : string :=
  "Invalid format in line " +:+ pretty line_num +:+ ": " +:+ line.
Definition msg_expected_3 (line_num : nat) (line : string) : string :=
  "Expected 3 values in line " +:+ pretty line_num +:+ ": " +:+ line.
Definition msg_non_numeric (line_num : nat) (line : string) : string :=
  "Non-numeric value in line " +:+ pretty line_num +:+ ": " +:+ line.

(** The diagnostic of a skipped entry. *)
Definition msg_skipping (line_num : nat) (row col rows cols : Z) : string :=
  "⚠️ Skipping out-of-bounds index at line " +:+ pretty line_num
  +:+ ": (" +:+ pretty row +:+ ", " +:+ pretty col
  +:+ ") - valid range is (0-" +:+ pretty (rows - 1) +:+ ", 0-"
  +:+ pretty (cols - 1) +:+ ")".

(** [try: body except ValueError: handler] *)
Definition except_ValueError {A} (body handler : M A) : M A :=
  λ h, match body h with
       | (Raise (ValueError _), h') => handler h'
       | res => res
       end.

(** The local counters of the parser; the keys of
    [out_of_bounds_indices] are the coordinate pairs that the code formats
    into strings, [pattern_text] below. *)
Record stats := mkStats {
  total_entries : Z;
  skipped_entries : Z;
  out_of_bounds_indices : Dict.t (Z * Z) Z
}.

(** [f"({row}, {col})"] *)
Definition pattern_text (k : Z * Z) : string :=
  "(" +:+ pretty k.1 +:+ ", " +:+ pretty k.2 +:+ ")".

(** [sorted(items, key=lambda x: x[1], reverse=True)]: by descending
    count; the sort is stable, so items with equal counts keep their
    order. *)
Fixpoint insert_by_count (x : (Z * Z) * Z) (l : list ((Z * Z) * Z))
  : list ((Z * Z) * Z) :=
  match l with
  | [] => [x]
  | y :: l' =>
      if x.2 <? y.2 then y :: insert_by_count x l' else x :: y :: l'
  end.

Definition sorted_by_count (l : list ((Z * Z) * Z)) : list ((Z * Z) * Z) :=
  foldr insert_by_count [] l.

Definition msg_suggestion_1 : string :=
  "Suggestion: Some indices appear to use 1-based indexing "
  +:+ "for columns.".
Definition msg_suggestion_2 : string :=
  "Consider adjusting column indices by subtracting 1 "
  +:+ "from each column value.".

Section parser.
Variable py : builtins.

(** [int(s)] and [float(s)] *)
Definition convert_int (s : string) : M Z :=
  match py_int py s with
  | Some n => mret n
  | None => raise (ValueError (int_message py s))
  end.

Definition convert_float (s : string) : M Z :=
  match py_float py s with
  | Some x => mret x
  | None => raise (ValueError (float_message py s))
  end.

(** [int(line.split("=")[1])] *)
Definition header_int (line : string) : M Z :=
  match split "=" line with
  | _ :: field :: _ => convert_int field
  | _ => raise (IndexError msg_list_index)
  end.

(** One iteration of the loop over the entry lines. *)
Definition parse_line (matrix : loc) (rows cols : Z) (line_num : nat)
    (line : string) (st : stats) : M stats :=
  if negb (startswith "(" line && endswith ")" line) then
    raise (ValueError (msg_invalid_format line_num line))
  else
    let parts := split "," (remove_spaces (slice_1_m1 line)) in
    if negb (length parts =? 3)%nat then
      raise (ValueError (msg_expected_3 line_num line))
    else
      except_ValueError
        (row ← convert_int (parts !!! 0%nat);
         col ← convert_int (parts !!! 1%nat);
         val ← convert_float (parts !!! 2%nat);
         let total := total_entries st + 1 in
         if negb ((0 <=? row) && (row <? rows))
            || negb ((0 <=? col) && (col <? cols)) then
           print py (msg_skipping line_num row col rows cols);;
           (* [continue] *)
           mret (mkStats total (skipped_entries st + 1)
                   (Dict.setitem (row, col)
                      (Dict.get (row, col) 0 (out_of_bounds_indices st) + 1)
                      (out_of_bounds_indices st)))
         else
           SparseMatrix_set matrix row col val;;
           mret (mkStats total (skipped_entries st)
                   (out_of_bounds_indices st)))
        (raise (ValueError (msg_non_numeric line_num line))).

(** [for line_num, line in enumerate(lines[2:], start=3): ...] *)
Fixpoint parse_lines (matrix : loc) (rows cols : Z) (line_num : nat)
    (lines : list string) (st : stats) : M stats :=
  match lines with
  | [] => mret st
  | line :: rest =>
      st' ← parse_line matrix rows cols line_num line st;
      parse_lines matrix rows cols (S line_num) rest st'
  end.

(** The summary that is printed when an entry was skipped. *)
Definition report (rows cols : Z) (st : stats) : M unit :=
  if 0 <? skipped_entries st then
    print py (newline +:+ "Summary of skipped entries:");;
    print py ("Total entries processed: " +:+ pretty (total_entries st));;
    print py ("Entries skipped due to out-of-bounds indices: "
              +:+ pretty (skipped_entries st) +:+ " ("
              +:+ py_percent py (skipped_entries st) (total_entries st)
              +:+ "%)");;
    print py (newline +:+ "Most common out-of-bounds patterns:");;
    for_each
      (take 5 (sorted_by_count (Dict.items (out_of_bounds_indices st))))
      (λ '(pattern, count),
         print py ("  " +:+ pattern_text pattern +:+ ": " +:+ pretty count
                   +:+ " occurrences"));;
    if existsb (λ row, Dict.contains (row, cols) (out_of_bounds_indices st))
         (seqZ 0 rows) then
      print py (newline +:+ msg_suggestion_1);;
      print py msg_suggestion_2
    else mret tt
  else mret tt.

Definition parse_matrix_file (lines : list string) : M loc :=
  match lines with
  | l0 :: l1 :: body =>
      if negb (startswith "rows=" l0) || negb (startswith "cols=" l1) then
        raise (ValueError msg_missing_header)
      else
        rows ← header_int l0;
        cols ← header_int l1;
        matrix ← SparseMatrix_init rows cols;
        st ← parse_lines matrix rows cols 3 body (mkStats 0 0 Dict.empty);
        report rows cols st;;
        mret matrix
  | _ => raise (ValueError msg_missing_header)
  end.

(** The entry that a well-formed body line stands for. *)
Definition line_entry (line : string) : option (Z * Z * Z) :=
  if startswith "(" line && endswith ")" line then
    match split "," (remove_spaces (slice_1_m1 line)) with
    | [p0; p1; p2] =>
        match py_int py p0, py_int py p1, py_float py p2 with
        | Some row, Some col, Some val => Some (row, col, val)
        | _, _, _ => None
        end
    | _ => None
    end
  else None.

(** The header line [name=<n>] gives the dimension [n]. *)
Definition header_dim (name line : string) : option Z :=
  if startswith name line then
    match split "=" line with
    | _ :: field :: _ => py_int py field
    | _ => None
    end
  else None.
End parser.

(** *** A Python for the examples

    Conversions for plain decimal literals, with an optional minus sign:
    on these [int] and [float] give the same number.  Python accepts more
    (a plus sign, underscores, white space around the digits; for [float]
    also a fraction, an exponent, inf and nan); the examples use none of
    that.  [strip] is for the white space of ASCII; the standard output
    accepts every text. *)
Fixpoint digits (s : string) (acc : Z) : option Z :=
  match s with
  | EmptyString => Some acc
  | String c s' =>
      match Ascii.is_nat c with
      | Some d => digits s' (10 * acc + Z.of_nat d)
      | None => None
      end
  end.

Definition decimal (s : string) : option Z :=
  match s with
  | EmptyString => None
  | String "-" EmptyString => None
  | String "-" s' => Z.opp <$> digits s' 0
  | _ => digits s 0
  end.

Definition ascii_space (c : ascii) : bool :=
  let n := nat_of_ascii c in
  ((9 <=? n) && (n <=? 13) || (28 <=? n) && (n <=? 32))%nat.

Fixpoint lstrip (s : string) : string :=
  match s with
  | EmptyString => EmptyString
  | String c s' => if ascii_space c then lstrip s' else s
  end.

Definition strip (s : string) : string :=
  String.rev (lstrip (String.rev (lstrip s))).

(** The exact value of a finite non-negative binary64 number times 100,
    rounded to the nearest integer, ties to even: the digits of the
    format [.2f]. *)
Definition hundredths (x : float) : Z :=
  match Prim2SF x with
  | S754_finite false m e =>
      if 0 <=? e then 100 * Z.pos m * 2 ^ e
      else
        let d := 2 ^ (- e) in
        let q := (100 * Z.pos m) `div` d in
        let r := (100 * Z.pos m) `mod` d in
        if 2 * r <? d then q
        else if d <? 2 * r then q + 1
        else if Z.even q then q else q + 1
  | _ => 0
  end.

Definition two_digits (n : Z) : string :=
  if n <? 10 then "0" +:+ pretty n else pretty n.

(** [f"{a / b * 100:.2f}"] for counts below 2^53 *)
Definition percent_2f (a b : Z) : string :=
  let x :=
    (of_uint63 (Uint63.of_Z a) / of_uint63 (Uint63.of_Z b) * 100)%float in
  pretty (hundredths x `div` 100) +:+ "."
  +:+ two_digits (hundredths x `mod` 100).

Definition quoted (s : string) : string := "'" +:+ s +:+ "'".

(** The messages of [int] and [float], for a string that [repr] shows
    between quotes as it is. *)
Definition msg_int_literal (s : string) : string :=
  "invalid literal for int() with base 10: " +:+ quoted s.
Definition msg_float_literal (s : string) : string :=
  "could not convert string to float: " +:+ quoted s.

Definition python_with (out : string → option exn) : builtins :=
  {| py_int := decimal;
     int_message := msg_int_literal;
     py_float := decimal;
     float_message := msg_float_literal;
     py_strip := strip;
     py_percent := percent_2f;
     stdout := out |}.

Definition plain_python : builtins := python_with (λ _, None).




(** * More of the code *)

(** ** matrix_io.py: write_matrix_to_file

    The function is embedded as the text that it writes to the file it
    opens (mode ['w']: the text is the whole content).  [pretty] is the
    decimal notation of an integer, as the f-string formats it. *)

(** The order of Python on the tuples [((row, col), val)]: by row, then by
    column, then by value. *)
Definition item_le (e1 e2 : (Z * Z) * Z) : Prop :=
  e1.1.1 < e2.1.1
  ∨ (e1.1.1 = e2.1.1
     ∧ (e1.1.2 < e2.1.2 ∨ (e1.1.2 = e2.1.2 ∧ e1.2 ≤ e2.2))).

Global Instance item_le_dec : RelDecision item_le.
Proof. intros e1 e2. unfold item_le. apply _. Defined.

(** [sorted(items)]: the order is total and antisymmetric, so a list has one
    sorted arrangement, whatever the sorting algorithm. *)
Definition sorted (its : list ((Z * Z) * Z)) : list ((Z * Z) * Z) :=
  merge_sort item_le its.

(** [f"({row}, {col}, {val})"] *)
Definition entry_line (e : (Z * Z) * Z) : string :=
  "(" +:+ pretty e.1.1 +:+ ", " +:+ pretty e.1.2 +:+ ", " +:+ pretty e.2
  +:+ ")".

(** The text of the successive [f.write] calls of the loop. *)
Fixpoint entry_lines_text (its : list ((Z * Z) * Z)) : string :=
  match its with
  | [] => EmptyString
  | e :: its' => (entry_line e +:+ newline) +:+ entry_lines_text its'
  end.

Definition write_matrix_to_file (matrix : loc) : M string :=
  o ← instance matrix;
  let header :=
    "rows=" +:+ pretty (rows o) +:+ newline +:+ "cols=" +:+ pretty (cols o)
    +:+ newline in
  its ← SparseMatrix_items matrix;
  mret (header +:+ entry_lines_text (sorted its)).

(** ** main.py: the table of operations, and the computation of [main]

    [main_load_and_operate] is what the [try] block of [main] does from the
    operation that was chosen and the lines of the two files that were
    selected, up to the call of the operation: it loads both matrices,
    validates their shapes and calls the operation, and prints on the way.
    The clock is read twice; what is printed of it is the parameter
    [load_time].  Selecting the files, saving the result and the [except]
    clause at the end of [main] are left out. *)

Definition OPERATIONS : Dict.t string (string * (loc → loc → M loc)) :=
  [("1", ("Add", add)); ("2", ("Subtract", subtract));
   ("3", ("Multiply", multiply))]%string.

Definition msg_main_dims_add : string :=
  "Dimension mismatch for addition/subtraction".
Definition msg_main_dims_mul : string :=
  "Columns of first must match rows of second for multiplication".

(** [f"Matrix 1: {m1.rows}x{m1.cols} with {len(list(m1.items()))} non-zero
    elements"] *)
Definition msg_loaded (name : string) (o : SparseMatrix)
    (its : list ((Z * Z) * Z)) : string :=
  "Matrix " +:+ name +:+ ": " +:+ pretty (rows o) +:+ "x" +:+ pretty (cols o)
  +:+ " with " +:+ pretty (length its) +:+ " non-zero elements".

Section main.
Variable py : builtins.
(* f"{load_time:.4f}" *)
Variable load_time : string.

Definition main_load_and_operate (choice op_name : string)
    (op_func : loc → loc → M loc) (lines1 lines2 : list string) : M loc :=
  print py (newline +:+ "Loading matrices...");;
  m1 ← parse_matrix_file py lines1;
  m2 ← parse_matrix_file py lines2;
  print py ("Matrices loaded in " +:+ load_time +:+ " seconds");;
  o1 ← instance m1;
  its1 ← SparseMatrix_items m1;
  print py (msg_loaded "1" o1 its1);;
  o2 ← instance m2;
  its2 ← SparseMatrix_items m2;
  print py (msg_loaded "2" o2 its2);;
  if (bool_decide (choice = "1"%string) || bool_decide (choice = "2"%string))
     && (negb (rows o1 =? rows o2) || negb (cols o1 =? cols o2)) then
    raise (ValueError msg_main_dims_add)
  else if bool_decide (choice = "3"%string) && negb (cols o1 =? rows o2) then
    raise (ValueError msg_main_dims_mul)
  else
    print py (newline +:+ "Performing " +:+ op_name +:+ "...");;
    op_func m1 m2.
End main.

(** * Matrices of floating-point numbers

    The matrices that [parse_matrix_file] builds hold Python floats (the
    values come from [float(...)]), and so do the results of the operations
    on them.  This part embeds the class and two operations over IEEE 754
    binary64 numbers, the primitive [float] of Rocq: rounding to nearest
    even, infinities, one NaN, and two zeros.  The code is the code of the
    first part; what changes is the arithmetic.

    - [value != 0] is the comparison of IEEE 754: false for 0.0 and for
      -0.0, true for NaN.
    - [self.data.get((row, col), 0)] returns the integer 0 for a missing
      key.  The operations only add a float to what [get] returns, or
      subtract one from it, and Python converts the integer 0 to 0.0 for
      that; so the default is 0.0 here. *)

Module Float64.

Record heap := mkHeap {
  objs : list SparseMatrix;
  dicts : list (Dict.t (Z * Z) float)
}.

Definition empty_heap : heap := mkHeap [] [].

Definition M (A : Type) : Type := heap → outcome A * heap.

Definition raise {A} (e : exn) : M A := λ h, (Raise e, h).

Global Instance M_ret : MRet M := λ A x h, (Ret x, h).
Global Instance M_bind : MBind M := λ A B f m h,
  match m h with
  | (Ret x, h') => f x h'
  | (Raise e, h') => (Raise e, h')
  end.

Fixpoint for_each {A} (l : list A) (body : A → M unit) : M unit :=
  match l with
  | [] => mret tt
  | x :: l' => body x;; for_each l' body
  end.

Definition instance (a : loc) : M SparseMatrix :=
  λ h, match objs h !! a with
       | Some o => (Ret o, h)
       | None => (Raise AttributeError, h)
       end.

Definition read_dict (d : loc) : M (Dict.t (Z * Z) float) :=
  λ h, match dicts h !! d with
       | Some m => (Ret m, h)
       | None => (Raise AttributeError, h)
       end.

Definition write_dict (d : loc) (m : Dict.t (Z * Z) float) : M unit :=
  λ h, match dicts h !! d with
       | Some _ => (Ret tt, mkHeap (objs h) (<[d := m]> (dicts h)))
       | None => (Raise AttributeError, h)
       end.

Definition new_dict : M loc :=
  λ h, (Ret (length (dicts h)), mkHeap (objs h) (dicts h ++ [Dict.empty])).

Definition new_instance (o : SparseMatrix) : M loc :=
  λ h, (Ret (length (objs h)), mkHeap (objs h ++ [o]) (dicts h)).

(** ** matrix_core.py *)

Definition SparseMatrix_init (rows cols : Z) : M loc :=
  d ← new_dict;
  new_instance (mkSparseMatrix rows cols d).

Definition SparseMatrix_set (self : loc) (row col : Z) (value : float)
  : M unit :=
  o ← instance self;
  if out_of_bounds o row col then
    raise (IndexError "Index out of bounds.")
  else
    d ← read_dict (data o);
    if negb (value =? 0)%float then
      write_dict (data o) (Dict.setitem (row, col) value d)
    else if Dict.contains (row, col) d then
      write_dict (data o) (Dict.delitem (row, col) d)
    else
      mret tt.

Definition SparseMatrix_get (self : loc) (row col : Z) : M float :=
  o ← instance self;
  d ← read_dict (data o);
  mret (Dict.get (row, col) 0%float d).

Definition SparseMatrix_items (self : loc) : M (list ((Z * Z) * float)) :=
  o ← instance self;
  d ← read_dict (data o);
  mret (Dict.items d).

(** ** operations.py *)

Definition check_dimensions (a b : loc) (operation : string) : M unit :=
  if bool_decide (operation = "add"%string)
     || bool_decide (operation = "subtract"%string) then
    oa ← instance a;
    ob ← instance b;
    if negb (rows oa =? rows ob) || negb (cols oa =? cols ob) then
      raise (ValueError msg_dims_add)
    else mret tt
  else if bool_decide (operation = "multiply"%string) then
    oa ← instance a;
    ob ← instance b;
    if negb (cols oa =? rows ob) then
      raise (ValueError msg_dims_mul)
    else mret tt
  else
    raise (ValueError msg_unknown).

Definition subtract (a b : loc) : M loc :=
  check_dimensions a b "subtract";;
  oa ← instance a;
  result ← SparseMatrix_init (rows oa) (cols oa);
  ia ← SparseMatrix_items a;
  for_each ia (λ '((i, j), val), SparseMatrix_set result i j val);;
  ib ← SparseMatrix_items b;
  for_each ib (λ '((i, j), val),
    g ← SparseMatrix_get result i j;
    SparseMatrix_set result i j (g - val)%float);;
  mret result.

Definition b_cols_step (b_cols : Dict.t Z (Dict.t Z float))
    (e : (Z * Z) * float) : Dict.t Z (Dict.t Z float) :=
  let '((row, col), val) := e in
  let b_cols1 :=
    if negb (Dict.contains row b_cols)
    then Dict.setitem row Dict.empty b_cols
    else b_cols in
  Dict.setitem row (Dict.setitem col val (Dict.get row Dict.empty b_cols1))
    b_cols1.

Definition multiply (a b : loc) : M loc :=
  check_dimensions a b "multiply";;
  oa ← instance a;
  ob ← instance b;
  result ← SparseMatrix_init (rows oa) (cols ob);
  ib ← SparseMatrix_items b;
  let b_cols := foldl b_cols_step Dict.empty ib in
  ia ← SparseMatrix_items a;
  for_each ia (λ '((i, k), val_a),
    match Dict.lookup k b_cols with
    | Some row_k =>
        for_each (Dict.items row_k) (λ '(j, val_b),
          g ← SparseMatrix_get result i j;
          SparseMatrix_set result i j (g + val_a * val_b)%float)
    | None => mret tt
    end);;
  mret result.

(** ** Notions used in the statements *)

Definition matrix_at (h : heap) (a : loc) (o : SparseMatrix)
    (d : Dict.t (Z * Z) float) : Prop :=
  objs h !! a = Some o ∧ dicts h !! data o = Some d.

(** Invariant I1. *)
Definition in_bounds (o : SparseMatrix) (d : Dict.t (Z * Z) float) : Prop :=
  Forall (λ e, (0 ≤ e.1.1 < rows o) ∧ (0 ≤ e.1.2 < cols o)) d.

(** A matrix of the data model: distinct keys, inside the declared shape. *)
Definition wf_matrix (h : heap) (a : loc) (o : SparseMatrix)
    (d : Dict.t (Z * Z) float) : Prop :=
  matrix_at h a o d ∧ Dict.ok d ∧ in_bounds o d.

(** What [get] reads from a dictionary. *)
Definition val (d : Dict.t (Z * Z) float) (k : Z * Z) : float :=
  Dict.get k 0%float d.

(** The value that [a.get(i, j)] returns in the store [h]. *)
Definition entry (h : heap) (a : loc) (i j : Z) : float :=
  match SparseMatrix_get a i j h with
  | (Ret v, _) => v
  | (Raise _, _) => 0%float
  end.

(** What [get] reads at a coordinate after [set] was given [x] there: [x]
    itself, or 0.0 when [x] compares equal to zero (0.0 and -0.0), since
    [set] then stores nothing. *)
Definition stored (x : float) : float :=
  if (x =? 0)%float then 0%float else x.

(** What a successful [set] does to the dictionary of its matrix. *)
Definition set_dict (k : Z * Z) (value : float) (d : Dict.t (Z * Z) float)
  : Dict.t (Z * Z) float :=
  if negb (value =? 0)%float then Dict.setitem k value d
  else if Dict.contains k d then Dict.delitem k d
  else d.

Definition with_result (h : heap) (o : SparseMatrix)
    (d : Dict.t (Z * Z) float) : heap :=
  mkHeap (objs h ++ [o]) (dicts h ++ [d]).

Definition result_instance (h : heap) (r c : Z) : SparseMatrix :=
  mkSparseMatrix r c (length (dicts h)).

(** The two loops of [subtract], as folds over the dictionary of the
    result. *)
Definition copy_step (d : Dict.t (Z * Z) float) (e : (Z * Z) * float)
  : Dict.t (Z * Z) float :=
  set_dict e.1 e.2 d.

Definition sub_step (d : Dict.t (Z * Z) float) (e : (Z * Z) * float)
  : Dict.t (Z * Z) float :=
  set_dict e.1 (val d e.1 - e.2)%float d.

(** What the index of [multiply] holds for row [k] and column [j]. *)
Definition nested (b_cols : Dict.t Z (Dict.t Z float)) (kj : Z * Z)
  : option float :=
  match Dict.lookup kj.1 b_cols with
  | Some row_k => Dict.lookup kj.2 row_k
  | None => None
  end.

Definition rows_ok (b_cols : Dict.t Z (Dict.t Z float)) : Prop :=
  ∀ k row_k, Dict.lookup k b_cols = Some row_k → Dict.ok row_k.

(** The loops of [multiply], as folds over the dictionary of the result. *)
Definition mul_inner_step (i : Z) (val_a : float) (d : Dict.t (Z * Z) float)
    (e : Z * float) : Dict.t (Z * Z) float :=
  set_dict (i, e.1) (val d (i, e.1) + val_a * e.2)%float d.

Definition mul_outer_step (b_cols : Dict.t Z (Dict.t Z float))
    (d : Dict.t (Z * Z) float) (e : (Z * Z) * float) : Dict.t (Z * Z) float :=
  match Dict.lookup e.1.2 b_cols with
  | Some row_k => foldl (mul_inner_step e.1.1 e.2) d (Dict.items row_k)
  | None => d
  end.

(** One item ((i', k), v) of A, seen from the coordinate (i, j) of the
    product: when i' = i and B stores a value at (k, j), the product of the
    two is added to what the coordinate holds, and [set] is given the
    rounded sum. *)
Definition accumulate (db : Dict.t (Z * Z) float) (i j : Z) (acc : float)
    (e : (Z * Z) * float) : float :=
  if decide (e.1.1 = i) then
    match Dict.lookup (e.1.2, j) db with
    | Some val_b => stored (acc + e.2 * val_b)%float
    | None => acc
    end
  else acc.

(** The value that [multiply] leaves at (i, j): the products of row i of A
    with column j of B, summed in floating point in the order in which A
    holds its items, over the items whose partner in B is stored. *)
Definition accumulated (da db : Dict.t (Z * Z) float) (i j : Z) : float :=
  foldl (accumulate db i j) 0%float da.

(** End-to-end scenario 3, from the construction of the operands on. *)
Definition scenario3 : M (list ((Z * Z) * float) * float) :=
  A ← SparseMatrix_init 2 2;
  SparseMatrix_set A 0 0 2;;
  SparseMatrix_set A 0 1 3;;
  B ← SparseMatrix_init 2 2;
  SparseMatrix_set B 0 0 4;;
  SparseMatrix_set B 1 0 5;;
  C ← multiply A B;
  entries ← SparseMatrix_items C;
  c01 ← SparseMatrix_get C 0 1;
  mret (entries, c01).

(** A store with two 2 by 2 matrices, A = {(0,0): 2.5, (0,1): 3.0} at
    reference 0 and B = {(0,0): 4.0, (1,0): 0.5} at reference 1. *)
Definition two_matrices : heap :=
  mkHeap [mkSparseMatrix 2 2 0; mkSparseMatrix 2 2 1]
         [[((0, 0), 2.5%float); ((0, 1), 3%float)];
          [((0, 0), 4%float); ((1, 0), 0.5%float)]].

(** A store with the 1 by 1 matrix {(0,0): inf}, as the parser builds it
    from the line [(0, 0, inf)], and an empty 1 by 1 matrix. *)
Definition infinite_entry : heap :=
  mkHeap [mkSparseMatrix 1 1 0; mkSparseMatrix 1 1 1]
         [[((0, 0), infinity)]; []].

(** Two stores that differ in the order in which the 1 by 3 matrix at
    reference 0 received its three items; the matrix at reference 1 is the
    3 by 1 matrix of ones. *)
Definition ones : Dict.t (Z * Z) float :=
  [((0, 0), 1%float); ((1, 0), 1%float); ((2, 0), 1%float)].

Definition cancel_late : heap :=
  mkHeap [mkSparseMatrix 1 3 0; mkSparseMatrix 3 1 1]
         [[((0, 0), 1e16%float); ((0, 1), 1%float); ((0, 2), (-1e16)%float)];
          ones].

Definition cancel_early : heap :=
  mkHeap [mkSparseMatrix 1 3 0; mkSparseMatrix 3 1 1]
         [[((0, 0), 1e16%float); ((0, 2), (-1e16)%float); ((0, 1), 1%float)];
          ones].
End Float64.

(** * Notions used in the statements and in their proofs *)

(** [matrix_at h a o d]: in the store [h] the reference [a] denotes the
    instance [o], and [o.data] holds the items [d]. *)
Definition matrix_at (h : heap) (a : loc) (o : SparseMatrix)
    (d : Dict.t (Z * Z) Z) : Prop :=
  objs h !! a = Some o ∧ dicts h !! data o = Some d.

(** Invariant I1: every key lies inside the declared shape. *)
Definition in_bounds (o : SparseMatrix) (d : Dict.t (Z * Z) Z) : Prop :=
  Forall (λ e, (0 ≤ e.1.1 < rows o) ∧ (0 ≤ e.1.2 < cols o)) d.

(** Invariant I2: no stored value is zero. *)
Definition no_zero (d : Dict.t (Z * Z) Z) : Prop :=
  Forall (λ e, e.2 ≠ 0) d.

(** What [get] reads from a dictionary. *)
Definition val (d : Dict.t (Z * Z) Z) (k : Z * Z) : Z := Dict.get k 0 d.

(** What a successful [set] does to the dictionary of its matrix. *)
Definition set_dict (k : Z * Z) (value : Z) (d : Dict.t (Z * Z) Z)
  : Dict.t (Z * Z) Z :=
  if negb (value =? 0) then Dict.setitem k value d
  else if Dict.contains k d then Dict.delitem k d
  else d.

(** The store [h] extended by one instance [o] and one dictionary [d]: the
    shape of every store in which an operation fills its result. *)
Definition with_result (h : heap) (o : SparseMatrix) (d : Dict.t (Z * Z) Z)
  : heap :=
  mkHeap (objs h ++ [o]) (dicts h ++ [d]).

(** Whatever happens, a computation that [stays] leaves the store [h] as it
    was and touches nothing but the dictionary of the result [o]; it raises
    no [ValueError], and what it returns satisfies [P]. *)
Definition stays {A} (h : heap) (o : SparseMatrix) (P : A → Prop) (m : M A)
  : Prop :=
  ∀ d, ∃ out d',
    m (with_result h o d) = (out, with_result h o d')
    ∧ (∀ msg, out ≠ Raise (ValueError msg))
    ∧ (∀ x, out = Ret x → P x).

(** The two loops of [add] and [subtract], as folds over the dictionary of
    the result. *)
Definition copy_step (d : Dict.t (Z * Z) Z) (e : (Z * Z) * Z)
  : Dict.t (Z * Z) Z :=
  set_dict e.1 e.2 d.

(** The second loop, for [f] the addition or the subtraction. *)
Definition acc_step (f : Z → Z → Z) (d : Dict.t (Z * Z) Z) (e : (Z * Z) * Z)
  : Dict.t (Z * Z) Z :=
  set_dict e.1 (f (val d e.1) e.2) d.

(** The instance that [add], [subtract] and [multiply] allocate in [h]. *)
Definition result_instance (h : heap) (r c : Z) : SparseMatrix :=
  mkSparseMatrix r c (length (dicts h)).

(** What the index holds for row [k] and column [j]. *)
Definition nested (b_cols : Dict.t Z (Dict.t Z Z)) (kj : Z * Z) : option Z :=
  match Dict.lookup kj.1 b_cols with
  | Some row_k => Dict.lookup kj.2 row_k
  | None => None
  end.

(** Every row of the index is a dictionary with distinct keys. *)
Definition rows_ok (b_cols : Dict.t Z (Dict.t Z Z)) : Prop :=
  ∀ k row_k, Dict.lookup k b_cols = Some row_k → Dict.ok row_k.

(** The loops of [multiply], as folds over the dictionary of the result:
    one item of a row of the index, and one item of [a]. *)
Definition mul_inner_step (i val_a : Z) (d : Dict.t (Z * Z) Z) (e : Z * Z)
  : Dict.t (Z * Z) Z :=
  set_dict (i, e.1) (val d (i, e.1) + val_a * e.2) d.

Definition mul_outer_step (b_cols : Dict.t Z (Dict.t Z Z))
    (d : Dict.t (Z * Z) Z) (e : (Z * Z) * Z) : Dict.t (Z * Z) Z :=
  match Dict.lookup e.1.2 b_cols with
  | Some row_k => foldl (mul_inner_step e.1.1 e.2) d (Dict.items row_k)
  | None => d
  end.

(** The sum of a list of numbers. *)
Definition sumZ (l : list Z) : Z := foldr Z.add 0 l.

(** What the index gives for [b.get(k, j)]. *)
Definition bval (b_cols : Dict.t Z (Dict.t Z Z)) (k j : Z) : Z :=
  match nested b_cols (k, j) with Some v => v | None => 0 end.

(** [allocated h r c res]: the call went past the dimension check; it
    allocated an [r] by [c] result after [h] and did not touch [h]. *)
Definition allocated (h : heap) (r c : Z) (res : outcome loc * heap) : Prop :=
  ∃ d, res.2 = with_result h (result_instance h r c) d
       ∧ (∀ msg, res.1 ≠ Raise (ValueError msg))
       ∧ (∀ x, res.1 = Ret x → x = length (objs h)).

(** A matrix of the data model: the reference denotes an instance, the keys
    of its dictionary are distinct (as in any Python dictionary) and inside
    the declared shape (invariant I1). *)
Definition wf_matrix (h : heap) (a : loc) (o : SparseMatrix)
    (d : Dict.t (Z * Z) Z) : Prop :=
  matrix_at h a o d ∧ Dict.ok d ∧ in_bounds o d.

(** The value that [a.get(i, j)] returns in the store [h]. *)
Definition entry (h : heap) (a : loc) (i j : Z) : Z :=
  match SparseMatrix_get a i j h with
  | (Ret v, _) => v
  | (Raise _, _) => 0
  end.

(** A caller that makes the calls [set(r, c, v)] of a list one after the
    other, and goes on after a call that raised. *)
Fixpoint set_calls (self : loc) (calls : list (Z * Z * Z)) (h : heap) : heap :=
  match calls with
  | [] => h
  | (r, c, v) :: calls' =>
      set_calls self calls' (SparseMatrix_set self r c v h).2
  end.

(** The error kinds of the specification, as the exceptions of the code. *)
Definition IndexOutOfBounds (e : exn) : Prop :=
  e = IndexError "Index out of bounds.".

(** The two dimension errors of [check_dimensions]. *)
Definition DimensionMismatch (e : exn) : Prop :=
  e = ValueError msg_dims_add ∨ e = ValueError msg_dims_mul.

(** The computation ended by raising an exception of the kind [P]. *)
Definition fails_with {A} (P : exn → Prop) (res : outcome A * heap) : Prop :=
  ∃ e, res.1 = Raise e ∧ P e.

(** A store with two 2 by 2 matrices, A = {(0,0): 2, (0,1): 3} at reference
    0 and B = {(0,0): 4, (1,0): 5} at reference 1. *)
Definition two_matrices : heap :=
  mkHeap [mkSparseMatrix 2 2 0; mkSparseMatrix 2 2 1]
         [[((0, 0), 2); ((0, 1), 3)]; [((0, 0), 4); ((1, 0), 5)]].

(** A store with a 2 by 3 matrix at reference 0 and a 2 by 2 matrix at
    reference 1. *)
Definition two_shapes : heap :=
  mkHeap [mkSparseMatrix 2 3 0; mkSparseMatrix 2 2 1] [[((0, 2), 1)]; []].

(** [leaves_inputs op]: whatever a call [op(a, b)] does, returning or
    raising, every object of the store it is called in is afterwards as it
    was, the matrices a and b among them; what it returns is a reference
    that the store before the call does not have, and its dictionary is
    one that the store before the call does not have either. *)
Definition leaves_inputs (op : loc → loc → M loc) : Prop :=
  ∀ h a b out h',
    op a b h = (out, h') →
    objs h `prefix_of` objs h'
    ∧ dicts h `prefix_of` dicts h'
    ∧ (∀ x o d, matrix_at h x o d → matrix_at h' x o d)
    ∧ (∀ r, out = Ret r →
         objs h !! r = None
         ∧ ∃ o d, matrix_at h' r o d
                  ∧ dicts h !! data o = None
                  ∧ ∀ x ox dx, matrix_at h x ox dx → x ≠ r ∧ data ox ≠ data o).

(** What the parser's counters are after a skipped entry. *)
Definition skip_stats (st : stats) (row col : Z) : stats :=
  mkStats (total_entries st + 1) (skipped_entries st + 1)
    (Dict.setitem (row, col)
       (Dict.get (row, col) 0 (out_of_bounds_indices st) + 1)
       (out_of_bounds_indices st)).

(** And after an entry that was set. *)
Definition keep_stats (st : stats) : stats :=
  mkStats (total_entries st + 1) (skipped_entries st)
    (out_of_bounds_indices st).

(** The entries of a file that the parser keeps, in the order of the file. *)
Definition kept_entries (rws cls : Z) (entries : list (Z * Z * Z))
  : list (Z * Z * Z) :=
  filter (λ e : Z * Z * Z, (0 ≤ e.1.1 < rws) ∧ (0 ≤ e.1.2 < cls)) entries.

(** A 2 by 2 file whose second entry has row = rows. *)
Definition file_scenario4 : list string :=
  ["rows=2"; "cols=2"; "(0, 0, 5)"; "(2, 0, 7)"; "(1, 1, -3)"]%string.

(** * Notions for the further properties *)

(** The cells of a [rws] by [cls] shape, row by row. *)
Definition cells (rws cls : Z) : list (Z * Z) :=
  r ← seqZ 0 rws; c ← seqZ 0 cls; [(r, c)].

(** Every matrix of the store [h] is the same matrix in the store [h']. *)
Definition extends (h h' : heap) : Prop :=
  ∀ x o d, matrix_at h x o d → matrix_at h' x o d.

(** A store with the 2 by 2 matrix {(0,0): 2, (0,1): 3} at reference 0 and
    an empty 2 by 2 matrix at reference 1. *)
Definition matrix_and_empty : heap :=
  mkHeap [mkSparseMatrix 2 2 0; mkSparseMatrix 2 2 1]
         [[((0, 0), 2); ((0, 1), 3)]; []].

(** The counters of the parser after the entries of a list. *)
Definition stats_after (rws cls : Z) (st : stats) (entries : list (Z * Z * Z))
  : stats :=
  foldl (λ st e,
           if decide ((0 ≤ e.1.1 < rws) ∧ (0 ≤ e.1.2 < cls))
           then keep_stats st
           else skip_stats st e.1.1 e.1.2)
    st entries.

(** The three messages of a malformed body line. *)
Definition malformed_message (line_num : nat) (line msg : string) : Prop :=
  msg = msg_invalid_format line_num line
  ∨ msg = msg_expected_3 line_num line
  ∨ msg = msg_non_numeric line_num line.

(** The text whose lines are those of a list, each ended by a newline. *)
Fixpoint unlines (lines : list string) : string :=
  match lines with
  | [] => EmptyString
  | line :: lines' => line +:+ newline +:+ unlines lines'
  end.

(** The lines that [write_matrix_to_file] writes for a matrix. *)
Definition written_lines (rws cls : Z) (its : list ((Z * Z) * Z))
  : list string :=
  ("rows=" +:+ pretty rws) :: ("cols=" +:+ pretty cls)
  :: (entry_line <$> sorted its).

(** The exception [e] comes from [print]: the standard output raises it for
    some text. *)
Definition print_error (py : builtins) (e : exn) : Prop :=
  ∃ text, stdout py text = Some e.

(** The standard output accepts every text: no call of [print] raises. *)
Definition accepts_all (py : builtins) : Prop :=
  ∀ text, stdout py text = None.

(** A computation that only prints: it leaves the store as it is, and it
    returns or raises an exception of [print]. *)
Definition prints_only (py : builtins) (m : M unit) : Prop :=
  ∀ h, ∃ out,
    m h = (out, h) ∧ (out = Ret tt ∨ ∃ e, out = Raise e ∧ print_error py e).

(** The invariants of the data model on a dictionary of the shape [o]:
    distinct keys, inside the shape (I1), no zero (I2). *)
Definition invariants (o : SparseMatrix) (d : Dict.t (Z * Z) Z) : Prop :=
  Dict.ok d ∧ in_bounds o d ∧ no_zero d.

(** The messages with which the parser ends a parse: no header; the
    message of [int] for the field of a header line; a malformed line. *)
Definition parser_message (py : builtins) (msg : string) : Prop :=
  msg = msg_missing_header
  ∨ (∃ field, msg = int_message py field)
  ∨ ∃ line_num line, malformed_message line_num line msg.

(** What a call of the parser on [lines] in the store [h] can end with: a
    new matrix that satisfies the invariants, with the shape that the
    header lines declare; a ValueError with one of the parser's messages; an
    exception that [print] raised. *)
Definition parser_outcome (py : builtins) (lines : list string) (h : heap)
    (out : outcome loc) (h' : heap) : Prop :=
  (∃ o d, out = Ret (length (objs h))
          ∧ wf_matrix h' (length (objs h)) o d ∧ no_zero d
          ∧ ∃ l0 l1 body, lines = l0 :: l1 :: body
              ∧ header_dim py "rows=" l0 = Some (rows o)
              ∧ header_dim py "cols=" l1 = Some (cols o)
              ∧ Forall (λ line, is_Some (line_entry py line)) body)
  ∨ (∃ msg, out = Raise (ValueError msg) ∧ parser_message py msg)
  ∨ (∃ e, out = Raise e ∧ print_error py e).

(** A well-formed file: two header lines that give the dimensions, then
    lines that stand for entries. *)
Definition well_formed (py : builtins) (lines : list string) : Prop :=
  ∃ l0 l1 body rws cls,
    lines = l0 :: l1 :: body
    ∧ header_dim py "rows=" l0 = Some rws
    ∧ header_dim py "cols=" l1 = Some cls
    ∧ Forall (λ line, is_Some (line_entry py line)) body.

(** The shapes that the operation chosen by [choice] accepts. *)
Definition compatible (choice : string) (r1 c1 r2 c2 : Z) : Prop :=
  if bool_decide (choice = "3"%string) then c1 = r2 else r1 = r2 ∧ c1 = c2.

Global Instance compatible_dec choice r1 c1 r2 c2 :
  Decision (compatible choice r1 c1 r2 c2).
Proof. unfold compatible. destruct (bool_decide _); apply _. Defined.

(** * Properties *)

(** ** Dictionaries *)

Module DictFacts.
Section facts.
Context {K V : Type} `{EqDecision K}.
Implicit Types (k : K) (v : V) (d : Dict.t K V).

Lemma lookup_None k d : Dict.lookup k d = None ↔ k ∉ Dict.keys d.
Proof.
  unfold Dict.keys. induction d as [|[k' v'] d IH]; simpl.
  - split; [intros _; apply not_elem_of_nil | done].
  - rewrite not_elem_of_cons. destruct (decide (k = k')); [|tauto].
    split; [done | intros [? _]; done].
Qed.

Lemma lookup_Some_elem k v d : Dict.lookup k d = Some v → (k, v) ∈ d.
Proof.
  induction d as [|[k' v'] d IH]; simpl; [done|].
  destruct (decide (k = k')) as [->|].
  - intros [= ->]. left.
  - intros. right. auto.
Qed.

Lemma elem_lookup_Some k v d : Dict.ok d → (k, v) ∈ d → Dict.lookup k d = Some v.
Proof.
  unfold Dict.ok, Dict.keys.
  induction d as [|[k' v'] d IH]; simpl; intros Hnd Hin.
  - by apply elem_of_nil in Hin.
  - apply NoDup_cons in Hnd as [Hk' Hnd].
    apply elem_of_cons in Hin as [[= -> ->]|Hin].
    + by rewrite decide_True.
    + destruct (decide (k = k')) as [->|]; [|auto].
      exfalso. apply Hk'. apply list_elem_of_fmap. by exists (k', v).
Qed.

Lemma lookup_setitem k v d k' :
  Dict.lookup k' (Dict.setitem k v d)
  = if decide (k' = k) then Some v else Dict.lookup k' d.
Proof.
  induction d as [|[k1 v1] d IH]; simpl.
  - done.
  - destruct (decide (k = k1)) as [->|Hne]; simpl.
    + destruct (decide (k' = k1)); done.
    + rewrite IH. destruct (decide (k' = k1)) as [->|]; [|done].
      destruct (decide (k1 = k)); congruence.
Qed.

Lemma keys_setitem_perm k v d :
  Dict.keys (Dict.setitem k v d)
  = if decide (k ∈ Dict.keys d) then Dict.keys d else Dict.keys d ++ [k].
Proof.
  unfold Dict.keys. induction d as [|[k1 v1] d IH].
  - cbn. destruct (decide (k ∈ [])) as [H1|]; [by apply elem_of_nil in H1 | done].
  - cbn [Dict.setitem]. destruct (decide (k = k1)) as [->|Hne].
    + rewrite !fmap_cons. cbn [fst].
      destruct (decide (k1 ∈ k1 :: d.*1)) as [|H1]; [done|].
      exfalso. apply H1. left.
    + rewrite !fmap_cons, IH. cbn [fst].
      destruct (decide (k ∈ d.*1)) as [H1|H1];
        destruct (decide (k ∈ k1 :: d.*1)) as [H2|H2]; try done.
      * exfalso. apply H2. by right.
      * apply elem_of_cons in H2 as [?|?]; done.
Qed.

Lemma ok_empty : Dict.ok (Dict.empty : Dict.t K V).
Proof. apply NoDup_nil_2. Qed.

Lemma ok_cons k v d :
  Dict.ok ((k, v) :: d) ↔ (k ∉ Dict.keys d) ∧ Dict.ok d.
Proof. unfold Dict.ok, Dict.keys. rewrite fmap_cons. apply NoDup_cons. Qed.

Lemma ok_setitem k v d : Dict.ok d → Dict.ok (Dict.setitem k v d).
Proof.
  unfold Dict.ok. rewrite keys_setitem_perm. case_decide; [done|].
  intros Hd. apply NoDup_app. split_and!; [done | | apply NoDup_singleton].
  intros x Hx Hx'. apply list_elem_of_singleton in Hx'. by subst.
Qed.

Lemma elem_setitem k v d e :
  e ∈ Dict.setitem k v d → e = (k, v) ∨ e ∈ d.
Proof.
  induction d as [|[k1 v1] d IH]; simpl.
  - intros ->%list_elem_of_singleton. by left.
  - destruct (decide (k = k1)) as [->|Hne].
    + intros [->|Hin]%elem_of_cons; [by left|]. right. by right.
    + intros [->|Hin]%elem_of_cons; [right; left|].
      destruct (IH Hin); [by left | right; by right].
Qed.

Lemma elem_delitem k d e : e ∈ Dict.delitem k d → e ∈ d.
Proof.
  induction d as [|[k1 v1] d IH]; simpl; [done|].
  destruct (decide (k = k1)) as [->|Hne].
  - intros. by right.
  - intros [->|Hin]%elem_of_cons; [left | right; auto].
Qed.

Lemma ok_delitem k d : Dict.ok d → Dict.ok (Dict.delitem k d).
Proof.
  unfold Dict.ok, Dict.keys. induction d as [|[k1 v1] d IH]; simpl; [done|].
  intros [Hk1 Hd]%NoDup_cons. destruct (decide (k = k1)) as [->|Hne]; [done|].
  simpl. apply NoDup_cons. split; [|auto].
  intros (e & He1 & He)%list_elem_of_fmap. apply elem_delitem in He.
  apply Hk1. apply list_elem_of_fmap. eauto.
Qed.

Lemma lookup_delitem k d k' :
  Dict.ok d →
  Dict.lookup k' (Dict.delitem k d)
  = if decide (k' = k) then None else Dict.lookup k' d.
Proof.
  unfold Dict.ok, Dict.keys. induction d as [|[k1 v1] d IH]; simpl.
  - by case_decide.
  - intros [Hk1 Hd]%NoDup_cons. destruct (decide (k = k1)) as [->|Hne]; simpl.
    + destruct (decide (k' = k1)) as [->|]; [|done].
      by apply lookup_None.
    + rewrite IH by done. destruct (decide (k' = k1)) as [->|]; [|done].
      destruct (decide (k1 = k)); congruence.
Qed.
End facts.
End DictFacts.

(** ** Matrices in the store *)

Ltac unfold_M :=
  unfold mbind, M_bind, mret, M_ret, raise, instance, read_dict, write_dict,
    new_dict, new_instance.

Lemma out_of_bounds_true o row col :
  out_of_bounds o row col = true
  ↔ row < 0 ∨ rows o ≤ row ∨ col < 0 ∨ cols o ≤ col.
Proof. unfold out_of_bounds. rewrite !orb_true_iff. lia. Qed.

Lemma out_of_bounds_false o row col :
  out_of_bounds o row col = false
  ↔ (0 ≤ row < rows o) ∧ (0 ≤ col < cols o).
Proof.
  rewrite <- not_true_iff_false, out_of_bounds_true. lia.
Qed.

Lemma heap_eta h : mkHeap (objs h) (dicts h) = h.
Proof. by destruct h. Qed.

Lemma SparseMatrix_set_run h self o d row col value :
  matrix_at h self o d →
  SparseMatrix_set self row col value h
  = if out_of_bounds o row col
    then (Raise (IndexError "Index out of bounds."), h)
    else (Ret tt,
          mkHeap (objs h) (<[data o := set_dict (row, col) value d]> (dicts h))).
Proof.
  intros [Ho Hd]. unfold SparseMatrix_set, set_dict. unfold_M. rewrite Ho.
  destruct (out_of_bounds o row col); [done|]. rewrite Hd.
  destruct (negb (value =? 0)); [by rewrite Hd|].
  destruct (Dict.contains (row, col) d); [by rewrite Hd|].
  by rewrite list_insert_id, heap_eta.
Qed.

Lemma SparseMatrix_get_run h self o d row col :
  matrix_at h self o d →
  SparseMatrix_get self row col h = (Ret (val d (row, col)), h).
Proof.
  intros [Ho Hd]. unfold SparseMatrix_get. unfold_M. by rewrite Ho, Hd.
Qed.

Lemma SparseMatrix_items_run h self o d :
  matrix_at h self o d →
  SparseMatrix_items self h = (Ret (Dict.items d), h).
Proof.
  intros [Ho Hd]. unfold SparseMatrix_items. unfold_M. by rewrite Ho, Hd.
Qed.

Lemma SparseMatrix_init_run h r c :
  SparseMatrix_init r c h
  = (Ret (length (objs h)),
     mkHeap (objs h ++ [mkSparseMatrix r c (length (dicts h))])
            (dicts h ++ [Dict.empty])).
Proof. done. Qed.

(** *** The dictionary after [set] *)

Lemma val_set_dict k v d k' :
  Dict.ok d → val (set_dict k v d) k' = if decide (k' = k) then v else val d k'.
Proof.
  intros Hok. unfold val, set_dict, Dict.get.
  destruct (Z.eqb_spec v 0) as [->|Hv]; simpl.
  - destruct (Dict.contains k d) eqn:Hc.
    + rewrite DictFacts.lookup_delitem by done. by destruct (decide (k' = k)).
    + destruct (decide (k' = k)) as [->|]; [|done].
      unfold Dict.contains in Hc. by destruct (Dict.lookup k d).
  - rewrite DictFacts.lookup_setitem. by destruct (decide (k' = k)).
Qed.

Lemma ok_set_dict k v d : Dict.ok d → Dict.ok (set_dict k v d).
Proof.
  intros Hok. unfold set_dict.
  destruct (negb (v =? 0)); [by apply DictFacts.ok_setitem|].
  destruct (Dict.contains k d); [by apply DictFacts.ok_delitem | done].
Qed.

Lemma elem_set_dict k v d e :
  e ∈ set_dict k v d → (e = (k, v) ∧ v ≠ 0) ∨ e ∈ d.
Proof.
  unfold set_dict. destruct (Z.eqb_spec v 0) as [->|Hv]; simpl.
  - destruct (Dict.contains k d); [|by right].
    intros ?%DictFacts.elem_delitem. by right.
  - intros [->|?]%DictFacts.elem_setitem; [by left | by right].
Qed.

Lemma no_zero_set_dict k v d : no_zero d → no_zero (set_dict k v d).
Proof.
  unfold no_zero. rewrite !Forall_forall. intros Hd e He.
  apply elem_set_dict in He as [[-> Hv]|He]; [done | auto].
Qed.

Lemma in_bounds_set_dict o row col v d :
  out_of_bounds o row col = false →
  in_bounds o d → in_bounds o (set_dict (row, col) v d).
Proof.
  unfold in_bounds. rewrite !Forall_forall. intros Hb Hd e He.
  apply elem_set_dict in He as [[-> Hv]|He]; [|auto].
  by apply out_of_bounds_false in Hb.
Qed.

Lemma keys_in_bounds o d r c :
  in_bounds o d → (r, c) ∈ Dict.keys d → out_of_bounds o r c = false.
Proof.
  unfold in_bounds, Dict.keys. rewrite Forall_forall.
  intros Hd ([k v] & Hk & He)%list_elem_of_fmap. simpl in Hk. subst k.
  apply out_of_bounds_false. apply (Hd _ He).
Qed.

Lemma val_out_of_bounds o d r c :
  in_bounds o d → out_of_bounds o r c = true → val d (r, c) = 0.
Proof.
  intros Hd Hb. unfold val, Dict.get.
  destruct (Dict.lookup (r, c) d) eqn:E; [|done].
  assert ((r, c) ∈ Dict.keys d) as Hk.
  { destruct (decide ((r, c) ∈ Dict.keys d)); [done|].
    apply DictFacts.lookup_None in n. congruence. }
  apply (keys_in_bounds o) in Hk; [congruence | done].
Qed.

Lemma no_zero_val_nil d : no_zero d → (∀ k, val d k = 0) → d = [].
Proof.
  destruct d as [|[k v] d]; [done|]. intros Hnz Hval. exfalso.
  apply Forall_cons in Hnz as [Hv _]. specialize (Hval k).
  unfold val, Dict.get in Hval. simpl in *. by rewrite decide_True in Hval.
Qed.

(** ** Loops that fill a result matrix

    Every operation allocates its result after the store [h] it was called
    in, and then only writes the result's dictionary.  [with_result h o d]
    is the store [h] extended by the result instance [o], whose dictionary
    currently holds [d]. *)

Section result.
Context (h : heap) (o : SparseMatrix).
Hypothesis Hdata : data o = length (dicts h).

Let res : loc := length (objs h).

Lemma matrix_at_result d : matrix_at (with_result h o d) res o d.
Proof.
  unfold matrix_at, with_result, res. simpl. rewrite Hdata. split.
  - by rewrite lookup_app_r, Nat.sub_diag.
  - by rewrite lookup_app_r, Nat.sub_diag.
Qed.

Lemma matrix_at_old d a oa da :
  matrix_at h a oa da → matrix_at (with_result h o d) a oa da.
Proof.
  intros [Ha Hda]. unfold matrix_at, with_result. simpl. split.
  - by apply lookup_app_l_Some.
  - by apply lookup_app_l_Some.
Qed.

Lemma set_result d row col value :
  SparseMatrix_set res row col value (with_result h o d)
  = if out_of_bounds o row col
    then (Raise (IndexError "Index out of bounds."), with_result h o d)
    else (Ret tt, with_result h o (set_dict (row, col) value d)).
Proof.
  rewrite (SparseMatrix_set_run _ _ o d) by apply matrix_at_result.
  destruct (out_of_bounds o row col); [done|].
  unfold with_result. simpl. f_equal. f_equal. rewrite Hdata.
  replace (length (dicts h)) with (length (dicts h) + 0)%nat at 1 by lia.
  by rewrite insert_app_r.
Qed.

Lemma get_result d row col :
  SparseMatrix_get res row col (with_result h o d)
  = (Ret (val d (row, col)), with_result h o d).
Proof. apply (SparseMatrix_get_run _ _ o), matrix_at_result. Qed.

(** A loop whose iterations all succeed and only rewrite the result's
    dictionary is a left fold over that dictionary. *)
Lemma for_each_result {A} (l : list A) (body : A → M unit)
    (step : Dict.t (Z * Z) Z → A → Dict.t (Z * Z) Z) d :
  (∀ x d', x ∈ l →
     body x (with_result h o d') = (Ret tt, with_result h o (step d' x))) →
  for_each l body (with_result h o d)
  = (Ret tt, with_result h o (foldl step d l)).
Proof.
  revert d. induction l as [|x l IH]; intros d Hbody; simpl; [done|].
  unfold mbind, M_bind. rewrite Hbody by left.
  apply IH. intros y d' Hy. apply Hbody. by right.
Qed.

Lemma stays_ret {A} (P : A → Prop) (x : A) : P x → stays h o P (mret x).
Proof.
  intros HP d. exists (Ret x), d. split_and!; [done..|]. by intros ? [= <-].
Qed.

Lemma stays_bind {A B} (Q : A → Prop) (P : B → Prop) (m : M A) (f : A → M B) :
  stays h o Q m → (∀ x, stays h o P (f x)) → stays h o P (m ≫= f).
Proof.
  intros Hm Hf d. destruct (Hm d) as (out & d' & E & Hout & _).
  unfold mbind, M_bind. rewrite E. destruct out as [x|e].
  - apply Hf.
  - exists (Raise e), d'. split_and!; [done| |done].
    intros msg [= ->]. by eapply Hout.
Qed.

Lemma stays_for_each {A} (l : list A) (body : A → M unit) :
  (∀ x, stays h o (λ _, True) (body x)) → stays h o (λ _, True) (for_each l body).
Proof.
  intros Hbody. induction l as [|x l IH]; simpl.
  - by apply stays_ret.
  - eapply stays_bind; [apply Hbody | intros _; apply IH].
Qed.

Lemma stays_set row col value :
  stays h o (λ _, True) (SparseMatrix_set res row col value).
Proof.
  intros d. rewrite set_result.
  destruct (out_of_bounds o row col); by eexists _, _.
Qed.

Lemma stays_get row col : stays h o (λ _, True) (SparseMatrix_get res row col).
Proof. intros d. rewrite get_result. by eexists _, _. Qed.

Lemma stays_items a : stays h o (λ _, True) (SparseMatrix_items a).
Proof.
  intros d. unfold SparseMatrix_items. unfold_M.
  destruct (objs _ !! a) as [oa|]; [|by eexists _, _].
  destruct (dicts _ !! data oa); by eexists _, _.
Qed.

(** The two loops of [add] and [subtract], and the [return]. *)
Lemma stays_elementwise (f : Z → Z → Z) a b :
  stays h o (λ r, r = res)
    (ia ← SparseMatrix_items a;
     for_each ia (λ '((i, j), val), SparseMatrix_set res i j val);;
     ib ← SparseMatrix_items b;
     for_each ib (λ '((i, j), val),
       g ← SparseMatrix_get res i j;
       SparseMatrix_set res i j (f g val));;
     mret res).
Proof.
  eapply stays_bind; [apply stays_items|]. intros ia.
  eapply stays_bind.
  { apply stays_for_each. intros [[i j] v]. apply stays_set. }
  intros _. eapply stays_bind; [apply stays_items|]. intros ib.
  eapply stays_bind; [|intros _; by apply stays_ret].
  apply stays_for_each. intros [[i j] v].
  eapply stays_bind; [apply stays_get | intros g; apply stays_set].
Qed.

(** The accumulation loop of [multiply], and the [return]. *)
Lemma stays_products a (b_cols : Dict.t Z (Dict.t Z Z)) :
  stays h o (λ r, r = res)
    (ia ← SparseMatrix_items a;
     for_each ia (λ '((i, k), val_a),
       match Dict.lookup k b_cols with
       | Some row_k =>
           for_each (Dict.items row_k) (λ '(j, val_b),
             g ← SparseMatrix_get res i j;
             SparseMatrix_set res i j (g + val_a * val_b))
       | None => mret tt
       end);;
     mret res).
Proof.
  eapply stays_bind; [apply stays_items|]. intros ia.
  eapply stays_bind; [|intros _; by apply stays_ret].
  apply stays_for_each. intros [[i k] va].
  destruct (Dict.lookup k b_cols) as [row_k|]; [|by apply stays_ret].
  apply stays_for_each. intros [j vb].
  eapply stays_bind; [apply stays_get | intros g; apply stays_set].
Qed.
End result.

Lemma bind_ret_run {A B} (m : M A) (f : A → M B) h x h' :
  m h = (Ret x, h') → (m ≫= f) h = f x h'.
Proof. intros E. unfold mbind, M_bind. by rewrite E. Qed.

Lemma bind_raise_run {A B} (m : M A) (f : A → M B) h e h' :
  m h = (Raise e, h') → (m ≫= f) h = (Raise e, h').
Proof. intros E. unfold mbind, M_bind. by rewrite E. Qed.

Lemma instance_run h a o : objs h !! a = Some o → instance a h = (Ret o, h).
Proof. intros E. unfold instance. by rewrite E. Qed.

(** ** check_dimensions *)

Lemma check_dimensions_add_run h a b oa ob :
  objs h !! a = Some oa → objs h !! b = Some ob →
  check_dimensions a b "add" h
  = if bool_decide (rows oa = rows ob ∧ cols oa = cols ob)
    then (Ret tt, h) else (Raise (ValueError msg_dims_add), h).
Proof.
  intros Ha Hb. unfold check_dimensions. simpl.
  rewrite (bind_ret_run _ _ h oa h) by by apply instance_run.
  rewrite (bind_ret_run _ _ h ob h) by by apply instance_run.
  destruct (Z.eqb_spec (rows oa) (rows ob)), (Z.eqb_spec (cols oa) (cols ob));
    simpl; case_bool_decide; try done; tauto.
Qed.

Lemma check_dimensions_subtract_run h a b oa ob :
  objs h !! a = Some oa → objs h !! b = Some ob →
  check_dimensions a b "subtract" h
  = if bool_decide (rows oa = rows ob ∧ cols oa = cols ob)
    then (Ret tt, h) else (Raise (ValueError msg_dims_add), h).
Proof.
  intros Ha Hb. unfold check_dimensions. simpl.
  rewrite (bind_ret_run _ _ h oa h) by by apply instance_run.
  rewrite (bind_ret_run _ _ h ob h) by by apply instance_run.
  destruct (Z.eqb_spec (rows oa) (rows ob)), (Z.eqb_spec (cols oa) (cols ob));
    simpl; case_bool_decide; try done; tauto.
Qed.

Lemma check_dimensions_multiply_run h a b oa ob :
  objs h !! a = Some oa → objs h !! b = Some ob →
  check_dimensions a b "multiply" h
  = if bool_decide (cols oa = rows ob)
    then (Ret tt, h) else (Raise (ValueError msg_dims_mul), h).
Proof.
  intros Ha Hb. unfold check_dimensions. simpl.
  rewrite (bind_ret_run _ _ h oa h) by by apply instance_run.
  rewrite (bind_ret_run _ _ h ob h) by by apply instance_run.
  destruct (Z.eqb_spec (cols oa) (rows ob)); simpl; case_bool_decide; done.
Qed.

(** Whatever its outcome, [check_dimensions] leaves the store alone. *)
Lemma check_dimensions_pure a b operation h :
  (check_dimensions a b operation h).2 = h.
Proof.
  unfold check_dimensions. unfold_M.
  repeat case_match; by simplify_eq.
Qed.

(** ** add and subtract *)

Lemma ok_copy l d : Dict.ok d → Dict.ok (foldl copy_step d l).
Proof.
  revert d. induction l as [|e l IH]; intros d Hd; simpl; [done|].
  apply IH. by apply ok_set_dict.
Qed.

Lemma ok_acc f l d : Dict.ok d → Dict.ok (foldl (acc_step f) d l).
Proof.
  revert d. induction l as [|e l IH]; intros d Hd; simpl; [done|].
  apply IH. by apply ok_set_dict.
Qed.

Lemma no_zero_copy l d : no_zero d → no_zero (foldl copy_step d l).
Proof.
  revert d. induction l as [|e l IH]; intros d Hd; simpl; [done|].
  apply IH. by apply no_zero_set_dict.
Qed.

Lemma no_zero_acc f l d : no_zero d → no_zero (foldl (acc_step f) d l).
Proof.
  revert d. induction l as [|e l IH]; intros d Hd; simpl; [done|].
  apply IH. by apply no_zero_set_dict.
Qed.

Lemma val_copy l d k :
  Dict.ok d → Dict.ok l →
  val (foldl copy_step d l) k
  = match Dict.lookup k l with Some v => v | None => val d k end.
Proof.
  revert d. induction l as [|[k1 v1] l IH]; intros d Hd Hl; simpl; [done|].
  apply DictFacts.ok_cons in Hl as [Hk1 Hl].
  rewrite IH by (done || by apply ok_set_dict).
  unfold copy_step. simpl. rewrite val_set_dict by done.
  destruct (decide (k = k1)) as [->|]; [|done].
  apply DictFacts.lookup_None in Hk1. by rewrite Hk1.
Qed.

Lemma val_acc f l d k :
  Dict.ok d → Dict.ok l →
  val (foldl (acc_step f) d l) k
  = match Dict.lookup k l with Some v => f (val d k) v | None => val d k end.
Proof.
  revert d. induction l as [|[k1 v1] l IH]; intros d Hd Hl; simpl; [done|].
  apply DictFacts.ok_cons in Hl as [Hk1 Hl].
  rewrite IH by (done || by apply ok_set_dict).
  unfold acc_step. simpl. rewrite val_set_dict by done.
  destruct (decide (k = k1)) as [->|]; [|done].
  apply DictFacts.lookup_None in Hk1. by rewrite Hk1.
Qed.

Lemma in_bounds_elem o d i j v :
  in_bounds o d → ((i, j), v) ∈ d → out_of_bounds o i j = false.
Proof.
  unfold in_bounds. rewrite Forall_forall. intros Hd He.
  apply out_of_bounds_false, (Hd _ He).
Qed.

Lemma copy_loop_run h o d l :
  data o = length (dicts h) → in_bounds o l →
  for_each l (λ '((i, j), val), SparseMatrix_set (length (objs h)) i j val)
    (with_result h o d)
  = (Ret tt, with_result h o (foldl copy_step d l)).
Proof.
  intros Hdata Hl. apply for_each_result. intros [[i j] v] d' He.
  rewrite set_result by done. by rewrite (in_bounds_elem _ _ _ _ _ Hl He).
Qed.

Lemma acc_loop_run f h o d l :
  data o = length (dicts h) → in_bounds o l →
  for_each l (λ '((i, j), val),
      g ← SparseMatrix_get (length (objs h)) i j;
      SparseMatrix_set (length (objs h)) i j (f g val))
    (with_result h o d)
  = (Ret tt, with_result h o (foldl (acc_step f) d l)).
Proof.
  intros Hdata Hl. apply for_each_result. intros [[i j] v] d' He.
  erewrite bind_ret_run by by apply get_result.
  rewrite set_result by done. by rewrite (in_bounds_elem _ _ _ _ _ Hl He).
Qed.

Lemma in_bounds_same_shape o o' d :
  rows o = rows o' → cols o = cols o' → in_bounds o d → in_bounds o' d.
Proof. unfold in_bounds. intros -> ->. done. Qed.

Lemma add_run h a b oa ob da db :
  matrix_at h a oa da → matrix_at h b ob db →
  in_bounds oa da → in_bounds ob db →
  rows oa = rows ob → cols oa = cols ob →
  add a b h
  = (Ret (length (objs h)),
     with_result h (result_instance h (rows oa) (cols oa))
       (foldl (acc_step Z.add) (foldl copy_step Dict.empty da) db)).
Proof.
  intros Ha Hb Hia Hib Hr Hc. unfold add.
  erewrite bind_ret_run; last first.
  { rewrite (check_dimensions_add_run _ _ _ oa ob) by apply Ha || apply Hb.
    by rewrite bool_decide_eq_true_2. }
  erewrite bind_ret_run by apply instance_run, Ha.
  erewrite bind_ret_run by apply SparseMatrix_init_run.
  set (o := result_instance h (rows oa) (cols oa)).
  change (mkHeap _ _) with (with_result h o Dict.empty).
  erewrite bind_ret_run by by eapply SparseMatrix_items_run, matrix_at_old.
  erewrite bind_ret_run by (apply copy_loop_run; [done|];
    by apply (in_bounds_same_shape oa)).
  erewrite bind_ret_run by by eapply SparseMatrix_items_run, matrix_at_old.
  erewrite bind_ret_run by (apply (acc_loop_run Z.add); [done|];
    by apply (in_bounds_same_shape ob)).
  done.
Qed.

Lemma subtract_run h a b oa ob da db :
  matrix_at h a oa da → matrix_at h b ob db →
  in_bounds oa da → in_bounds ob db →
  rows oa = rows ob → cols oa = cols ob →
  subtract a b h
  = (Ret (length (objs h)),
     with_result h (result_instance h (rows oa) (cols oa))
       (foldl (acc_step Z.sub) (foldl copy_step Dict.empty da) db)).
Proof.
  intros Ha Hb Hia Hib Hr Hc. unfold subtract.
  erewrite bind_ret_run; last first.
  { rewrite (check_dimensions_subtract_run _ _ _ oa ob) by apply Ha || apply Hb.
    by rewrite bool_decide_eq_true_2. }
  erewrite bind_ret_run by apply instance_run, Ha.
  erewrite bind_ret_run by apply SparseMatrix_init_run.
  set (o := result_instance h (rows oa) (cols oa)).
  change (mkHeap _ _) with (with_result h o Dict.empty).
  erewrite bind_ret_run by by eapply SparseMatrix_items_run, matrix_at_old.
  erewrite bind_ret_run by (apply copy_loop_run; [done|];
    by apply (in_bounds_same_shape oa)).
  erewrite bind_ret_run by by eapply SparseMatrix_items_run, matrix_at_old.
  erewrite bind_ret_run by (apply (acc_loop_run Z.sub); [done|];
    by apply (in_bounds_same_shape ob)).
  done.
Qed.

Lemma val_add_dict da db k :
  Dict.ok da → Dict.ok db →
  val (foldl (acc_step Z.add) (foldl copy_step Dict.empty da) db) k
  = val da k + val db k.
Proof.
  intros Ha Hb.
  assert (Dict.ok (Dict.empty : Dict.t (Z * Z) Z)) as He
    by apply DictFacts.ok_empty.
  rewrite val_acc by (done || by apply ok_copy). rewrite val_copy by done.
  unfold val, Dict.get. simpl.
  destruct (Dict.lookup k db), (Dict.lookup k da); lia.
Qed.

Lemma val_subtract_dict da db k :
  Dict.ok da → Dict.ok db →
  val (foldl (acc_step Z.sub) (foldl copy_step Dict.empty da) db) k
  = val da k - val db k.
Proof.
  intros Ha Hb.
  assert (Dict.ok (Dict.empty : Dict.t (Z * Z) Z)) as He
    by apply DictFacts.ok_empty.
  rewrite val_acc by (done || by apply ok_copy). rewrite val_copy by done.
  unfold val, Dict.get. simpl.
  destruct (Dict.lookup k db), (Dict.lookup k da); lia.
Qed.

(** ** multiply *)

(** *** The index over [b] *)

Lemma b_cols_step_lookup b_cols r c v k :
  Dict.lookup k (b_cols_step b_cols ((r, c), v))
  = if decide (k = r)
    then Some (Dict.setitem c v (Dict.get r Dict.empty b_cols))
    else Dict.lookup k b_cols.
Proof.
  unfold b_cols_step, Dict.contains, Dict.get.
  destruct (Dict.lookup r b_cols) as [row|] eqn:E; simpl.
  - rewrite E, DictFacts.lookup_setitem. by destruct (decide (k = r)).
  - rewrite !DictFacts.lookup_setitem.
    destruct (decide (r = r)); [|done]. by destruct (decide (k = r)).
Qed.

Lemma nested_step b_cols r c v kj :
  nested (b_cols_step b_cols ((r, c), v)) kj
  = if decide (kj = (r, c)) then Some v else nested b_cols kj.
Proof.
  destruct kj as [k j]. unfold nested. cbn [fst snd].
  rewrite b_cols_step_lookup.
  destruct (decide (k = r)) as [->|Hk].
  - rewrite DictFacts.lookup_setitem. unfold Dict.get.
    destruct (decide (j = c)) as [->|Hj].
    + by rewrite decide_True.
    + rewrite decide_False by congruence.
      by destruct (Dict.lookup r b_cols).
  - rewrite decide_False by congruence. done.
Qed.

Lemma rows_ok_step b_cols e : rows_ok b_cols → rows_ok (b_cols_step b_cols e).
Proof.
  destruct e as [[r c] v]. intros Hok k row_k. rewrite b_cols_step_lookup.
  destruct (decide (k = r)) as [->|]; [|apply Hok].
  intros [= <-]. apply DictFacts.ok_setitem. unfold Dict.get.
  destruct (Dict.lookup r b_cols) eqn:E; [by eapply Hok | apply DictFacts.ok_empty].
Qed.

Lemma rows_ok_fold l b_cols :
  rows_ok b_cols → rows_ok (foldl b_cols_step b_cols l).
Proof.
  revert b_cols. induction l as [|e l IH]; intros bc Hbc; simpl; [done|].
  by apply IH, rows_ok_step.
Qed.

Lemma nested_fold l b_cols kj :
  Dict.ok l →
  nested (foldl b_cols_step b_cols l) kj
  = match Dict.lookup kj l with Some v => Some v | None => nested b_cols kj end.
Proof.
  revert b_cols. induction l as [|[[r c] v] l IH]; intros bc Hl; [done|].
  apply DictFacts.ok_cons in Hl as [Hk1 Hl].
  cbn [foldl Dict.lookup]. rewrite IH by done. rewrite nested_step.
  destruct (decide (kj = (r, c))) as [->|]; [|done].
  apply DictFacts.lookup_None in Hk1. by rewrite Hk1.
Qed.

Lemma nested_index db kj :
  Dict.ok db → nested (foldl b_cols_step Dict.empty db) kj = Dict.lookup kj db.
Proof.
  intros Hdb. rewrite nested_fold by done. by destruct (Dict.lookup kj db).
Qed.

(** *** The accumulation loops, as folds *)

Lemma sumZ_cons x l : sumZ (x :: l) = x + sumZ l.
Proof. done. Qed.

Lemma ok_mul_inner i va row d :
  Dict.ok d → Dict.ok (foldl (mul_inner_step i va) d row).
Proof.
  revert d. induction row as [|e row IH]; intros d Hd; simpl; [done|].
  by apply IH, ok_set_dict.
Qed.

Lemma no_zero_mul_inner i va row d :
  no_zero d → no_zero (foldl (mul_inner_step i va) d row).
Proof.
  revert d. induction row as [|e row IH]; intros d Hd; simpl; [done|].
  by apply IH, no_zero_set_dict.
Qed.

Lemma val_mul_inner i va (row : Dict.t Z Z) d i' j :
  Dict.ok d → Dict.ok row →
  val (foldl (mul_inner_step i va) d row) (i', j)
  = val d (i', j) + (if decide (i' = i) then va * Dict.get j 0 row else 0).
Proof.
  revert d. induction row as [|[j1 v1] row IH]; intros d Hd Hrow; simpl.
  - unfold Dict.get. simpl. destruct (decide (i' = i)); lia.
  - apply DictFacts.ok_cons in Hrow as [Hj1 Hrow].
    rewrite IH by (done || by apply ok_set_dict).
    unfold mul_inner_step. simpl. rewrite val_set_dict by done.
    unfold Dict.get. simpl.
    destruct (decide (i' = i)) as [->|Hi].
    + destruct (decide (j = j1)) as [->|Hj].
      * rewrite decide_True by done. apply DictFacts.lookup_None in Hj1.
        rewrite Hj1. lia.
      * rewrite decide_False by congruence. done.
    + rewrite decide_False by congruence. done.
Qed.

Lemma ok_mul_outer b_cols l d :
  Dict.ok d → Dict.ok (foldl (mul_outer_step b_cols) d l).
Proof.
  revert d. induction l as [|e l IH]; intros d Hd; simpl; [done|].
  apply IH. unfold mul_outer_step.
  destruct (Dict.lookup _ b_cols); [by apply ok_mul_inner | done].
Qed.

Lemma no_zero_mul_outer b_cols l d :
  no_zero d → no_zero (foldl (mul_outer_step b_cols) d l).
Proof.
  revert d. induction l as [|e l IH]; intros d Hd; simpl; [done|].
  apply IH. unfold mul_outer_step.
  destruct (Dict.lookup _ b_cols); [by apply no_zero_mul_inner | done].
Qed.

Lemma val_mul_outer b_cols l d i j :
  Dict.ok d → rows_ok b_cols →
  val (foldl (mul_outer_step b_cols) d l) (i, j)
  = val d (i, j)
    + sumZ ((λ e : (Z * Z) * Z,
               if decide (e.1.1 = i) then e.2 * bval b_cols e.1.2 j else 0)
            <$> l).
Proof.
  intros Hd Hbc. revert d Hd.
  induction l as [|[[i1 k1] v1] l IH]; intros d Hd; [cbn; lia|].
  assert (Dict.ok (mul_outer_step b_cols d (i1, k1, v1))) as Hd1.
  { unfold mul_outer_step.
    destruct (Dict.lookup _ b_cols); [by apply ok_mul_inner | done]. }
  rewrite fmap_cons, sumZ_cons. cbn [foldl fst snd]. rewrite IH by done.
  assert (bval b_cols k1 j
          = match Dict.lookup k1 b_cols with
            | Some row => Dict.get j 0 row
            | None => 0
            end) as ->.
  { unfold bval, nested, Dict.get. simpl. by destruct (Dict.lookup k1 b_cols). }
  unfold mul_outer_step. cbn [fst snd].
  destruct (Dict.lookup k1 b_cols) as [row|] eqn:E.
  - rewrite val_mul_inner by (done || by eapply Hbc). unfold Dict.items.
    destruct (decide (i = i1)), (decide (i1 = i)); try congruence; lia.
  - destruct (decide (i1 = i)); lia.
Qed.

(** *** Sums *)

Lemma sumZ_fmap_add {A} (f g : A → Z) l :
  sumZ ((λ x, f x + g x) <$> l) = sumZ (f <$> l) + sumZ (g <$> l).
Proof.
  induction l as [|x l IH]; [done|]. rewrite !fmap_cons, !sumZ_cons, IH. lia.
Qed.

Lemma sumZ_fmap_ext {A} (f g : A → Z) l :
  (∀ x, x ∈ l → f x = g x) → sumZ (f <$> l) = sumZ (g <$> l).
Proof.
  induction l as [|x l IH]; intros Hfg; [done|].
  rewrite !fmap_cons, !sumZ_cons, IH, (Hfg x); [done | left |].
  intros y Hy. apply Hfg. by right.
Qed.

Lemma sumZ_fmap_zero {A} (l : list A) : sumZ ((λ _, 0) <$> l) = 0.
Proof. induction l as [|x l IH]; [done|]. by rewrite fmap_cons, sumZ_cons, IH. Qed.

Lemma sumZ_single (k1 c : Z) (l : list Z) :
  NoDup l →
  sumZ ((λ k, if decide (k = k1) then c else 0) <$> l)
  = if decide (k1 ∈ l) then c else 0.
Proof.
  induction l as [|k l IH]; intros Hl.
  - cbn. destruct (decide (k1 ∈ [])) as [H1|]; [by apply elem_of_nil in H1 | done].
  - apply NoDup_cons in Hl as [Hk Hl]. rewrite fmap_cons, sumZ_cons, IH by done.
    destruct (decide (k = k1)) as [->|Hne].
    + destruct (decide (k1 ∈ l)); [done|].
      destruct (decide (k1 ∈ k1 :: l)) as [|H1]; [lia|]. exfalso. apply H1. left.
    + destruct (decide (k1 ∈ l)) as [H1|H1];
        destruct (decide (k1 ∈ k :: l)) as [H2|H2]; try lia.
      * exfalso. apply H2. by right.
      * apply elem_of_cons in H2 as [?|?]; congruence.
Qed.

Lemma val_cons k1 v1 d k :
  val ((k1, v1) :: d) k = if decide (k = k1) then v1 else val d k.
Proof. unfold val, Dict.get. simpl. by destruct (decide (k = k1)). Qed.

Lemma val_absent k d : k ∉ Dict.keys d → val d k = 0.
Proof.
  intros Hk%DictFacts.lookup_None. unfold val, Dict.get. by rewrite Hk.
Qed.

(** Summing over the items of row [i] of a matrix is summing over all the
    column indices of its shape. *)
Lemma sum_items_columns (d : Dict.t (Z * Z) Z) (g : Z → Z) (i n : Z) :
  Dict.ok d →
  Forall (λ e : (Z * Z) * Z, 0 ≤ e.1.2 < n) d →
  sumZ ((λ e : (Z * Z) * Z,
           if decide (e.1.1 = i) then e.2 * g e.1.2 else 0) <$> d)
  = sumZ ((λ k, val d (i, k) * g k) <$> seqZ 0 n).
Proof.
  induction d as [|[[i1 k1] v1] d IH]; intros Hok Hb.
  - cbn [fmap list_fmap sumZ foldr]. symmetry.
    etrans; [|apply (sumZ_fmap_zero (seqZ 0 n))]. by apply sumZ_fmap_ext.
  - apply DictFacts.ok_cons in Hok as [Hk1 Hok].
    apply Forall_cons in Hb as [Hb1 Hb]. simpl in Hb1.
    rewrite fmap_cons, sumZ_cons. cbn [fst snd].
    set (c := if decide (i1 = i) then v1 * g k1 else 0).
    trans (sumZ ((λ k, val d (i, k) * g k + (if decide (k = k1) then c else 0))
                 <$> seqZ 0 n)).
    + rewrite sumZ_fmap_add, sumZ_single, IH by (done || apply NoDup_seqZ).
      destruct (decide (k1 ∈ seqZ 0 n)) as [|Hn]; [lia|].
      exfalso. apply Hn, elem_of_seqZ. lia.
    + apply sumZ_fmap_ext. intros k _. rewrite val_cons. subst c.
      destruct (decide (k = k1)) as [->|Hk].
      * destruct (decide (i1 = i)) as [->|Hi].
        -- rewrite decide_True by done. rewrite val_absent by done. lia.
        -- rewrite decide_False by congruence. lia.
      * rewrite decide_False by congruence. lia.
Qed.

(** *** Running [multiply] *)

Lemma mul_inner_loop_run h o d i val_a (row_k : Dict.t Z Z) :
  data o = length (dicts h) →
  (∀ e, e ∈ row_k → out_of_bounds o i e.1 = false) →
  for_each (Dict.items row_k) (λ '(j, val_b),
      g ← SparseMatrix_get (length (objs h)) i j;
      SparseMatrix_set (length (objs h)) i j (g + val_a * val_b))
    (with_result h o d)
  = (Ret tt, with_result h o (foldl (mul_inner_step i val_a) d row_k)).
Proof.
  intros Hdata Hrow. apply for_each_result. intros [j vb] d' He.
  erewrite bind_ret_run by by apply get_result.
  rewrite set_result by done. specialize (Hrow _ He). simpl in Hrow.
  by rewrite Hrow.
Qed.

Lemma mul_outer_loop_run h o d b_cols l :
  data o = length (dicts h) →
  (∀ e row_k x, e ∈ l → Dict.lookup e.1.2 b_cols = Some row_k → x ∈ row_k →
     out_of_bounds o e.1.1 x.1 = false) →
  for_each l (λ '((i, k), val_a),
      match Dict.lookup k b_cols with
      | Some row_k =>
          for_each (Dict.items row_k) (λ '(j, val_b),
            g ← SparseMatrix_get (length (objs h)) i j;
            SparseMatrix_set (length (objs h)) i j (g + val_a * val_b))
      | None => mret tt
      end)
    (with_result h o d)
  = (Ret tt, with_result h o (foldl (mul_outer_step b_cols) d l)).
Proof.
  intros Hdata Hl. apply for_each_result. intros [[i k] va] d' He.
  unfold mul_outer_step. cbn [fst snd].
  destruct (Dict.lookup k b_cols) as [row_k|] eqn:E; [|done].
  apply mul_inner_loop_run; [done|]. intros x Hx.
  by apply (Hl _ _ _ He E Hx).
Qed.

(** Every column the index lists under row [k] is a key [(k, j)] of [b]. *)
Lemma index_elem db k row_k j v :
  Dict.ok db →
  Dict.lookup k (foldl b_cols_step Dict.empty db) = Some row_k →
  (j, v) ∈ row_k → ((k, j), v) ∈ db.
Proof.
  intros Hdb Hk Hj. apply DictFacts.lookup_Some_elem.
  rewrite <- nested_index by done. unfold nested. cbn [fst snd]. rewrite Hk.
  apply DictFacts.elem_lookup_Some; [|done].
  eapply rows_ok_fold; [|done]. intros ? ? [=].
Qed.

Lemma multiply_run h a b oa ob da db :
  matrix_at h a oa da → matrix_at h b ob db →
  in_bounds oa da → in_bounds ob db → Dict.ok db →
  cols oa = rows ob →
  multiply a b h
  = (Ret (length (objs h)),
     with_result h (result_instance h (rows oa) (cols ob))
       (foldl (mul_outer_step (foldl b_cols_step Dict.empty db))
          Dict.empty da)).
Proof.
  intros Ha Hb Hia Hib Hdb Hc. unfold multiply.
  erewrite bind_ret_run; last first.
  { rewrite (check_dimensions_multiply_run _ _ _ oa ob) by apply Ha || apply Hb.
    by rewrite bool_decide_eq_true_2. }
  erewrite bind_ret_run by apply instance_run, Ha.
  erewrite bind_ret_run by apply instance_run, Hb.
  erewrite bind_ret_run by apply SparseMatrix_init_run.
  set (o := result_instance h (rows oa) (cols ob)).
  change (mkHeap _ _) with (with_result h o Dict.empty).
  erewrite bind_ret_run by by eapply SparseMatrix_items_run, matrix_at_old.
  erewrite bind_ret_run by by eapply SparseMatrix_items_run, matrix_at_old.
  erewrite bind_ret_run; [done|].
  apply mul_outer_loop_run; [done|].
  intros [[i k] va] row_k [j vb] He Hk Hx. cbn [fst snd] in *.
  apply (index_elem _ _ _ _ _ Hdb Hk) in Hx.
  apply (in_bounds_elem _ _ _ _ _ Hia) in He.
  apply (in_bounds_elem _ _ _ _ _ Hib) in Hx.
  apply out_of_bounds_false in He, Hx. apply out_of_bounds_false.
  subst o. simpl. lia.
Qed.

Lemma val_multiply_dict da db i j n :
  Dict.ok da → Dict.ok db →
  Forall (λ e : (Z * Z) * Z, 0 ≤ e.1.2 < n) da →
  val (foldl (mul_outer_step (foldl b_cols_step Dict.empty db)) Dict.empty da)
      (i, j)
  = sumZ ((λ k, val da (i, k) * val db (k, j)) <$> seqZ 0 n).
Proof.
  intros Ha Hb Hn.
  rewrite val_mul_outer;
    [| apply DictFacts.ok_empty | apply rows_ok_fold; intros ? ? [=]].
  rewrite <- (sum_items_columns da (λ k, val db (k, j)) i n) by done.
  unfold val at 1. unfold Dict.get. cbn [Dict.lookup Dict.empty].
  rewrite Z.add_0_l. apply sumZ_fmap_ext. intros e _.
  unfold bval. rewrite nested_index by done. done.
Qed.

(** ** What any call of an operation does to the store *)

Lemma check_dimensions_ret_inv a b operation h h1 :
  check_dimensions a b operation h = (Ret tt, h1) →
  h1 = h ∧ ∃ oa ob, objs h !! a = Some oa ∧ objs h !! b = Some ob.
Proof.
  intros E. split.
  - by rewrite <- (check_dimensions_pure a b operation h), E.
  - revert E. unfold check_dimensions. unfold_M.
    repeat case_match; intros; simplify_eq; eauto.
Qed.

Lemma allocated_intro h r c (m : M loc) d :
  stays h (result_instance h r c) (λ x, x = length (objs h)) m →
  allocated h r c (m (with_result h (result_instance h r c) d)).
Proof.
  intros Hm. destruct (Hm d) as (out & d' & E & Hout & Hret).
  rewrite E. by exists d'.
Qed.

Lemma add_cases h a b :
  match check_dimensions a b "add" h with
  | (Ret _, _) =>
      ∃ oa, objs h !! a = Some oa ∧ allocated h (rows oa) (cols oa) (add a b h)
  | (Raise e, _) => add a b h = (Raise e, h)
  end.
Proof.
  destruct (check_dimensions a b "add" h) as [[[]|e] h1] eqn:E.
  - apply check_dimensions_ret_inv in E as E'.
    destruct E' as (-> & oa & ob & Ha & Hb). exists oa. split; [done|].
    unfold add. erewrite bind_ret_run by exact E.
    erewrite bind_ret_run by by apply instance_run.
    erewrite bind_ret_run by apply SparseMatrix_init_run.
    apply allocated_intro.
    by apply (stays_elementwise h (result_instance h _ _) eq_refl Z.add).
  - unfold add. erewrite bind_raise_run by exact E.
    by rewrite <- (check_dimensions_pure a b "add" h), E.
Qed.

Lemma subtract_cases h a b :
  match check_dimensions a b "subtract" h with
  | (Ret _, _) =>
      ∃ oa, objs h !! a = Some oa
            ∧ allocated h (rows oa) (cols oa) (subtract a b h)
  | (Raise e, _) => subtract a b h = (Raise e, h)
  end.
Proof.
  destruct (check_dimensions a b "subtract" h) as [[[]|e] h1] eqn:E.
  - apply check_dimensions_ret_inv in E as E'.
    destruct E' as (-> & oa & ob & Ha & Hb). exists oa. split; [done|].
    unfold subtract. erewrite bind_ret_run by exact E.
    erewrite bind_ret_run by by apply instance_run.
    erewrite bind_ret_run by apply SparseMatrix_init_run.
    apply allocated_intro.
    by apply (stays_elementwise h (result_instance h _ _) eq_refl Z.sub).
  - unfold subtract. erewrite bind_raise_run by exact E.
    by rewrite <- (check_dimensions_pure a b "subtract" h), E.
Qed.

Lemma multiply_cases h a b :
  match check_dimensions a b "multiply" h with
  | (Ret _, _) =>
      ∃ oa ob, objs h !! a = Some oa ∧ objs h !! b = Some ob
               ∧ allocated h (rows oa) (cols ob) (multiply a b h)
  | (Raise e, _) => multiply a b h = (Raise e, h)
  end.
Proof.
  destruct (check_dimensions a b "multiply" h) as [[[]|e] h1] eqn:E.
  - apply check_dimensions_ret_inv in E as E'.
    destruct E' as (-> & oa & ob & Ha & Hb). exists oa, ob.
    split_and!; [done..|].
    unfold multiply. erewrite bind_ret_run by exact E.
    erewrite bind_ret_run by by apply instance_run.
    erewrite bind_ret_run by by apply instance_run.
    erewrite bind_ret_run by apply SparseMatrix_init_run.
    apply allocated_intro.
    eapply stays_bind;
      [by apply (stays_items h (result_instance h _ _))|].
    intros ib. by apply (stays_products h (result_instance h _ _) eq_refl).
  - unfold multiply. erewrite bind_raise_run by exact E.
    by rewrite <- (check_dimensions_pure a b "multiply" h), E.
Qed.

(** * Main results *)

(** ** C5: bounds check of [set] *)

(** C5. On a matrix of shape (rows, cols), [set(r, c, v)] raises exactly
    when r < 0 or r >= rows or c < 0 or c >= cols, whatever v is; what it
    raises is the IndexError, and the store (so the mapping of the matrix)
    is then as it was before the call; for in-bounds (r, c) the call
    returns. *)
Theorem set_bounds_check h self o d row col value :
  matrix_at h self o d →
  ((row < 0 ∨ rows o ≤ row ∨ col < 0 ∨ cols o ≤ col)
   ↔ fails_with IndexOutOfBounds (SparseMatrix_set self row col value h))
  ∧ (∀ e h', SparseMatrix_set self row col value h = (Raise e, h') →
       IndexOutOfBounds e ∧ h' = h)
  ∧ ((0 ≤ row < rows o) ∧ (0 ≤ col < cols o) →
       ∃ h', SparseMatrix_set self row col value h = (Ret tt, h')).
Proof.
  intros Hm. rewrite (SparseMatrix_set_run _ _ _ _ _ _ _ Hm).
  rewrite <- out_of_bounds_true, <- out_of_bounds_false.
  destruct (out_of_bounds o row col); split_and!.
  - split; [|done]. intros _. by eexists.
  - by intros e h' [= <- <-].
  - done.
  - split; [done|]. by intros (e & [=] & _).
  - by intros e h' [=].
  - intros _. by eexists.
Qed.

Lemma set_bounds_check_witness :
  matrix_at two_matrices 0 (mkSparseMatrix 2 2 0) [((0, 0), 2); ((0, 1), 3)]
  ∧ fails_with IndexOutOfBounds (SparseMatrix_set 0 2 0 7 two_matrices).
Proof.
  assert (matrix_at two_matrices 0 (mkSparseMatrix 2 2 0)
            [((0, 0), 2); ((0, 1), 3)]) as Hm by (split; reflexivity).
  split; [exact Hm|].
  apply (set_bounds_check two_matrices 0 _ _ 2 0 7 Hm). simpl. lia.
Defined.

(** ** C8: [get] *)

(** C8. [get(r, c)] returns the value stored under the key (r, c) when the
    key is present and zero otherwise; it checks no bounds and always
    returns, leaving the store as it is; so on a matrix whose keys are
    inside its shape it returns 0 at every out-of-range coordinate. *)
Theorem get_stored_or_zero h self o d row col :
  matrix_at h self o d →
  SparseMatrix_get self row col h
  = (Ret (match Dict.lookup (row, col) d with Some v => v | None => 0 end), h)
  ∧ (in_bounds o d →
     row < 0 ∨ rows o ≤ row ∨ col < 0 ∨ cols o ≤ col →
     SparseMatrix_get self row col h = (Ret 0, h)).
Proof.
  intros Hm. rewrite (SparseMatrix_get_run _ _ _ _ _ _ Hm). split; [done|].
  intros Hb Hoob%out_of_bounds_true.
  by rewrite (val_out_of_bounds _ _ _ _ Hb Hoob).
Qed.

Lemma get_stored_or_zero_witness :
  matrix_at two_matrices 0 (mkSparseMatrix 2 2 0) [((0, 0), 2); ((0, 1), 3)]
  ∧ SparseMatrix_get 0 0 1 two_matrices = (Ret 3, two_matrices)
  ∧ SparseMatrix_get 0 5 (-1) two_matrices = (Ret 0, two_matrices).
Proof.
  assert (matrix_at two_matrices 0 (mkSparseMatrix 2 2 0)
            [((0, 0), 2); ((0, 1), 3)]) as Hm by (split; reflexivity).
  split; [exact Hm|]. split.
  - exact (proj1 (get_stored_or_zero two_matrices 0 _ _ 0 1 Hm)).
  - exact (proj1 (get_stored_or_zero two_matrices 0 _ _ 5 (-1) Hm)).
Defined.

(** ** C3: sparsity *)

Lemma lookup_set_dict_zero k d :
  Dict.ok d → Dict.lookup k (set_dict k 0 d) = None.
Proof.
  intros Hd. unfold set_dict. simpl.
  destruct (Dict.contains k d) eqn:Hc.
  - rewrite DictFacts.lookup_delitem by done. by rewrite decide_True.
  - unfold Dict.contains in Hc. by destruct (Dict.lookup k d).
Qed.

Lemma set_calls_result h o calls d :
  data o = length (dicts h) →
  Dict.ok d → in_bounds o d → no_zero d →
  ∃ d', set_calls (length (objs h)) calls (with_result h o d)
        = with_result h o d'
        ∧ Dict.ok d' ∧ in_bounds o d' ∧ no_zero d'.
Proof.
  intros Hdata. revert d.
  induction calls as [|[[r c] v] calls IH]; intros d Hok Hb Hnz; simpl.
  - by exists d.
  - rewrite set_result by done.
    destruct (out_of_bounds o r c) eqn:E; simpl; [by apply IH|].
    apply IH; [by apply ok_set_dict | by apply in_bounds_set_dict
              | by apply no_zero_set_dict].
Qed.

(** C3. Invariant I2: on a matrix that was just constructed, after any
    finite sequence of [set] calls (calls that raise included) no item of
    the mapping has the value zero; and after one more call [set(r, c, 0)],
    [get(r, c)] returns 0 and (r, c) is not among the keys of [items()]. *)
Theorem sparsity_invariant h rws cls calls :
  let m := length (objs h) in
  let h2 := set_calls m calls (SparseMatrix_init rws cls h).2 in
  (∃ d, SparseMatrix_items m h2 = (Ret d, h2) ∧ no_zero d)
  ∧ ∀ r c,
      let h3 := (SparseMatrix_set m r c 0 h2).2 in
      SparseMatrix_get m r c h3 = (Ret 0, h3)
      ∧ ∃ d3, SparseMatrix_items m h3 = (Ret d3, h3) ∧ (r, c) ∉ Dict.keys d3.
Proof.
  intros m h2. subst m h2. rewrite SparseMatrix_init_run. simpl.
  set (o := mkSparseMatrix rws cls (length (dicts h))).
  change (mkHeap _ _) with (with_result h o Dict.empty).
  destruct (set_calls_result h o calls Dict.empty)
    as (d & -> & Hok & Hb & Hnz);
    [done | apply DictFacts.ok_empty | apply Forall_nil_2 | apply Forall_nil_2 |].
  split.
  - exists d. split; [|done].
    by rewrite (SparseMatrix_items_run _ _ o d) by by apply matrix_at_result.
  - intros r c. simpl. rewrite set_result by done.
    destruct (out_of_bounds o r c) eqn:E; simpl.
    + rewrite get_result by done. rewrite (val_out_of_bounds o) by done.
      split; [done|]. exists d. split.
      * by rewrite (SparseMatrix_items_run _ _ o d) by by apply matrix_at_result.
      * intros Hk. apply (keys_in_bounds o) in Hk; [congruence | done].
    + rewrite get_result by done. split.
      * unfold val, Dict.get. by rewrite lookup_set_dict_zero.
      * eexists. split.
        -- by erewrite SparseMatrix_items_run by by apply matrix_at_result.
        -- apply DictFacts.lookup_None. by apply lookup_set_dict_zero.
Qed.

(** ** C10: construction *)

(** C10. The constructor validates nothing: for any integers rows and
    cols, negative ones too, it returns a new matrix with an empty mapping;
    when rows <= 0 or cols <= 0 every call of [set] on it raises the
    IndexError, so after any sequence of such calls the store is as it was
    and the matrix is still empty, and [get] returns 0 everywhere. *)
Theorem init_validates_nothing h rws cls :
  let m := length (objs h) in
  ∃ h1,
    SparseMatrix_init rws cls h = (Ret m, h1)
    ∧ objs h !! m = None
    ∧ matrix_at h1 m (mkSparseMatrix rws cls (length (dicts h))) Dict.empty
    ∧ SparseMatrix_items m h1 = (Ret [], h1)
    ∧ (rws ≤ 0 ∨ cls ≤ 0 →
       (∀ r c v, SparseMatrix_set m r c v h1
                 = (Raise (IndexError "Index out of bounds."), h1))
       ∧ (∀ calls, set_calls m calls h1 = h1)
       ∧ (∀ r c, SparseMatrix_get m r c h1 = (Ret 0, h1))).
Proof.
  intros m. subst m. rewrite SparseMatrix_init_run. eexists. split; [done|].
  set (o := mkSparseMatrix rws cls (length (dicts h))).
  change (mkHeap _ _) with (with_result h o Dict.empty).
  assert (matrix_at (with_result h o Dict.empty) (length (objs h)) o Dict.empty)
    as Hm by by apply matrix_at_result.
  split_and!.
  - by apply lookup_ge_None.
  - done.
  - by rewrite (SparseMatrix_items_run _ _ _ _ Hm).
  - intros Hdim.
    assert (∀ r c, out_of_bounds o r c = true) as Hoob.
    { intros r c. apply out_of_bounds_true. simpl. lia. }
    assert (∀ r c v, SparseMatrix_set (length (objs h)) r c v
                       (with_result h o Dict.empty)
                     = (Raise (IndexError "Index out of bounds."),
                        with_result h o Dict.empty)) as Hset.
    { intros r c v. rewrite set_result by done. by rewrite Hoob. }
    split_and!.
    + done.
    + intros calls. induction calls as [|[[r c] v] calls IH]; simpl; [done|].
      by rewrite Hset.
    + intros r c. by rewrite get_result.
Qed.

Lemma init_validates_nothing_witness :
  (-1 ≤ 0 ∨ 5 ≤ 0)
  ∧ SparseMatrix_set 0 0 0 1 (SparseMatrix_init (-1) 5 empty_heap).2
    = (Raise (IndexError "Index out of bounds."),
       (SparseMatrix_init (-1) 5 empty_heap).2).
Proof.
  assert (-1 ≤ 0 ∨ 5 ≤ 0) as Hdim by (left; lia).
  split; [exact Hdim|].
  destruct (init_validates_nothing empty_heap (-1) 5)
    as (h1 & E & _ & _ & _ & Hneg).
  rewrite E. simpl. apply (proj1 (Hneg Hdim)).
Defined.

(** ** C4: dimension checks *)

Lemma fails_dims_ret {A} (x : A) h : ¬ fails_with DimensionMismatch (Ret x, h).
Proof. by intros (e & [=] & _). Qed.

Lemma fails_dims_add {A} h :
  fails_with DimensionMismatch (Raise (A:=A) (ValueError msg_dims_add), h).
Proof. eexists. split; [done|]. by left. Qed.

Lemma fails_dims_mul {A} h :
  fails_with DimensionMismatch (Raise (A:=A) (ValueError msg_dims_mul), h).
Proof. eexists. split; [done|]. by right. Qed.

Lemma allocated_no_dims h r c res :
  allocated h r c res → ¬ fails_with DimensionMismatch res.
Proof.
  intros (d & _ & Hno & _) (e & He & [->| ->]); by eapply Hno.
Qed.

(** C4. For matrices a and b: [check_dimensions] for 'add' and for
    'subtract', and the functions [add] and [subtract], raise the
    dimension error if and only if a.rows != b.rows or a.cols != b.cols;
    [check_dimensions] for 'multiply', and [multiply], raise it if and only
    if a.cols != b.rows; and when the shapes are compatible the check
    returns, with the store as it was. *)
Theorem dimension_check h a b oa ob :
  objs h !! a = Some oa → objs h !! b = Some ob →
  let same_shape := rows oa = rows ob ∧ cols oa = cols ob in
  (fails_with DimensionMismatch (check_dimensions a b "add" h) ↔ ¬ same_shape)
  ∧ (fails_with DimensionMismatch (check_dimensions a b "subtract" h)
     ↔ ¬ same_shape)
  ∧ (fails_with DimensionMismatch (check_dimensions a b "multiply" h)
     ↔ cols oa ≠ rows ob)
  ∧ (fails_with DimensionMismatch (add a b h) ↔ ¬ same_shape)
  ∧ (fails_with DimensionMismatch (subtract a b h) ↔ ¬ same_shape)
  ∧ (fails_with DimensionMismatch (multiply a b h) ↔ cols oa ≠ rows ob)
  ∧ (same_shape → check_dimensions a b "add" h = (Ret tt, h)
                  ∧ check_dimensions a b "subtract" h = (Ret tt, h))
  ∧ (cols oa = rows ob → check_dimensions a b "multiply" h = (Ret tt, h)).
Proof.
  intros Ha Hb same_shape. subst same_shape.
  pose proof (add_cases h a b) as Hadd.
  pose proof (subtract_cases h a b) as Hsub.
  pose proof (multiply_cases h a b) as Hmul.
  rewrite (check_dimensions_add_run _ _ _ _ _ Ha Hb) in *.
  rewrite (check_dimensions_subtract_run _ _ _ _ _ Ha Hb) in *.
  rewrite (check_dimensions_multiply_run _ _ _ _ _ Ha Hb) in *.
  assert (∀ P Q : Prop, ¬ P → Q → (P ↔ ¬ Q)) as Hno by tauto.
  assert (∀ P Q : Prop, P → ¬ Q → (P ↔ ¬ Q)) as Hyes by tauto.
  destruct (decide (rows oa = rows ob ∧ cols oa = cols ob)) as [Hs|Hs];
    [rewrite !bool_decide_eq_true_2 in * by done
    |rewrite !(bool_decide_eq_false_2 (_ ∧ _)) in * by done];
  (destruct (decide (cols oa = rows ob)) as [Hc|Hc];
    [rewrite !bool_decide_eq_true_2 in * by done
    |rewrite !bool_decide_eq_false_2 in * by done]).
  all: try destruct Hadd as (? & _ & Hadd%allocated_no_dims).
  all: try destruct Hsub as (? & _ & Hsub%allocated_no_dims).
  all: try destruct Hmul as (? & ? & _ & _ & Hmul%allocated_no_dims).
  all: try rewrite Hadd; try rewrite Hsub; try rewrite Hmul.
  all: split_and!; try done;
    try (apply Hno; [apply fails_dims_ret || done | done]);
    try (apply Hyes; [apply fails_dims_add || apply fails_dims_mul | done]).
Qed.

Lemma dimension_check_witness :
  fails_with DimensionMismatch (add 0 1 two_shapes)
  ∧ fails_with DimensionMismatch (multiply 0 1 two_shapes)
  ∧ check_dimensions 1 0 "multiply" two_shapes = (Ret tt, two_shapes).
Proof.
  pose proof (dimension_check two_shapes 0 1 _ _ eq_refl eq_refl) as H01.
  pose proof (dimension_check two_shapes 1 0 _ _ eq_refl eq_refl) as H10.
  simpl in H01, H10. split_and!.
  - apply H01. lia.
  - apply H01. lia.
  - apply H10. lia.
Defined.

(** ** C2: add *)

Lemma entry_val h a o d i j : matrix_at h a o d → entry h a i j = val d (i, j).
Proof.
  intros Hm. unfold entry. by rewrite (SparseMatrix_get_run _ _ _ _ _ _ Hm).
Qed.

Lemma setitem_absent {K V} `{EqDecision K} (k : K) (v : V) (d : Dict.t K V) :
  k ∉ Dict.keys d → Dict.setitem k v d = d ++ [(k, v)].
Proof.
  unfold Dict.keys. induction d as [|[k1 v1] d IH]; [done|].
  rewrite fmap_cons, not_elem_of_cons. intros [Hne Hk]. simpl.
  rewrite decide_False by done. by rewrite IH.
Qed.

(** The first loop of [add] and [subtract] copies the items of a matrix
    that stores no zero as they are, in their order. *)
Lemma copy_verbatim l d :
  Dict.ok (d ++ l) → no_zero l → foldl copy_step d l = d ++ l.
Proof.
  revert d. induction l as [|[k v] l IH]; intros d Hok Hnz; simpl.
  - by rewrite app_nil_r.
  - apply Forall_cons in Hnz as [Hv Hnz]. simpl in Hv.
    assert (copy_step d (k, v) = d ++ [(k, v)]) as ->.
    { unfold copy_step, set_dict. simpl.
      destruct (Z.eqb_spec v 0); [done|]. simpl. apply setitem_absent.
      unfold Dict.ok, Dict.keys in *. rewrite fmap_app, fmap_cons in Hok.
      apply NoDup_app in Hok as (_ & Hdis & _). intros Hk.
      apply (Hdis _ Hk). left. }
    rewrite IH; [by rewrite <- app_assoc | by rewrite <- app_assoc | done].
Qed.

(** C2. For matrices A and B of one shape, [add(A, B)] returns a new
    matrix of that shape, and [get(i, j)] on it returns
    A.get(i, j) + B.get(i, j) at every coordinate.  Its mapping is what two
    loops build from the empty mapping: the first sets every item of A (a
    verbatim copy when A stores no zero), the second sets, for every item
    ((i, j), v) of B, result.get(i, j) + v at (i, j). *)
Theorem add_entrywise h a b oa ob da db :
  wf_matrix h a oa da → wf_matrix h b ob db →
  rows oa = rows ob → cols oa = cols ob →
  let r := length (objs h) in
  ∃ h' dr,
    add a b h = (Ret r, h')
    ∧ objs h !! r = None
    ∧ dicts h !! length (dicts h) = None
    ∧ matrix_at h' r (mkSparseMatrix (rows oa) (cols oa) (length (dicts h))) dr
    ∧ (∀ i j, SparseMatrix_get r i j h'
              = (Ret (entry h a i j + entry h b i j), h'))
    ∧ dr = foldl (acc_step Z.add) (foldl copy_step Dict.empty da) db
    ∧ (no_zero da → foldl copy_step Dict.empty da = da).
Proof.
  intros (Ha & Hoka & Hia) (Hb & Hokb & Hib) Hr Hc r. subst r.
  rewrite (add_run h a b oa ob da db) by done.
  eexists _, _. split; [done|].
  assert (matrix_at
            (with_result h (result_instance h (rows oa) (cols oa))
               (foldl (acc_step Z.add) (foldl copy_step Dict.empty da) db))
            (length (objs h)) (result_instance h (rows oa) (cols oa))
            (foldl (acc_step Z.add) (foldl copy_step Dict.empty da) db))
    as Hres by by apply matrix_at_result.
  split_and!; try done.
  - by apply lookup_ge_None.
  - by apply lookup_ge_None.
  - intros i j. rewrite (SparseMatrix_get_run _ _ _ _ _ _ Hres).
    rewrite val_add_dict by done.
    by rewrite (entry_val _ _ _ _ _ _ Ha), (entry_val _ _ _ _ _ _ Hb).
  - intros Hnz. by apply (copy_verbatim da Dict.empty).
Qed.

Lemma wf_two_matrices_0 :
  wf_matrix two_matrices 0 (mkSparseMatrix 2 2 0) [((0, 0), 2); ((0, 1), 3)].
Proof.
  split_and!; [by split | |].
  - unfold Dict.ok. apply (bool_decide_unpack _). by vm_compute.
  - repeat constructor; simpl; lia.
Defined.

Lemma wf_two_matrices_1 :
  wf_matrix two_matrices 1 (mkSparseMatrix 2 2 1) [((0, 0), 4); ((1, 0), 5)].
Proof.
  split_and!; [by split | |].
  - unfold Dict.ok. apply (bool_decide_unpack _). by vm_compute.
  - repeat constructor; simpl; lia.
Defined.

Lemma add_entrywise_witness :
  wf_matrix two_matrices 0 (mkSparseMatrix 2 2 0) [((0, 0), 2); ((0, 1), 3)]
  ∧ wf_matrix two_matrices 1 (mkSparseMatrix 2 2 1) [((0, 0), 4); ((1, 0), 5)]
  ∧ ∃ h', add 0 1 two_matrices = (Ret 2%nat, h')
          ∧ SparseMatrix_get 2 0 0 h' = (Ret 6, h').
Proof.
  split; [exact wf_two_matrices_0|]. split; [exact wf_two_matrices_1|].
  destruct (add_entrywise two_matrices 0 1 _ _ _ _
              wf_two_matrices_0 wf_two_matrices_1 eq_refl eq_refl)
    as (h' & dr & E & _ & _ & _ & Hget & _).
  exists h'. split; [exact E|]. exact (Hget 0 0).
Defined.

(** ** C6: the operations and their inputs *)

Lemma prefix_matrix_at h h' x o d :
  objs h `prefix_of` objs h' → dicts h `prefix_of` dicts h' →
  matrix_at h x o d → matrix_at h' x o d.
Proof.
  intros [t1 E1] [t2 E2] [Hx Hd]. unfold matrix_at. rewrite E1, E2.
  split; by apply lookup_app_l_Some.
Qed.

Lemma leaves_raise h e : 
  objs h `prefix_of` objs h
  ∧ dicts h `prefix_of` dicts h
  ∧ (∀ x o d, matrix_at h x o d → matrix_at h x o d)
  ∧ (∀ r, Raise e = Ret r →
       objs h !! r = None
       ∧ ∃ o d, matrix_at h r o d
                ∧ dicts h !! data o = None
                ∧ ∀ x ox dx, matrix_at h x ox dx → x ≠ r ∧ data ox ≠ data o).
Proof. split_and!; done. Qed.

Lemma leaves_allocated h r c out h' :
  allocated h r c (out, h') →
  objs h `prefix_of` objs h'
  ∧ dicts h `prefix_of` dicts h'
  ∧ (∀ x o d, matrix_at h x o d → matrix_at h' x o d)
  ∧ (∀ r, out = Ret r →
       objs h !! r = None
       ∧ ∃ o d, matrix_at h' r o d
                ∧ dicts h !! data o = None
                ∧ ∀ x ox dx, matrix_at h x ox dx → x ≠ r ∧ data ox ≠ data o).
Proof.
  intros (d & E & _ & Hret). simpl in E, Hret. subst h'.
  assert (objs h `prefix_of` objs (with_result h (result_instance h r c) d))
    as Hp1 by by eexists.
  assert (dicts h `prefix_of` dicts (with_result h (result_instance h r c) d))
    as Hp2 by by eexists.
  split_and!; [done | done | intros x ox dx Hx; by apply (prefix_matrix_at h) |].
  intros x ->%Hret. split; [by apply lookup_ge_None|].
  exists (result_instance h r c), d. split_and!.
  - by apply matrix_at_result.
  - by apply lookup_ge_None.
  - intros y oy dy [Hy Hdy]. apply lookup_lt_Some in Hy, Hdy. simpl. lia.
Qed.

(** C6. [add], [subtract] and [multiply] never change their inputs:
    after a call, whether it returned or raised, rows, cols and the mapping
    of a and of b (and of every other matrix of the store) are what they
    were before, and a returned result is a new instance with a new
    dictionary, shared with no matrix that existed before the call. *)
Theorem operations_leave_inputs :
  leaves_inputs add ∧ leaves_inputs subtract ∧ leaves_inputs multiply.
Proof.
  split_and!; intros h a b out h' E.
  - pose proof (add_cases h a b) as H. rewrite E in H.
    destruct (check_dimensions a b "add" h) as [[[]|e] h1].
    + destruct H as (oa & _ & H). by eapply leaves_allocated.
    + injection H as -> ->. apply leaves_raise.
  - pose proof (subtract_cases h a b) as H. rewrite E in H.
    destruct (check_dimensions a b "subtract" h) as [[[]|e] h1].
    + destruct H as (oa & _ & H). by eapply leaves_allocated.
    + injection H as -> ->. apply leaves_raise.
  - pose proof (multiply_cases h a b) as H. rewrite E in H.
    destruct (check_dimensions a b "multiply" h) as [[[]|e] h1].
    + destruct H as (oa & ob & _ & _ & H). by eapply leaves_allocated.
    + injection H as -> ->. apply leaves_raise.
Qed.

Lemma operations_leave_inputs_witness :
  matrix_at (add 0 1 two_matrices).2 0 (mkSparseMatrix 2 2 0)
    [((0, 0), 2); ((0, 1), 3)]
  ∧ matrix_at (multiply 0 1 two_shapes).2 0 (mkSparseMatrix 2 3 0)
      [((0, 2), 1)].
Proof.
  destruct operations_leave_inputs as (Hadd & _ & Hmul). split.
  - eapply (Hadd two_matrices 0%nat 1%nat); [apply surjective_pairing|].
    split; reflexivity.
  - eapply (Hmul two_shapes 0%nat 1%nat); [apply surjective_pairing|].
    split; reflexivity.
Defined.

(** ** C9: the parser and out-of-bounds entries *)

Section parser_facts.
Variable py : builtins.

Lemma skip_test rws cls row col :
  negb ((0 <=? row) && (row <? rws)) || negb ((0 <=? col) && (col <? cls))
  = bool_decide (¬ ((0 ≤ row < rws) ∧ (0 ≤ col < cls))).
Proof.
  destruct (Z.leb_spec 0 row), (Z.ltb_spec row rws), (Z.leb_spec 0 col),
    (Z.ltb_spec col cls); simpl; symmetry;
    (apply bool_decide_eq_true_2 || apply bool_decide_eq_false_2); lia.
Qed.

Lemma print_run text h :
  print py text h
  = match stdout py text with
    | None => (Ret tt, h)
    | Some e => (Raise e, h)
    end.
Proof. unfold print. by destruct (stdout py text). Qed.

Lemma parse_line_entry matrix rws cls line_num line st row col val :
  line_entry py line = Some (row, col, val) →
  parse_line py matrix rws cls line_num line st
  = except_ValueError
      (if bool_decide (¬ ((0 ≤ row < rws) ∧ (0 ≤ col < cls)))
       then print py (msg_skipping line_num row col rws cls);;
            mret (skip_stats st row col)
       else SparseMatrix_set matrix row col val;; mret (keep_stats st))
      (raise (ValueError (msg_non_numeric line_num line))).
Proof.
  unfold line_entry, parse_line. intros Hl.
  destruct (startswith "(" line && endswith ")" line); [|done]. simpl.
  destruct (split "," (remove_spaces (slice_1_m1 line)))
    as [|p0 [|p1 [|p2 [|? ?]]]]; try done.
  simpl. unfold convert_int, convert_float.
  destruct (py_int py p0) as [r|]; [|done].
  destruct (py_int py p1) as [c|]; [|done].
  destruct (py_float py p2) as [v|]; [|done].
  injection Hl as -> -> ->. f_equal.
  unfold mbind, M_bind, mret, M_ret. rewrite <- skip_test.
  by destruct (_ || _).
Qed.

(** What one iteration does at a line that holds an out-of-bounds entry
    depends on [print]: when the diagnostic is written the iteration
    returns, in the store it started in; a ValueError of [print] is caught
    by the [except] clause of the conversions and reported as a non-numeric
    value; any other exception of [print] goes through. *)
Lemma parse_line_skip_cases matrix rws cls line_num line st row col val h :
  line_entry py line = Some (row, col, val) →
  ¬ ((0 ≤ row < rws) ∧ (0 ≤ col < cls)) →
  parse_line py matrix rws cls line_num line st h
  = match stdout py (msg_skipping line_num row col rws cls) with
    | None => (Ret (skip_stats st row col), h)
    | Some (ValueError _) =>
        (Raise (ValueError (msg_non_numeric line_num line)), h)
    | Some e => (Raise e, h)
    end.
Proof.
  intros Hl Hoob. rewrite (parse_line_entry _ _ _ _ _ _ _ _ _ Hl).
  rewrite bool_decide_eq_true_2 by done.
  unfold except_ValueError, mbind, M_bind. rewrite print_run.
  by destruct (stdout py _) as [[]|].
Qed.

Lemma parse_line_skip matrix rws cls line_num line st row col val h :
  stdout py (msg_skipping line_num row col rws cls) = None →
  line_entry py line = Some (row, col, val) →
  ¬ ((0 ≤ row < rws) ∧ (0 ≤ col < cls)) →
  parse_line py matrix rws cls line_num line st h
  = (Ret (skip_stats st row col), h).
Proof.
  intros Hp Hl Hoob.
  rewrite (parse_line_skip_cases _ _ _ _ _ _ _ _ _ _ Hl Hoob).
  by rewrite Hp.
Qed.

Lemma parse_line_keep h o d line_num line st row col val :
  data o = length (dicts h) →
  line_entry py line = Some (row, col, val) →
  (0 ≤ row < rows o) ∧ (0 ≤ col < cols o) →
  parse_line py (length (objs h)) (rows o) (cols o) line_num line
    st (with_result h o d)
  = (Ret (keep_stats st), with_result h o (set_dict (row, col) val d)).
Proof.
  intros Hdata Hl Hin. rewrite (parse_line_entry _ _ _ _ _ _ _ _ _ Hl).
  rewrite bool_decide_eq_false_2 by tauto.
  unfold except_ValueError, mbind, M_bind, mret, M_ret.
  rewrite set_result by done.
  apply out_of_bounds_false in Hin. by rewrite Hin.
Qed.

(** The loop over a body of entries, when every diagnostic is written. *)
Lemma parse_lines_entries_stats h o d line_num body entries st :
  accepts_all py →
  data o = length (dicts h) →
  Forall2 (λ line e, line_entry py line = Some e) body entries →
  parse_lines py (length (objs h)) (rows o) (cols o) line_num
    body st (with_result h o d)
  = (Ret (stats_after (rows o) (cols o) st entries),
     with_result h o
       (foldl copy_step d (kept_entries (rows o) (cols o) entries))).
Proof.
  intros Hacc Hdata Hall. revert line_num st d.
  induction Hall as [|line [[row col] val] body entries Hl Hall IH];
    intros line_num st d; [done|].
  cbn [parse_lines]. unfold kept_entries, stats_after.
  rewrite filter_cons. cbn [foldl fst snd].
  destruct (decide ((0 ≤ row < rows o) ∧ (0 ≤ col < cols o))) as [Hin|Hout].
  - erewrite bind_ret_run by by apply parse_line_keep.
    cbn [foldl]. apply IH.
  - erewrite bind_ret_run by by eapply parse_line_skip.
    apply IH.
Qed.

Lemma header_int_dim name line n h :
  header_dim py name line = Some n →
  startswith name line = true ∧ header_int py line h = (Ret n, h).
Proof.
  unfold header_dim, header_int, convert_int.
  destruct (startswith name line); [|done]. intros Hn. split; [done|].
  destruct (split "=" line) as [|? [|field ?]]; try done.
  by rewrite Hn.
Qed.

(** ** What only prints *)

Lemma prints_only_print text : prints_only py (print py text).
Proof.
  intros h. rewrite print_run. destruct (stdout py text) as [e|] eqn:E.
  - eexists. split; [done|]. right. exists e. split; [done|]. by exists text.
  - eexists. split; [done|]. by left.
Qed.

Lemma prints_only_ret : prints_only py (mret tt).
Proof. intros h. eexists. split; [done|]. by left. Qed.

Lemma prints_only_bind (m : M unit) (k : unit → M unit) :
  prints_only py m → (∀ x, prints_only py (k x)) → prints_only py (m ≫= k).
Proof.
  intros Hm Hk h. destruct (Hm h) as (out & E & [->|(e & -> & He)]).
  - unfold mbind, M_bind. rewrite E. apply Hk.
  - unfold mbind, M_bind. rewrite E. eexists. split; [done|]. right. eauto.
Qed.

Lemma prints_only_for_each {A} (l : list A) (body : A → M unit) :
  (∀ x, prints_only py (body x)) → prints_only py (for_each l body).
Proof.
  intros Hbody. induction l as [|x l IH]; simpl.
  - apply prints_only_ret.
  - apply prints_only_bind; [apply Hbody | intros _; apply IH].
Qed.

Lemma prints_only_report rws cls st : prints_only py (report py rws cls st).
Proof.
  unfold report. destruct (0 <? skipped_entries st); [|apply prints_only_ret].
  repeat (apply prints_only_bind; [apply prints_only_print | intros _]).
  apply prints_only_bind.
  - apply prints_only_for_each. intros [pattern count].
    apply prints_only_print.
  - intros _. destruct (existsb _ _); [|apply prints_only_ret].
    apply prints_only_bind; [apply prints_only_print | intros _].
    apply prints_only_print.
Qed.

Lemma prints_only_accepts (m : M unit) h :
  accepts_all py → prints_only py m → m h = (Ret tt, h).
Proof.
  intros Hacc Hm. destruct (Hm h) as (out & E & [->|(e & -> & text & He)]).
  - done.
  - by rewrite Hacc in He.
Qed.

(** A well-formed file, when everything that is printed is written. *)
Lemma parse_well_formed_run h l0 l1 body rws cls entries :
  accepts_all py →
  header_dim py "rows=" l0 = Some rws →
  header_dim py "cols=" l1 = Some cls →
  Forall2 (λ line e, line_entry py line = Some e) body entries →
  parse_matrix_file py (l0 :: l1 :: body) h
  = (Ret (length (objs h)),
     with_result h (mkSparseMatrix rws cls (length (dicts h)))
       (foldl copy_step Dict.empty (kept_entries rws cls entries))).
Proof.
  intros Hacc Hr Hc Hall.
  destruct (header_int_dim _ _ _ h Hr) as [Hr0 Hr1].
  destruct (header_int_dim _ _ _ h Hc) as [Hc0 Hc1].
  unfold parse_matrix_file. rewrite Hr0, Hc0. cbn [negb orb].
  erewrite bind_ret_run by exact Hr1.
  erewrite bind_ret_run by exact Hc1.
  erewrite bind_ret_run by apply SparseMatrix_init_run.
  set (o := mkSparseMatrix rws cls (length (dicts h))).
  change (mkHeap _ _) with (with_result h o Dict.empty).
  erewrite bind_ret_run
    by apply (parse_lines_entries_stats h o _ _ _ _ _ Hacc eq_refl Hall).
  by erewrite bind_ret_run
    by apply (prints_only_accepts _ _ Hacc), prints_only_report.
Qed.
End parser_facts.



Lemma in_bounds_copy o l d :
  in_bounds o d → in_bounds o l → in_bounds o (foldl copy_step d l).
Proof.
  revert d. induction l as [|[[r c] v] l IH]; intros d Hd Hl; simpl; [done|].
  apply Forall_cons in Hl as [Hrc Hl]. apply IH; [|done].
  apply in_bounds_set_dict; [|done]. by apply out_of_bounds_false.
Qed.




(** ** The end-to-end scenarios, by evaluation *)

(** Scenario 1: A = {(0,0): 1, (1,1): 2} plus the 2 by 2 identity. *)
Example scenario1_add :
  (A ← SparseMatrix_init 2 2;
   SparseMatrix_set A 0 0 1;;
   SparseMatrix_set A 1 1 2;;
   B ← SparseMatrix_init 2 2;
   SparseMatrix_set B 0 0 1;;
   SparseMatrix_set B 1 1 1;;
   C ← add A B;
   SparseMatrix_items C) empty_heap
  = (Ret [((0, 0), 2); ((1, 1), 3)],
     mkHeap [mkSparseMatrix 2 2 0; mkSparseMatrix 2 2 1; mkSparseMatrix 2 2 2]
       [[((0, 0), 1); ((1, 1), 2)]; [((0, 0), 1); ((1, 1), 1)];
        [((0, 0), 2); ((1, 1), 3)]]).
Proof. reflexivity. Qed.

(** Scenario 2: A = B = {(0,1): 3}; the difference has no item. *)
Example scenario2_subtract :
  ((A ← SparseMatrix_init 2 2;
    SparseMatrix_set A 0 1 3;;
    B ← SparseMatrix_init 2 2;
    SparseMatrix_set B 0 1 3;;
    C ← subtract A B;
    SparseMatrix_items C) empty_heap).1
  = Ret [].
Proof. reflexivity. Qed.

(** Scenario 4: the entry with row = rows is skipped, the entries around
    it are kept. *)
Example scenario4_parse :
  (parse_matrix_file plain_python file_scenario4 empty_heap)
  = (Ret 0%nat,
     mkHeap [mkSparseMatrix 2 2 0] [[((0, 0), 5); ((1, 1), -3)]]).
Proof. reflexivity. Qed.

(** A malformed line is fatal, with its line number in the message. *)
Example malformed_line_is_fatal :
  (parse_matrix_file plain_python
     ["rows=2"; "cols=2"; "(0, 0, 5)"; "(2, 0, x)"]%string empty_heap).1
  = Raise (ValueError "Non-numeric value in line 4: (2, 0, x)").
Proof. reflexivity. Qed.

(** * Further properties of the code *)

(** ** matrix_core.py *)

Lemma matrix_at_set h self o d d' :
  matrix_at h self o d →
  matrix_at (mkHeap (objs h) (<[data o := d']> (dicts h))) self o d'.
Proof.
  intros [Ho Hd]. split; simpl; [done|].
  apply list_lookup_insert_eq. by eapply lookup_lt_Some.
Qed.



(** [set] keeps the invariants: on a matrix with distinct keys, all in
    bounds (I1) and none holding zero (I2), any call of [set], returning or
    raising, leaves the same instance with a mapping that satisfies the
    three again. *)
Theorem set_keeps_invariants h self o d row col value :
  wf_matrix h self o d → no_zero d →
  ∃ d', wf_matrix (SparseMatrix_set self row col value h).2 self o d'
        ∧ no_zero d'.
Proof.
  intros (Hm & Hok & Hb) Hnz.
  rewrite (SparseMatrix_set_run _ _ _ _ _ _ _ Hm).
  destruct (out_of_bounds o row col) eqn:E; simpl.
  - exists d. by split_and!.
  - exists (set_dict (row, col) value d). unfold wf_matrix. split_and!.
    + by apply (matrix_at_set h self o d).
    + by apply ok_set_dict.
    + by apply in_bounds_set_dict.
    + by apply no_zero_set_dict.
Qed.

Lemma set_keeps_invariants_witness :
  wf_matrix two_matrices 0 (mkSparseMatrix 2 2 0) [((0, 0), 2); ((0, 1), 3)]
  ∧ no_zero [((0, 0), 2); ((0, 1), 3)]
  ∧ ∃ d', wf_matrix (SparseMatrix_set 0 0 1 0 two_matrices).2 0
            (mkSparseMatrix 2 2 0) d'
          ∧ no_zero d'.
Proof.
  assert (no_zero [((0, 0), 2); ((0, 1), 3)]) as Hnz
    by (repeat constructor; simpl; lia).
  split; [exact wf_two_matrices_0|]. split; [exact Hnz|].
  exact (set_keeps_invariants two_matrices 0 _ _ 0 1 0 wf_two_matrices_0 Hnz).
Defined.

(** [set] writes one dictionary: it allocates nothing, changes no
    instance, and every matrix whose dictionary is another one is
    afterwards as it was, whether the call returned or raised. *)
Theorem set_writes_one_dictionary h self o d row col value :
  matrix_at h self o d →
  let h' := (SparseMatrix_set self row col value h).2 in
  objs h' = objs h
  ∧ length (dicts h') = length (dicts h)
  ∧ ∀ x ox dx, matrix_at h x ox dx → data ox ≠ data o → matrix_at h' x ox dx.
Proof.
  intros Hm h'. subst h'. rewrite (SparseMatrix_set_run _ _ _ _ _ _ _ Hm).
  destruct (out_of_bounds o row col); simpl; [done|].
  split_and!; [done | by rewrite length_insert |].
  intros x ox dx [Hx Hdx] Hne. split; simpl; [done|].
  by rewrite list_lookup_insert_ne.
Qed.

Lemma set_writes_one_dictionary_witness :
  matrix_at two_matrices 0 (mkSparseMatrix 2 2 0) [((0, 0), 2); ((0, 1), 3)]
  ∧ matrix_at (SparseMatrix_set 0 1 1 7 two_matrices).2 1
      (mkSparseMatrix 2 2 1) [((0, 0), 4); ((1, 0), 5)].
Proof.
  destruct wf_two_matrices_0 as (Hm0 & _). destruct wf_two_matrices_1 as (Hm1 & _).
  split; [exact Hm0|].
  destruct (set_writes_one_dictionary two_matrices 0 _ _ 1 1 7 Hm0)
    as (_ & _ & Hframe).
  apply (Hframe 1%nat _ _ Hm1). simpl. lia.
Defined.

Lemma elem_cells r c rws cls :
  (r, c) ∈ cells rws cls ↔ (0 ≤ r < rws) ∧ (0 ≤ c < cls).
Proof.
  unfold cells. rewrite list_elem_of_bind. split.
  - intros (r' & (c' & Hc & Hc')%list_elem_of_bind & Hr').
    apply list_elem_of_singleton in Hc as [= -> ->].
    apply elem_of_seqZ in Hc', Hr'. lia.
  - intros [Hr Hc]. exists r. split; [|apply elem_of_seqZ; lia].
    apply list_elem_of_bind. exists c. split; [left | apply elem_of_seqZ; lia].
Qed.

Lemma NoDup_cells rws cls : NoDup (cells rws cls).
Proof.
  unfold cells. apply NoDup_bind; [| |apply NoDup_seqZ].
  - intros r1 r2 [r c] _ _ (c1 & H1 & _)%list_elem_of_bind
      (c2 & H2 & _)%list_elem_of_bind.
    apply list_elem_of_singleton in H1, H2. congruence.
  - intros r _. apply NoDup_bind; [| |apply NoDup_seqZ].
    + intros c1 c2 y _ _ H1%list_elem_of_singleton H2%list_elem_of_singleton.
      congruence.
    + intros c _. apply NoDup_singleton.
Qed.

Lemma val_nonzero_key d k : val d k ≠ 0 → k ∈ Dict.keys d.
Proof.
  intros Hv. destruct (decide (k ∈ Dict.keys d)); [done|].
  by rewrite val_absent in Hv.
Qed.

Lemma key_val_nonzero d k : Dict.ok d → no_zero d → k ∈ Dict.keys d → val d k ≠ 0.
Proof.
  intros Hok Hnz ([k' v] & -> & He)%list_elem_of_fmap. simpl.
  unfold val, Dict.get. rewrite (DictFacts.elem_lookup_Some _ _ _ Hok He).
  unfold no_zero in Hnz. rewrite Forall_forall in Hnz. apply (Hnz _ He).
Qed.

Lemma keys_cells_Permutation o d :
  Dict.ok d → in_bounds o d → no_zero d →
  Dict.keys d ≡ₚ filter (λ k, val d k ≠ 0) (cells (rows o) (cols o)).
Proof.
  intros Hok Hb Hnz. apply NoDup_Permutation.
  - done.
  - apply NoDup_filter, NoDup_cells.
  - intros [r c]. rewrite list_elem_of_filter, elem_cells. split.
    + intros Hk. split; [by apply key_val_nonzero|].
      apply (keys_in_bounds o) in Hk; [|done]. by apply out_of_bounds_false.
    + intros [Hv _]. by apply val_nonzero_key.
Qed.

(** The number of items of a matrix (what [len(list(m.items()))] counts
    in the reports) is the number of cells of its shape at which [get]
    returns a non-zero value, for a matrix that satisfies the invariants. *)
Theorem items_count_nonzero_cells h a o d :
  wf_matrix h a o d → no_zero d →
  ∃ its,
    SparseMatrix_items a h = (Ret its, h)
    ∧ length its
      = length (filter (λ k : Z * Z, entry h a k.1 k.2 ≠ 0)
                  (cells (rows o) (cols o))).
Proof.
  intros (Hm & Hok & Hb) Hnz. exists d. split.
  - by rewrite (SparseMatrix_items_run _ _ _ _ Hm).
  - rewrite (list_filter_iff _ (λ k, val d k ≠ 0)).
    + rewrite <- (keys_cells_Permutation o d) by done.
      unfold Dict.keys. by rewrite length_fmap.
    + intros [r c]. simpl. by rewrite (entry_val _ _ _ _ _ _ Hm).
Qed.

Lemma items_count_nonzero_cells_witness :
  wf_matrix two_matrices 0 (mkSparseMatrix 2 2 0) [((0, 0), 2); ((0, 1), 3)]
  ∧ no_zero [((0, 0), 2); ((0, 1), 3)]
  ∧ length (filter (λ k : Z * Z, entry two_matrices 0 k.1 k.2 ≠ 0) (cells 2 2))
    = 2%nat.
Proof.
  assert (no_zero [((0, 0), 2); ((0, 1), 3)]) as Hnz
    by (repeat constructor; simpl; lia).
  split; [exact wf_two_matrices_0|]. split; [exact Hnz|].
  destruct (items_count_nonzero_cells two_matrices 0 _ _ wf_two_matrices_0 Hnz)
    as (its & E & Hlen).
  injection E as <-. symmetry. exact Hlen.
Defined.

(** ** operations.py *)

Lemma extends_refl h : extends h h.
Proof. by intros x o d. Qed.

Lemma extends_trans h1 h2 h3 : extends h1 h2 → extends h2 h3 → extends h1 h3.
Proof. intros H12 H23 x o d Hx. by apply H23, H12. Qed.

Lemma extends_with_result h o d : extends h (with_result h o d).
Proof. intros x ox dx Hx. by apply matrix_at_old. Qed.

Lemma wf_extends h h' x o d : extends h h' → wf_matrix h x o d → wf_matrix h' x o d.
Proof. intros He (Hm & Hok & Hb). split_and!; [by apply He | done..]. Qed.

Lemma in_bounds_acc f o l d :
  in_bounds o d → in_bounds o l → in_bounds o (foldl (acc_step f) d l).
Proof.
  revert d. induction l as [|[[r c] v] l IH]; intros d Hd Hl; simpl; [done|].
  apply Forall_cons in Hl as [Hrc Hl]. apply IH; [|done].
  apply in_bounds_set_dict; [|done]. by apply out_of_bounds_false.
Qed.

Lemma in_bounds_mul_inner o i va (row_k : Dict.t Z Z) d :
  (∀ x, x ∈ row_k → out_of_bounds o i x.1 = false) →
  in_bounds o d → in_bounds o (foldl (mul_inner_step i va) d row_k).
Proof.
  revert d. induction row_k as [|[j vb] row_k IH]; intros d Hrow Hd; simpl;
    [done|].
  apply IH.
  - intros x Hx. apply Hrow. by right.
  - apply in_bounds_set_dict; [|done]. apply (Hrow (j, vb)). left.
Qed.

Lemma in_bounds_mul_outer o b_cols l d :
  (∀ e row_k x, e ∈ l → Dict.lookup e.1.2 b_cols = Some row_k → x ∈ row_k →
     out_of_bounds o e.1.1 x.1 = false) →
  in_bounds o d → in_bounds o (foldl (mul_outer_step b_cols) d l).
Proof.
  revert d. induction l as [|e l IH]; intros d Hl Hd; simpl; [done|].
  apply IH.
  - intros e' row_k x He'. apply Hl. by right.
  - unfold mul_outer_step.
    destruct (Dict.lookup e.1.2 b_cols) as [row_k|] eqn:E; [|done].
    apply in_bounds_mul_inner; [|done]. intros x Hx.
    apply (Hl e row_k x); [left | done | done].
Qed.

(** What [add], [subtract] and [multiply] return on matrices of the data
    model, with the invariants of the result. *)
Lemma add_spec h a b oa ob da db :
  wf_matrix h a oa da → wf_matrix h b ob db →
  rows oa = rows ob → cols oa = cols ob →
  ∃ h' dr,
    add a b h = (Ret (length (objs h)), h')
    ∧ wf_matrix h' (length (objs h)) (result_instance h (rows oa) (cols oa)) dr
    ∧ no_zero dr
    ∧ extends h h'
    ∧ ∀ k, val dr k = val da k + val db k.
Proof.
  intros (Ha & Hoka & Hia) (Hb & Hokb & Hib) Hr Hc.
  rewrite (add_run h a b oa ob da db) by done.
  assert (Dict.ok (Dict.empty : Dict.t (Z * Z) Z)) as He
    by apply DictFacts.ok_empty.
  eexists _, _. split; [done|]. unfold wf_matrix. split_and!.
  - by apply matrix_at_result.
  - by apply ok_acc, ok_copy.
  - apply in_bounds_acc; [apply in_bounds_copy; [apply Forall_nil_2|] |].
    + by apply (in_bounds_same_shape oa).
    + by apply (in_bounds_same_shape ob).
  - apply no_zero_acc, no_zero_copy, Forall_nil_2.
  - apply extends_with_result.
  - intros k. by apply val_add_dict.
Qed.

Lemma subtract_spec h a b oa ob da db :
  wf_matrix h a oa da → wf_matrix h b ob db →
  rows oa = rows ob → cols oa = cols ob →
  ∃ h' dr,
    subtract a b h = (Ret (length (objs h)), h')
    ∧ wf_matrix h' (length (objs h)) (result_instance h (rows oa) (cols oa)) dr
    ∧ no_zero dr
    ∧ extends h h'
    ∧ ∀ k, val dr k = val da k - val db k.
Proof.
  intros (Ha & Hoka & Hia) (Hb & Hokb & Hib) Hr Hc.
  rewrite (subtract_run h a b oa ob da db) by done.
  assert (Dict.ok (Dict.empty : Dict.t (Z * Z) Z)) as He
    by apply DictFacts.ok_empty.
  eexists _, _. split; [done|]. unfold wf_matrix. split_and!.
  - by apply matrix_at_result.
  - by apply ok_acc, ok_copy.
  - apply in_bounds_acc; [apply in_bounds_copy; [apply Forall_nil_2|] |].
    + by apply (in_bounds_same_shape oa).
    + by apply (in_bounds_same_shape ob).
  - apply no_zero_acc, no_zero_copy, Forall_nil_2.
  - apply extends_with_result.
  - intros k. by apply val_subtract_dict.
Qed.

(** [multiply] on well-formed operands.  The values are integers here,
    so the accumulation is exact and [get] reads the sum of the products;
    for floats see [Float64Facts]. *)
Lemma multiply_spec h a b oa ob da db :
  wf_matrix h a oa da → wf_matrix h b ob db →
  cols oa = rows ob →
  ∃ h' dr,
    multiply a b h = (Ret (length (objs h)), h')
    ∧ wf_matrix h' (length (objs h)) (result_instance h (rows oa) (cols ob)) dr
    ∧ no_zero dr
    ∧ extends h h'
    ∧ ∀ i j, val dr (i, j)
             = sumZ ((λ k, val da (i, k) * val db (k, j)) <$> seqZ 0 (cols oa)).
Proof.
  intros (Ha & Hoka & Hia) (Hb & Hokb & Hib) Hc.
  rewrite (multiply_run h a b oa ob da db) by done.
  eexists _, _. split; [done|]. unfold wf_matrix. split_and!.
  - by apply matrix_at_result.
  - apply ok_mul_outer, DictFacts.ok_empty.
  - apply in_bounds_mul_outer; [|apply Forall_nil_2].
    intros [[i k] va] row_k [j vb] He Hk Hx. cbn [fst snd] in *.
    apply (index_elem _ _ _ _ _ Hokb Hk) in Hx.
    apply (in_bounds_elem _ _ _ _ _ Hia) in He.
    apply (in_bounds_elem _ _ _ _ _ Hib) in Hx.
    apply out_of_bounds_false in He, Hx. apply out_of_bounds_false.
    simpl. lia.
  - apply no_zero_mul_outer, Forall_nil_2.
  - apply extends_with_result.
  - intros i j. apply val_multiply_dict; [done..|].
    eapply Forall_impl; [exact Hia|]. simpl. tauto.
Qed.

(** Two mappings with distinct keys and no zero that read the same value
    at every key have the same items, up to their order. *)
Lemma same_values_Permutation (d1 d2 : Dict.t (Z * Z) Z) :
  Dict.ok d1 → Dict.ok d2 → no_zero d1 → no_zero d2 →
  (∀ k, val d1 k = val d2 k) → d1 ≡ₚ d2.
Proof.
  assert (∀ d1 d2 : Dict.t (Z * Z) Z,
            Dict.ok d1 → no_zero d1 → (∀ k, val d1 k = val d2 k) →
            ∀ e, e ∈ d1 → e ∈ d2) as Hincl.
  { intros e1 e2 Hok Hnz Hval [k v] He.
    pose proof He as Hl. apply (DictFacts.elem_lookup_Some _ _ _ Hok) in Hl.
    unfold no_zero in Hnz. rewrite Forall_forall in Hnz.
    specialize (Hnz _ He). simpl in Hnz.
    specialize (Hval k). unfold val, Dict.get in Hval. rewrite Hl in Hval.
    destruct (Dict.lookup k e2) as [v'|] eqn:E; [|congruence].
    subst v'. by apply DictFacts.lookup_Some_elem. }
  intros Hok1 Hok2 Hnz1 Hnz2 Hval. apply NoDup_Permutation.
  - by eapply NoDup_fmap_1.
  - by eapply NoDup_fmap_1.
  - intros e. split; apply Hincl; done.
Qed.

(** [subtract(A, B)] on matrices of one shape returns a new matrix of that
    shape on which [get(i, j)] returns A.get(i, j) - B.get(i, j) at every
    coordinate (so the operands are not interchangeable). *)
Theorem subtract_entrywise h a b oa ob da db :
  wf_matrix h a oa da → wf_matrix h b ob db →
  rows oa = rows ob → cols oa = cols ob →
  let r := length (objs h) in
  ∃ h' dr,
    subtract a b h = (Ret r, h')
    ∧ objs h !! r = None
    ∧ matrix_at h' r (mkSparseMatrix (rows oa) (cols oa) (length (dicts h))) dr
    ∧ ∀ i j, SparseMatrix_get r i j h'
             = (Ret (entry h a i j - entry h b i j), h').
Proof.
  intros Hwa Hwb Hr Hc r. subst r.
  destruct (subtract_spec h a b oa ob da db Hwa Hwb Hr Hc)
    as (h' & dr & E & (Hm & _ & _) & _ & _ & Hval).
  exists h', dr. split_and!; [done | by apply lookup_ge_None | done |].
  intros i j. rewrite (SparseMatrix_get_run _ _ _ _ _ _ Hm), Hval.
  destruct Hwa as (Ha & _). destruct Hwb as (Hb & _).
  by rewrite (entry_val _ _ _ _ _ _ Ha), (entry_val _ _ _ _ _ _ Hb).
Qed.

Lemma subtract_entrywise_witness :
  wf_matrix two_matrices 0 (mkSparseMatrix 2 2 0) [((0, 0), 2); ((0, 1), 3)]
  ∧ wf_matrix two_matrices 1 (mkSparseMatrix 2 2 1) [((0, 0), 4); ((1, 0), 5)]
  ∧ ∃ h', subtract 0 1 two_matrices = (Ret 2%nat, h')
          ∧ SparseMatrix_get 2 0 0 h' = (Ret (-2), h')
          ∧ SparseMatrix_get 2 1 0 h' = (Ret (-5), h').
Proof.
  split; [exact wf_two_matrices_0|]. split; [exact wf_two_matrices_1|].
  destruct (subtract_entrywise two_matrices 0 1 _ _ _ _
              wf_two_matrices_0 wf_two_matrices_1 eq_refl eq_refl)
    as (h' & dr & E & _ & _ & Hget).
  exists h'. split; [exact E|]. split; [exact (Hget 0 0) | exact (Hget 1 0)].
Defined.

(** The results are matrices of the data model again: what [add],
    [subtract] and [multiply] return on well-formed operands has distinct
    keys, all inside the shape of the result (I1), and stores no zero
    (I2); so a result can be an operand of the next operation. *)
Theorem results_keep_invariants h a b oa ob da db :
  wf_matrix h a oa da → wf_matrix h b ob db →
  let r := length (objs h) in
  (rows oa = rows ob ∧ cols oa = cols ob →
   (∃ h' dr, add a b h = (Ret r, h')
             ∧ wf_matrix h' r
                 (mkSparseMatrix (rows oa) (cols oa) (length (dicts h))) dr
             ∧ no_zero dr)
   ∧ (∃ h' dr, subtract a b h = (Ret r, h')
               ∧ wf_matrix h' r
                   (mkSparseMatrix (rows oa) (cols oa) (length (dicts h))) dr
               ∧ no_zero dr))
  ∧ (cols oa = rows ob →
     ∃ h' dr, multiply a b h = (Ret r, h')
              ∧ wf_matrix h' r
                  (mkSparseMatrix (rows oa) (cols ob) (length (dicts h))) dr
              ∧ no_zero dr).
Proof.
  intros Hwa Hwb r. subst r. split.
  - intros [Hr Hc]. split.
    + destruct (add_spec h a b oa ob da db Hwa Hwb Hr Hc)
        as (h' & dr & E & Hw & Hnz & _). by exists h', dr.
    + destruct (subtract_spec h a b oa ob da db Hwa Hwb Hr Hc)
        as (h' & dr & E & Hw & Hnz & _). by exists h', dr.
  - intros Hc.
    destruct (multiply_spec h a b oa ob da db Hwa Hwb Hc)
      as (h' & dr & E & Hw & Hnz & _). by exists h', dr.
Qed.

Lemma results_keep_invariants_witness :
  wf_matrix two_matrices 0 (mkSparseMatrix 2 2 0) [((0, 0), 2); ((0, 1), 3)]
  ∧ wf_matrix two_matrices 1 (mkSparseMatrix 2 2 1) [((0, 0), 4); ((1, 0), 5)]
  ∧ ∃ h' dr, multiply 0 1 two_matrices = (Ret 2%nat, h')
             ∧ wf_matrix h' 2 (mkSparseMatrix 2 2 2) dr ∧ no_zero dr.
Proof.
  split; [exact wf_two_matrices_0|]. split; [exact wf_two_matrices_1|].
  exact (proj2 (results_keep_invariants two_matrices 0 1 _ _ _ _
                  wf_two_matrices_0 wf_two_matrices_1) eq_refl).
Defined.

(** [add] is commutative: [add(A, B)] and [add(B, A)] return matrices
    that read the same value at every coordinate and have the same items,
    up to their order. *)
Theorem add_commutes h a b oa ob da db :
  wf_matrix h a oa da → wf_matrix h b ob db →
  rows oa = rows ob → cols oa = cols ob →
  let r := length (objs h) in
  ∃ h1 h2 d1 d2,
    add a b h = (Ret r, h1) ∧ add b a h = (Ret r, h2)
    ∧ SparseMatrix_items r h1 = (Ret d1, h1)
    ∧ SparseMatrix_items r h2 = (Ret d2, h2)
    ∧ d1 ≡ₚ d2
    ∧ ∀ i j, entry h1 r i j = entry h2 r i j.
Proof.
  intros Hwa Hwb Hr Hc r. subst r.
  destruct (add_spec h a b oa ob da db Hwa Hwb Hr Hc)
    as (h1 & d1 & E1 & (Hm1 & Hok1 & _) & Hnz1 & _ & Hv1).
  destruct (add_spec h b a ob oa db da Hwb Hwa (eq_sym Hr) (eq_sym Hc))
    as (h2 & d2 & E2 & (Hm2 & Hok2 & _) & Hnz2 & _ & Hv2).
  exists h1, h2, d1, d2.
  assert (∀ k, val d1 k = val d2 k) as Hv by (intros k; rewrite Hv1, Hv2; lia).
  split_and!; try done.
  - by rewrite (SparseMatrix_items_run _ _ _ _ Hm1).
  - by rewrite (SparseMatrix_items_run _ _ _ _ Hm2).
  - by apply same_values_Permutation.
  - intros i j.
    by rewrite (entry_val _ _ _ _ _ _ Hm1), (entry_val _ _ _ _ _ _ Hm2).
Qed.

Lemma add_commutes_witness :
  wf_matrix two_matrices 0 (mkSparseMatrix 2 2 0) [((0, 0), 2); ((0, 1), 3)]
  ∧ wf_matrix two_matrices 1 (mkSparseMatrix 2 2 1) [((0, 0), 4); ((1, 0), 5)]
  ∧ (add 0 1 two_matrices).1 = (add 1 0 two_matrices).1.
Proof.
  split; [exact wf_two_matrices_0|]. split; [exact wf_two_matrices_1|].
  destruct (add_commutes two_matrices 0 1 _ _ _ _
              wf_two_matrices_0 wf_two_matrices_1 eq_refl eq_refl)
    as (h1 & h2 & d1 & d2 & E1 & E2 & _).
  by rewrite E1, E2.
Defined.

Lemma acc_add_verbatim l d :
  Dict.ok (d ++ l) → no_zero l → foldl (acc_step Z.add) d l = d ++ l.
Proof.
  revert d. induction l as [|[k v] l IH]; intros d Hok Hnz; simpl.
  - by rewrite app_nil_r.
  - apply Forall_cons in Hnz as [Hv Hnz]. simpl in Hv.
    assert (k ∉ Dict.keys d) as Hk.
    { unfold Dict.ok, Dict.keys in *. rewrite fmap_app, fmap_cons in Hok.
      apply NoDup_app in Hok as (_ & Hdis & _). intros Hk.
      apply (Hdis _ Hk). left. }
    assert (acc_step Z.add d (k, v) = d ++ [(k, v)]) as ->.
    { unfold acc_step, set_dict. cbn [fst snd]. rewrite val_absent by done.
      rewrite Z.add_0_l.
      destruct (Z.eqb_spec v 0); [done|]. simpl. by apply setitem_absent. }
    rewrite IH; [by rewrite <- app_assoc | by rewrite <- app_assoc | done].
Qed.

(** The empty matrix is neutral: for a matrix A that satisfies the
    invariants and an empty matrix Z of the shape of A, the results of
    [add(A, Z)], [add(Z, A)] and [subtract(A, Z)] have exactly the items
    of A, in the order of A. *)
Theorem empty_matrix_is_neutral h a z oa oz da :
  wf_matrix h a oa da → no_zero da →
  matrix_at h z oz Dict.empty →
  rows oa = rows oz → cols oa = cols oz →
  let r := length (objs h) in
  (∃ h', add a z h = (Ret r, h') ∧ SparseMatrix_items r h' = (Ret da, h'))
  ∧ (∃ h', add z a h = (Ret r, h') ∧ SparseMatrix_items r h' = (Ret da, h'))
  ∧ (∃ h', subtract a z h = (Ret r, h')
           ∧ SparseMatrix_items r h' = (Ret da, h')).
Proof.
  intros (Ha & Hoka & Hia) Hnz Hz Hr Hc r. subst r.
  assert (in_bounds oz Dict.empty) as Hiz by apply Forall_nil_2.
  assert (foldl copy_step Dict.empty da = da) as Hcopy
    by by apply (copy_verbatim da Dict.empty).
  split_and!.
  - rewrite (add_run h a z oa oz da Dict.empty) by done.
    eexists. split; [done|]. simpl. rewrite Hcopy.
    by erewrite SparseMatrix_items_run by by apply matrix_at_result.
  - rewrite (add_run h z a oz oa Dict.empty da) by done.
    eexists. split; [done|]. simpl.
    rewrite (acc_add_verbatim da Dict.empty) by done.
    by erewrite SparseMatrix_items_run by by apply matrix_at_result.
  - rewrite (subtract_run h a z oa oz da Dict.empty) by done.
    eexists. split; [done|]. simpl. rewrite Hcopy.
    by erewrite SparseMatrix_items_run by by apply matrix_at_result.
Qed.

Lemma empty_matrix_is_neutral_witness :
  wf_matrix matrix_and_empty 0 (mkSparseMatrix 2 2 0) [((0, 0), 2); ((0, 1), 3)]
  ∧ no_zero [((0, 0), 2); ((0, 1), 3)]
  ∧ matrix_at matrix_and_empty 1 (mkSparseMatrix 2 2 1) Dict.empty
  ∧ ∃ h', add 1 0 matrix_and_empty = (Ret 2%nat, h')
          ∧ SparseMatrix_items 2 h' = (Ret [((0, 0), 2); ((0, 1), 3)], h').
Proof.
  assert (wf_matrix matrix_and_empty 0 (mkSparseMatrix 2 2 0)
            [((0, 0), 2); ((0, 1), 3)]) as Hw.
  { split_and!; [by split | |].
    - unfold Dict.ok. apply (bool_decide_unpack _). by vm_compute.
    - repeat constructor; simpl; lia. }
  assert (no_zero [((0, 0), 2); ((0, 1), 3)]) as Hnz
    by (repeat constructor; simpl; lia).
  assert (matrix_at matrix_and_empty 1 (mkSparseMatrix 2 2 1) Dict.empty)
    as Hz by (split; reflexivity).
  split; [exact Hw|]. split; [exact Hnz|]. split; [exact Hz|].
  exact (proj1 (proj2 (empty_matrix_is_neutral matrix_and_empty 0 1 _ _ _
                         Hw Hnz Hz eq_refl eq_refl))).
Defined.

(** A product with an empty operand is empty: when A or B has no item,
    [multiply(A, B)] returns a matrix with no item. *)
Theorem multiply_empty_operand h a b oa ob da db :
  wf_matrix h a oa da → wf_matrix h b ob db →
  cols oa = rows ob →
  da = Dict.empty ∨ db = Dict.empty →
  ∃ h', multiply a b h = (Ret (length (objs h)), h')
        ∧ SparseMatrix_items (length (objs h)) h' = (Ret [], h').
Proof.
  intros Hwa Hwb Hc Hempty.
  destruct (multiply_spec h a b oa ob da db Hwa Hwb Hc)
    as (h' & dr & E & (Hm & _ & _) & Hnz & _ & Hv).
  exists h'. split; [done|].
  rewrite (SparseMatrix_items_run _ _ _ _ Hm). do 2 f_equal.
  apply no_zero_val_nil; [done|]. intros [i j]. rewrite Hv.
  etrans; [|apply (sumZ_fmap_zero (seqZ 0 (cols oa)))].
  apply sumZ_fmap_ext. intros k _.
  destruct Hempty as [-> | ->]; unfold val, Dict.get; simpl; lia.
Qed.

Lemma multiply_empty_operand_witness :
  matrix_at matrix_and_empty 1 (mkSparseMatrix 2 2 1) Dict.empty
  ∧ ∃ h', multiply 0 1 matrix_and_empty = (Ret 2%nat, h')
          ∧ SparseMatrix_items 2 h' = (Ret [], h').
Proof.
  assert (wf_matrix matrix_and_empty 0 (mkSparseMatrix 2 2 0)
            [((0, 0), 2); ((0, 1), 3)]) as Hw.
  { split_and!; [by split | |].
    - unfold Dict.ok. apply (bool_decide_unpack _). by vm_compute.
    - repeat constructor; simpl; lia. }
  assert (wf_matrix matrix_and_empty 1 (mkSparseMatrix 2 2 1) Dict.empty)
    as Hz.
  { split_and!; [by split | apply NoDup_nil_2 | apply Forall_nil_2]. }
  split; [exact (proj1 Hz)|].
  exact (multiply_empty_operand matrix_and_empty 0 1 _ _ _ _ Hw Hz eq_refl
           (or_intror eq_refl)).
Defined.

(** [check_dimensions] reads and never writes: whatever the operation name
    and the references, the store after the call is the store before it;
    and a name other than 'add', 'subtract' and 'multiply' (the comparison
    is case-sensitive) raises the unknown-operation error before a or b is
    looked at, so even for references that denote no matrix. *)
Theorem check_dimensions_reads_only a b operation h :
  (check_dimensions a b operation h).2 = h
  ∧ (operation ≠ "add"%string → operation ≠ "subtract"%string →
     operation ≠ "multiply"%string →
     check_dimensions a b operation h = (Raise (ValueError msg_unknown), h)).
Proof.
  split; [apply check_dimensions_pure|].
  intros H1 H2 H3. unfold check_dimensions.
  by rewrite !bool_decide_eq_false_2 by done.
Qed.

Lemma check_dimensions_reads_only_witness :
  check_dimensions 7 9 "Add" empty_heap
  = (Raise (ValueError msg_unknown), empty_heap).
Proof.
  apply (check_dimensions_reads_only 7 9 "Add" empty_heap); discriminate.
Defined.

(** ** matrix_io.py: the parser *)

(** *** Strings *)

Lemma append_String c s t : String c s +:+ t = String c (s +:+ t).
Proof. done. Qed.

Lemma append_assoc_string s1 s2 s3 : (s1 +:+ s2) +:+ s3 = s1 +:+ s2 +:+ s3.
Proof.
  induction s1 as [|c s1 IH]; [done|]. by rewrite !append_String, IH.
Qed.

Lemma split_append_sep_length sep s1 s2 :
  (2 ≤ length (split sep (s1 +:+ String sep s2)))%nat.
Proof.
  assert (∀ s, (1 ≤ length (split sep s))%nat) as Hne.
  { intros s. induction s as [|c s IH]; simpl; [lia|].
    case_bool_decide; simpl; [lia|]. destruct (split sep s); simpl in *; lia. }
  induction s1 as [|c s1 IH].
  - simpl. rewrite bool_decide_eq_true_2 by done. simpl.
    pose proof (Hne s2). lia.
  - rewrite append_String. simpl. case_bool_decide; simpl; [lia|].
    destruct (split sep (s1 +:+ String sep s2)); simpl in *; lia.
Qed.

Lemma startswith_append prefix s :
  startswith prefix s = true → ∃ tail, s = prefix +:+ tail.
Proof.
  revert s. induction prefix as [|c prefix IH]; intros s; [by exists s|].
  destruct s as [|c' s]; [done|]. simpl.
  intros [Hc Hs]%andb_true_iff. apply bool_decide_eq_true in Hc as ->.
  destruct (IH _ Hs) as [tail ->]. by exists tail.
Qed.

(** *** The lines of a file *)

Lemma stripped_lines_app py l1 l2 :
  stripped_lines py (l1 ++ l2) = stripped_lines py l1 ++ stripped_lines py l2.
Proof. unfold stripped_lines. by rewrite filter_app, fmap_app. Qed.

Lemma stripped_lines_cons py line file :
  py_strip py line ≠ EmptyString →
  stripped_lines py (line :: file) = py_strip py line :: stripped_lines py file.
Proof.
  intros Hl. unfold stripped_lines. by rewrite filter_cons_True.
Qed.

(** Blank lines are dropped: the stripped lines are as many as the lines of
    the file exactly when no line is blank. *)
Lemma stripped_lines_length py file :
  (length (stripped_lines py file) ≤ length file)%nat
  ∧ (length (stripped_lines py file) = length file
     ↔ Forall (λ line, py_strip py line ≠ EmptyString) file).
Proof.
  unfold stripped_lines. rewrite length_fmap.
  induction file as [|line file [IH1 IH2]]; [by split|].
  rewrite filter_cons. destruct (decide (py_strip py line ≠ EmptyString)).
  - cbn [length]. split; [lia|]. rewrite Forall_cons. split.
    + intros [= E]. split; [done|]. by apply IH2.
    + intros [_ Hall]. f_equal. by apply IH2.
  - cbn [length]. split; [lia|]. rewrite Forall_cons. split; [lia | tauto].
Qed.

Section parser_more.
Variable py : builtins.

Lemma parse_lines_app matrix rws cls l1 l2 line_num st h :
  parse_lines py matrix rws cls line_num (l1 ++ l2) st h
  = (st' ← parse_lines py matrix rws cls line_num l1 st;
     parse_lines py matrix rws cls (line_num + length l1) l2 st')
      h.
Proof.
  revert line_num st h. induction l1 as [|line l1 IH]; intros n st h.
  - simpl. unfold mbind, M_bind, mret, M_ret. by rewrite Nat.add_0_r.
  - cbn [app parse_lines length]. unfold mbind, M_bind in *.
    destruct (parse_line py matrix rws cls n line st h)
      as [[st1|e] h1]; [|done].
    rewrite IH. by rewrite Nat.add_succ_comm.
Qed.

(** A line that stands for no entry ends the parse with one of three
    messages, each with the number of the line and the line itself. *)
Lemma parse_line_malformed matrix rws cls line_num line st h :
  line_entry py line = None →
  ∃ msg, parse_line py matrix rws cls line_num line st h
         = (Raise (ValueError msg), h)
         ∧ malformed_message line_num line msg.
Proof.
  unfold line_entry, parse_line, malformed_message. intros Hl.
  destruct (startswith "(" line && endswith ")" line); simpl;
    [|by eexists; split; [done | left]].
  destruct (split "," (remove_spaces (slice_1_m1 line)))
    as [|p0 [|p1 [|p2 [|? ?]]]]; simpl;
    try (by eexists; split; [done | right; left]).
  unfold except_ValueError, convert_int, convert_float, mbind, M_bind, mret,
    M_ret, raise.
  destruct (py_int py p0) as [r|]; [|by eexists; split; [done | right; right]].
  destruct (py_int py p1) as [c|]; [|by eexists; split; [done | right; right]].
  destruct (py_float py p2) as [v|]; [done|].
  by eexists; split; [done | right; right].
Qed.

Lemma entries_of_body (body : list string) :
  Forall (λ line, is_Some (line_entry py line)) body →
  ∃ entries, Forall2 (λ line e, line_entry py line = Some e) body entries.
Proof.
  induction 1 as [|line body [e He] _ [entries IH]].
  - exists []. constructor.
  - exists (e :: entries). by constructor.
Qed.

(** After a header prefix the field of the dimension is always there: what
    can fail is only its conversion, with the message of [int]. *)
Lemma header_int_fails name line h :
  header_dim py (name +:+ "=") line = None →
  startswith (name +:+ "=") line = true →
  ∃ field,
    header_int py line h = (Raise (ValueError (int_message py field)), h).
Proof.
  unfold header_dim, header_int, convert_int. intros Hd Hs. rewrite Hs in Hd.
  apply startswith_append in Hs as [tail ->].
  pose proof (split_append_sep_length "=" name tail) as Hlen.
  rewrite append_assoc_string in *.
  change ("=" +:+ tail) with (String "=" tail) in *.
  destruct (split "=" (name +:+ String "=" tail)) as [|? [|field ?]];
    [simpl in Hlen; lia..|].
  rewrite Hd. by exists field.
Qed.

Lemma invariants_set_dict o row col v d :
  out_of_bounds o row col = false →
  invariants o d → invariants o (set_dict (row, col) v d).
Proof.
  intros Hb (Hok & Hin & Hnz). split_and!.
  - by apply ok_set_dict.
  - by apply in_bounds_set_dict.
  - by apply no_zero_set_dict.
Qed.

(** Every outcome of one iteration of the loop, in a store where the
    matrix under construction is the last object. *)
Lemma parse_line_outcome h o d line_num line st out h' :
  data o = length (dicts h) →
  parse_line py (length (objs h)) (rows o) (cols o) line_num line st
    (with_result h o d) = (out, h') →
  ∃ d', h' = with_result h o d'
    ∧ (invariants o d → invariants o d')
    ∧ ((∃ st', out = Ret st' ∧ is_Some (line_entry py line))
       ∨ (∃ msg, out = Raise (ValueError msg)
                 ∧ malformed_message line_num line msg)
       ∨ (∃ e, out = Raise e ∧ print_error py e)).
Proof.
  intros Hdata E. destruct (line_entry py line) as [[[row col] v]|] eqn:Hl.
  - destruct (decide ((0 ≤ row < rows o) ∧ (0 ≤ col < cols o))) as [Hin|Hout].
    + rewrite (parse_line_keep py h o d _ _ _ _ _ _ Hdata Hl Hin) in E.
      injection E as <- <-. eexists. split; [done|]. split.
      * apply invariants_set_dict. by apply out_of_bounds_false.
      * left. eexists. split; [done|]. by eexists.
    + rewrite (parse_line_skip_cases py _ _ _ _ _ _ _ _ _ _ Hl Hout) in E.
      exists d. split_and!; [|done|].
      * destruct (stdout py _) as [[]|]; by injection E as <- <-.
      * destruct (stdout py _) as [e|] eqn:Ep.
        -- destruct e; injection E as <- _.
           ++ right. right. eexists. split; [done|]. by eexists.
           ++ right. left. eexists. split; [done|]. right. by right.
           ++ right. right. eexists. split; [done|]. by eexists.
           ++ right. right. eexists. split; [done|]. by eexists.
        -- injection E as <- _. left. eexists. split; [done|]. by eexists.
  - destruct (parse_line_malformed (length (objs h)) (rows o) (cols o)
                line_num line st (with_result h o d) Hl) as (msg & E' & Hmsg).
    rewrite E' in E. injection E as <- <-. exists d. split_and!; [done..|].
    right. left. by exists msg.
Qed.

Lemma parse_lines_outcome h o lines line_num st d out h' :
  data o = length (dicts h) →
  parse_lines py (length (objs h)) (rows o) (cols o) line_num lines st
    (with_result h o d) = (out, h') →
  ∃ d', h' = with_result h o d'
    ∧ (invariants o d → invariants o d')
    ∧ ((∃ st', out = Ret st'
               ∧ Forall (λ line, is_Some (line_entry py line)) lines)
       ∨ (∃ msg, out = Raise (ValueError msg)
                 ∧ ∃ n line, malformed_message n line msg)
       ∨ (∃ e, out = Raise e ∧ print_error py e)).
Proof.
  intros Hdata. revert line_num st d.
  induction lines as [|line lines IH]; intros n st d E.
  - injection E as <- <-. exists d. split_and!; [done..|].
    left. eexists. split; [done | constructor].
  - cbn [parse_lines] in E. unfold mbind, M_bind in E.
    destruct (parse_line py (length (objs h)) (rows o) (cols o) n line st
                (with_result h o d)) as [out1 h1] eqn:E1.
    destruct (parse_line_outcome _ _ _ _ _ _ _ _ Hdata E1)
      as (d1 & -> & Hinv1 & Hcase).
    destruct Hcase as [(st1 & -> & Hsome)|[(msg & -> & Hmsg)|(e & -> & He)]].
    + destruct (IH _ _ _ E) as (d' & -> & Hinv & Hcase').
      exists d'. split_and!; [done | auto |].
      destruct Hcase' as [(st' & -> & Hall)|[Hm|Hp]].
      * left. eexists. split; [done | by constructor].
      * right. by left.
      * right. by right.
    + injection E as <- <-. exists d1. split_and!; [done..|].
      right. left. exists msg. split; [done|]. by exists n, line.
    + injection E as <- <-. exists d1. split_and!; [done..|].
      right. right. by exists e.
Qed.

(** Every outcome of the parser, and what it leaves of the store. *)
Lemma parse_outcome lines h out h' :
  parse_matrix_file py lines h = (out, h') →
  extends h h' ∧ parser_outcome py lines h out h'.
Proof.
  assert (∀ h0, extends h0 h0
            ∧ parser_outcome py lines h0
                (Raise (ValueError msg_missing_header)) h0) as Hmissing.
  { intros h0. split; [apply extends_refl|]. right. left.
    eexists. split; [done | by left]. }
  assert (∀ h0 field, extends h0 h0
            ∧ parser_outcome py lines h0
                (Raise (ValueError (int_message py field))) h0) as Hliteral.
  { intros h0 field. split; [apply extends_refl|]. right. left.
    eexists. split; [done|]. right. left. by exists field. }
  destruct lines as [|l0 [|l1 body]];
    [intros [= <- <-]; apply Hmissing..|].
  unfold parse_matrix_file.
  destruct (startswith "rows=" l0) eqn:Hr0; cbn [negb orb];
    [|intros [= <- <-]; apply Hmissing].
  destruct (startswith "cols=" l1) eqn:Hc0; cbn [negb];
    [|intros [= <- <-]; apply Hmissing].
  destruct (header_dim py "rows=" l0) as [rws|] eqn:Hr.
  2:{ destruct (header_int_fails "rows" _ h Hr Hr0) as [field He].
      erewrite bind_raise_run by exact He.
      intros [= <- <-]. apply Hliteral. }
  destruct (header_int_dim py _ _ _ h Hr) as [_ Hr1].
  erewrite bind_ret_run by exact Hr1.
  destruct (header_dim py "cols=" l1) as [cls|] eqn:Hc.
  2:{ destruct (header_int_fails "cols" _ h Hc Hc0) as [field He].
      erewrite bind_raise_run by exact He.
      intros [= <- <-]. apply Hliteral. }
  destruct (header_int_dim py _ _ _ h Hc) as [_ Hc1].
  erewrite bind_ret_run by exact Hc1.
  erewrite bind_ret_run by apply SparseMatrix_init_run.
  set (o := mkSparseMatrix rws cls (length (dicts h))).
  change (mkHeap _ _) with (with_result h o Dict.empty).
  unfold mbind at 1. unfold M_bind at 1.
  destruct (parse_lines py (length (objs h)) rws cls 3 body
              (mkStats 0 0 Dict.empty) (with_result h o Dict.empty))
    as [out1 h1] eqn:E1.
  destruct (parse_lines_outcome h o _ _ _ _ _ _ eq_refl E1)
    as (d' & -> & Hinv & Hcase).
  assert (invariants o d') as (Hok & Hin & Hnz).
  { apply Hinv. split_and!;
      [apply DictFacts.ok_empty | apply Forall_nil_2 | apply Forall_nil_2]. }
  destruct Hcase
    as [(st' & -> & Hall)|[(msg & -> & n & line & Hmsg)|(e & -> & He)]].
  - destruct (prints_only_report py rws cls st' (with_result h o d'))
      as (out2 & E2 & Hout2).
    unfold mbind, M_bind. rewrite E2.
    destruct Hout2 as [->|(e & -> & He)]; intros [= <- <-];
      (split; [apply extends_with_result|]).
    + left. exists o, d'. split_and!; try done.
      * split_and!; [by apply matrix_at_result | done..].
      * by exists l0, l1, body.
    + right. right. by exists e.
  - intros [= <- <-]. split; [apply extends_with_result|].
    right. left. exists msg. split; [done|]. right. right. by exists n, line.
  - intros [= <- <-]. split; [apply extends_with_result|].
    right. right. by exists e.
Qed.

(** What the loop returns on a body of entries, whenever it returns. *)
Lemma parse_lines_entries_ret h o d line_num body entries st st' h' :
  data o = length (dicts h) →
  Forall2 (λ line e, line_entry py line = Some e) body entries →
  parse_lines py (length (objs h)) (rows o) (cols o) line_num
    body st (with_result h o d) = (Ret st', h') →
  st' = stats_after (rows o) (cols o) st entries.
Proof.
  intros Hdata Hall. revert line_num st d.
  induction Hall as [|line [[row col] val] body entries Hl Hall IH];
    intros line_num st d; [by intros [= <- _]|].
  cbn [parse_lines]. unfold stats_after. cbn [foldl fst snd].
  destruct (decide ((0 ≤ row < rows o) ∧ (0 ≤ col < cols o))) as [Hin|Hout].
  - erewrite bind_ret_run by by apply parse_line_keep. apply IH.
  - unfold mbind, M_bind.
    rewrite (parse_line_skip_cases py _ _ _ _ _ _ _ _ _ _ Hl Hout).
    destruct (stdout py _) as [[]|]; try done. apply IH.
Qed.
End parser_more.

(** With a standard output that accepts what is printed the parser returns
    exactly on the well-formed files: those with at least two lines, of
    which the first two give the dimensions ([rows=<int>] then
    [cols=<int>]) and every further one stands for an entry.  Whatever
    [print] does, the parser returns on no other file. *)
Theorem parse_returns_iff_well_formed py lines h :
  ((∃ m h', parse_matrix_file py lines h = (Ret m, h')) →
   well_formed py lines)
  ∧ (accepts_all py → well_formed py lines →
     ∃ m h', parse_matrix_file py lines h = (Ret m, h')).
Proof.
  split.
  - intros (m & h' & E).
    destruct (parse_outcome py _ _ _ _ E)
      as [_ [(o & d & _ & _ & _ & l0 & l1 & body & -> & Hr & Hc & Hall)
            |[(? & [=] & _)|(? & [=] & _)]]].
    by exists l0, l1, body, (rows o), (cols o).
  - intros Hacc (l0 & l1 & body & rws & cls & -> & Hr & Hc & Hall).
    destruct (entries_of_body py _ Hall) as [entries Hentries].
    rewrite (parse_well_formed_run py h _ _ _ _ _ _ Hacc Hr Hc Hentries).
    by eexists _, _.
Qed.

Lemma parse_returns_iff_well_formed_witness :
  accepts_all plain_python
  ∧ well_formed plain_python file_scenario4
  ∧ ∃ m h', parse_matrix_file plain_python file_scenario4 empty_heap
            = (Ret m, h').
Proof.
  assert (accepts_all plain_python) as Hacc by (intros text; reflexivity).
  assert (well_formed plain_python file_scenario4) as Hwf.
  { exists "rows=2"%string, "cols=2"%string, (drop 2 file_scenario4), 2, 2.
    split_and!; [reflexivity..|]. repeat constructor; by eexists. }
  split; [exact Hacc|]. split; [exact Hwf|].
  exact (proj2 (parse_returns_iff_well_formed plain_python file_scenario4
                  empty_heap) Hacc Hwf).
Defined.

(** Whatever the parser returns is a matrix of the data model: a new
    instance whose mapping has distinct keys, all in bounds (I1), and no
    zero (I2); the matrices that existed before are unchanged. *)
Theorem parse_returns_well_formed py lines h m h' :
  parse_matrix_file py lines h = (Ret m, h') →
  m = length (objs h)
  ∧ objs h !! m = None
  ∧ extends h h'
  ∧ ∃ o d, wf_matrix h' m o d ∧ no_zero d.
Proof.
  intros E.
  destruct (parse_outcome py _ _ _ _ E)
    as [Hext [(o & d & [= ->] & Hwf & Hnz & _)|[(? & [=] & _)|(? & [=] & _)]]].
  split_and!; [done | by apply lookup_ge_None | done |]. by exists o, d.
Qed.

Lemma parse_returns_well_formed_witness :
  ∃ o d,
    wf_matrix (parse_matrix_file plain_python file_scenario4 empty_heap).2
      0 o d
    ∧ no_zero d.
Proof.
  exact (proj2 (proj2 (proj2
    (parse_returns_well_formed plain_python file_scenario4 empty_heap 0%nat
       (parse_matrix_file plain_python file_scenario4 empty_heap).2
       eq_refl)))).
Defined.

(** A malformed line is fatal and is named in the error.  Take the lines
    of a file up to a line that, stripped, is not blank and stands for no
    entry, where the non-blank lines before it are the two header lines and
    lines that stand for entries, and a standard output that accepts the
    diagnostics of the entries that are skipped.  The parser raises a
    ValueError whose message is one of the three malformed-line messages,
    with the stripped text of the line and its number among the non-blank
    lines of the file: blank lines are dropped before the lines are
    numbered, so the number is at most the number of the line in the file,
    and it is that number exactly when no line before it is blank.  No
    matrix that existed before is changed. *)
Theorem parse_malformed_line_is_fatal py h before raw after l0 l1 pre rws cls
    entries :
  accepts_all py →
  stripped_lines py before = l0 :: l1 :: pre →
  header_dim py "rows=" l0 = Some rws →
  header_dim py "cols=" l1 = Some cls →
  Forall2 (λ line e, line_entry py line = Some e) pre entries →
  py_strip py raw ≠ EmptyString →
  line_entry py (py_strip py raw) = None →
  let n := S (length (stripped_lines py before)) in
  ∃ msg h',
    parse_matrix_file py (stripped_lines py (before ++ raw :: after)) h
    = (Raise (ValueError msg), h')
    ∧ malformed_message n (py_strip py raw) msg
    ∧ (n ≤ S (length before))%nat
    ∧ (n = S (length before)
       ↔ Forall (λ line, py_strip py line ≠ EmptyString) before)
    ∧ extends h h'.
Proof.
  intros Hacc Hbefore Hr Hc Hall Hraw Hbad n. subst n.
  destruct (stripped_lines_length py before) as [Hle Heq].
  rewrite stripped_lines_app, stripped_lines_cons, Hbefore by done.
  cbn [length app].
  destruct (header_int_dim py _ _ _ h Hr) as [Hr0 Hr1].
  destruct (header_int_dim py _ _ _ h Hc) as [Hc0 Hc1].
  set (o := mkSparseMatrix rws cls (length (dicts h))).
  set (d := foldl copy_step Dict.empty (kept_entries rws cls entries)).
  destruct (parse_line_malformed py (length (objs h)) rws cls
              (3 + length pre) (py_strip py raw)
              (stats_after rws cls (mkStats 0 0 Dict.empty) entries)
              (with_result h o d) Hbad) as (msg & Eline & Hmsg).
  exists msg, (with_result h o d).
  split_and!; [|done| | |apply extends_with_result].
  - unfold parse_matrix_file. rewrite Hr0, Hc0. cbn [negb orb].
    erewrite bind_ret_run by exact Hr1.
    erewrite bind_ret_run by exact Hc1.
    erewrite bind_ret_run by apply SparseMatrix_init_run.
    erewrite bind_raise_run; [done|].
    change (mkHeap _ _) with (with_result h o Dict.empty).
    rewrite parse_lines_app.
    erewrite bind_ret_run
      by apply (parse_lines_entries_stats _ h o _ _ _ _ _ Hacc eq_refl Hall).
    cbn [parse_lines]. by erewrite bind_raise_run by exact Eline.
  - rewrite Hbefore in Hle. cbn [length] in Hle. lia.
  - rewrite <- Heq, Hbefore. cbn [length]. lia.
Qed.

Lemma parse_malformed_line_is_fatal_witness :
  accepts_all plain_python
  ∧ (parse_matrix_file plain_python
       (stripped_lines plain_python
          ["rows=2"; EmptyString; "cols=2"; "   "; "(0, 0, 5)"; " (1, 1) ";
           "(0, 1, 1)"]%string)
       empty_heap).1
    = Raise (ValueError "Expected 3 values in line 4: (1, 1)").
Proof.
  assert (accepts_all plain_python) as Hacc by (intros text; reflexivity).
  split; [exact Hacc|].
  assert (Forall2 (λ line e, line_entry plain_python line = Some e)
            ["(0, 0, 5)"]%string [(0, 0, 5)]) as Hpre
    by (repeat constructor).
  destruct (parse_malformed_line_is_fatal plain_python empty_heap
              ["rows=2"; EmptyString; "cols=2"; "   "; "(0, 0, 5)"]%string
              " (1, 1) " ["(0, 1, 1)"%string] "rows=2" "cols=2" _ 2 2 _
              Hacc eq_refl eq_refl eq_refl Hpre
              ltac:(discriminate) eq_refl)
    as (msg & h' & E & _).
  revert E. change (?l ++ ?x :: ?r) with
    ["rows=2"; EmptyString; "cols=2"; "   "; "(0, 0, 5)"; " (1, 1) ";
     "(0, 1, 1)"]%string.
  vm_compute. by intros [= <- _].
Defined.

(** Without a header nothing is parsed and nothing is built: with fewer
    than two lines, or a first line that does not start with [rows=], or a
    second that does not start with [cols=], the parser raises the
    missing-header ValueError and the store is as it was. *)
Theorem parse_missing_header py lines h :
  (length lines < 2)%nat
  ∨ (∃ l0 l1 body,
       lines = l0 :: l1 :: body
       ∧ (startswith "rows=" l0 = false ∨ startswith "cols=" l1 = false)) →
  parse_matrix_file py lines h
  = (Raise (ValueError msg_missing_header), h).
Proof.
  intros [Hlen|(l0 & l1 & body & -> & Hh)].
  - destruct lines as [|l0 [|l1 body]]; [done | done | simpl in Hlen; lia].
  - unfold parse_matrix_file. by destruct Hh as [-> | ->]; rewrite ?orb_true_r.
Qed.

Lemma parse_missing_header_witness :
  parse_matrix_file plain_python ["cols=2"; "rows=2"; "(0, 0, 5)"]%string
    two_matrices
  = (Raise (ValueError msg_missing_header), two_matrices).
Proof.
  apply parse_missing_header. right. eexists _, _, _.
  split; [reflexivity|]. left. reflexivity.
Defined.

Lemma stats_after_total rws cls st entries :
  total_entries (stats_after rws cls st entries)
  = total_entries st + Z.of_nat (length entries).
Proof.
  unfold stats_after. revert st.
  induction entries as [|e entries IH]; intros st; simpl; [lia|].
  rewrite IH. destruct (decide _); simpl; lia.
Qed.

Lemma stats_after_skipped rws cls st entries :
  skipped_entries (stats_after rws cls st entries)
  = skipped_entries st
    + Z.of_nat (length (filter (λ e : Z * Z * Z,
                                  ¬ ((0 ≤ e.1.1 < rws) ∧ (0 ≤ e.1.2 < cls)))
                          entries)).
Proof.
  unfold stats_after. revert st.
  induction entries as [|e entries IH]; intros st; [simpl; lia|].
  rewrite filter_cons. cbn [foldl]. rewrite IH.
  destruct (decide ((0 ≤ e.1.1 < rws) ∧ (0 ≤ e.1.2 < cls))).
  - rewrite decide_False by tauto. simpl. lia.
  - rewrite decide_True by done. simpl. lia.
Qed.

Lemma stats_after_histogram rws cls st entries k :
  Dict.get k 0 (out_of_bounds_indices (stats_after rws cls st entries))
  = Dict.get k 0 (out_of_bounds_indices st)
    + Z.of_nat (length (filter (λ e : Z * Z * Z,
                                  e.1 = k
                                  ∧ ¬ ((0 ≤ e.1.1 < rws) ∧ (0 ≤ e.1.2 < cls)))
                          entries)).
Proof.
  unfold stats_after. revert st.
  induction entries as [|[[r c] v] entries IH]; intros st; [simpl; lia|].
  rewrite filter_cons. cbn [foldl fst snd]. rewrite IH.
  destruct (decide ((0 ≤ r < rws) ∧ (0 ≤ c < cls))) as [Hin|Hout].
  - rewrite decide_False by tauto. simpl. lia.
  - unfold skip_stats. cbn [out_of_bounds_indices]. unfold Dict.get at 1.
    rewrite DictFacts.lookup_setitem.
    destruct (decide (k = (r, c))) as [Heq|Hne];
      destruct (decide ((r, c) = k ∧ ¬ ((0 ≤ r < rws) ∧ (0 ≤ c < cls))))
        as [[? _]|Hno]; unfold Dict.get; simpl; try congruence.
    + subst k. lia.
    + exfalso. by apply Hno.
Qed.

(** The counters behind the printed summary.  Over a body whose lines all
    stand for entries the loop returns when the diagnostics of the skipped
    entries are written; and whenever it returns, [total_entries] is the
    number of entries, [skipped_entries] the number of those outside the
    shape, and [out_of_bounds_indices] counts, for each coordinate, the
    skipped entries that name it. *)
Theorem parse_counts_entries py h rws cls body entries :
  Forall2 (λ line e, line_entry py line = Some e) body entries →
  let outside := λ e : Z * Z * Z, ¬ ((0 ≤ e.1.1 < rws) ∧ (0 ≤ e.1.2 < cls)) in
  let loop :=
    parse_lines py (length (objs h)) rws cls 3 body
      (mkStats 0 0 Dict.empty) (SparseMatrix_init rws cls h).2 in
  (accepts_all py → ∃ st h', loop = (Ret st, h'))
  ∧ ∀ st h',
      loop = (Ret st, h') →
      total_entries st = Z.of_nat (length entries)
      ∧ skipped_entries st = Z.of_nat (length (filter outside entries))
      ∧ ∀ k, Dict.get k 0 (out_of_bounds_indices st)
             = Z.of_nat (length (filter (λ e, e.1 = k ∧ outside e) entries)).
Proof.
  intros Hall outside loop. subst outside loop. rewrite SparseMatrix_init_run.
  set (o := mkSparseMatrix rws cls (length (dicts h))).
  cbn [snd]. change (mkHeap _ _) with (with_result h o Dict.empty). split.
  - intros Hacc.
    rewrite (parse_lines_entries_stats _ h o _ _ _ _ _ Hacc eq_refl Hall).
    by eexists _, _.
  - intros st h' E.
    rewrite (parse_lines_entries_ret py h o _ _ _ _ _ _ _ eq_refl Hall E).
    split_and!.
    + by rewrite stats_after_total.
    + by rewrite stats_after_skipped.
    + intros k. by rewrite stats_after_histogram.
Qed.

Lemma parse_counts_entries_witness :
  accepts_all plain_python
  ∧ ∃ st h',
      parse_lines plain_python 0 2 2 3
        ["(0, 0, 5)"; "(2, 0, 7)"; "(2, 0, 1)"]%string
        (mkStats 0 0 Dict.empty) (SparseMatrix_init 2 2 empty_heap).2
      = (Ret st, h')
      ∧ total_entries st = 3 ∧ skipped_entries st = 2
      ∧ Dict.get (2, 0) 0 (out_of_bounds_indices st) = 2.
Proof.
  assert (accepts_all plain_python) as Hacc by (intros text; reflexivity).
  assert (Forall2 (λ line e, line_entry plain_python line = Some e)
            ["(0, 0, 5)"; "(2, 0, 7)"; "(2, 0, 1)"]%string
            [(0, 0, 5); (2, 0, 7); (2, 0, 1)]) as Hbody
    by (repeat constructor).
  split; [exact Hacc|].
  destruct (parse_counts_entries plain_python empty_heap 2 2 _ _ Hbody)
    as [Hret Hcount].
  destruct (Hret Hacc) as (st & h' & E).
  destruct (Hcount st h' E) as (Ht & Hs & Hh).
  exists st, h'. split; [exact E|]. split; [exact Ht|]. split; [exact Hs|].
  exact (Hh (2, 0)).
Defined.

(** ** matrix_io.py: the writer *)

Global Instance item_le_total : Total item_le.
Proof. intros [[r1 c1] v1] [[r2 c2] v2]. unfold item_le. simpl. lia. Qed.

Global Instance item_le_trans : Transitive item_le.
Proof.
  intros [[r1 c1] v1] [[r2 c2] v2] [[r3 c3] v3]. unfold item_le. simpl. lia.
Qed.

Global Instance item_le_antisymm : AntiSymm (=) item_le.
Proof.
  intros [[r1 c1] v1] [[r2 c2] v2]. unfold item_le. simpl. intros H1 H2.
  assert (r1 = r2 ∧ c1 = c2 ∧ v1 = v2) as (-> & -> & ->) by lia. done.
Qed.

Lemma sorted_Permutation its : sorted its ≡ₚ its.
Proof. apply merge_sort_Permutation. Qed.

Lemma sorted_Sorted its : Sorted item_le (sorted its).
Proof. apply (Sorted_merge_sort item_le). Qed.

Lemma sorted_unique its1 its2 : its1 ≡ₚ its2 → sorted its1 = sorted its2.
Proof.
  intros Hp. apply (Sorted_unique item_le); [apply sorted_Sorted..|].
  by rewrite !sorted_Permutation.
Qed.

Lemma entry_lines_text_unlines its :
  entry_lines_text its = unlines (entry_line <$> its).
Proof.
  induction its as [|e its IH]; [done|].
  rewrite fmap_cons. cbn [entry_lines_text unlines].
  by rewrite IH, append_assoc_string.
Qed.

Lemma write_matrix_to_file_run h a o d :
  matrix_at h a o d →
  write_matrix_to_file a h
  = (Ret (unlines (written_lines (rows o) (cols o) d)), h).
Proof.
  intros Hm. unfold write_matrix_to_file.
  erewrite bind_ret_run by apply instance_run, Hm.
  erewrite bind_ret_run by by apply (SparseMatrix_items_run _ _ o d).
  unfold mret, M_ret, written_lines, Dict.items. do 2 f_equal.
  cbn [unlines]. rewrite entry_lines_text_unlines.
  by rewrite !append_assoc_string.
Qed.

(** The written text does not depend on the order in which the items were
    inserted: two matrices of one shape whose mappings have the same items
    in any order are written as the same text, with the entry lines in
    ascending order of row, then column. *)
Theorem write_is_order_independent h1 a1 o1 d1 h2 a2 o2 d2 :
  matrix_at h1 a1 o1 d1 → matrix_at h2 a2 o2 d2 →
  rows o1 = rows o2 → cols o1 = cols o2 → d1 ≡ₚ d2 →
  (write_matrix_to_file a1 h1).1 = (write_matrix_to_file a2 h2).1
  ∧ write_matrix_to_file a1 h1
    = (Ret (unlines (written_lines (rows o1) (cols o1) d1)), h1)
  ∧ Sorted item_le (sorted d1).
Proof.
  intros Hm1 Hm2 Hr Hc Hp.
  rewrite (write_matrix_to_file_run _ _ _ _ Hm1),
    (write_matrix_to_file_run _ _ _ _ Hm2).
  split_and!; [|done|apply sorted_Sorted].
  simpl. unfold written_lines. by rewrite Hr, Hc, (sorted_unique d1 d2).
Qed.

Lemma write_is_order_independent_witness :
  (write_matrix_to_file 0 two_matrices).1
  = (write_matrix_to_file 0
       (mkHeap [mkSparseMatrix 2 2 0] [[((0, 1), 3); ((0, 0), 2)]])).1.
Proof.
  apply (write_is_order_independent two_matrices 0 (mkSparseMatrix 2 2 0)
           [((0, 0), 2); ((0, 1), 3)]
           (mkHeap [mkSparseMatrix 2 2 0] [[((0, 1), 3); ((0, 0), 2)]]) 0
           (mkSparseMatrix 2 2 0) [((0, 1), 3); ((0, 0), 2)]);
    [by split | by split | done | done | apply Permutation_swap].
Defined.

(** ** main.py *)

Lemma operations_lookup choice op_name op_func :
  Dict.lookup choice OPERATIONS = Some (op_name, op_func) →
  (choice = "1"%string ∧ op_func = add)
  ∨ (choice = "2"%string ∧ op_func = subtract)
  ∨ (choice = "3"%string ∧ op_func = multiply).
Proof.
  unfold OPERATIONS. simpl.
  destruct (decide (choice = "1"%string)); [intros [= <- <-]; by left|].
  destruct (decide (choice = "2"%string));
    [intros [= <- <-]; right; by left|].
  destruct (decide (choice = "3"%string)); [|done].
  intros [= <- <-]. right. by right.
Qed.

Section main_facts.
Variable py : builtins.
Variable load_time : string.

Lemma bind_print_cases {A} text (k : unit → M A) h :
  (print py text ≫= k) h
  = match stdout py text with
    | None => k tt h
    | Some e => (Raise e, h)
    end.
Proof.
  unfold mbind, M_bind. rewrite print_run. by destruct (stdout py text).
Qed.

(** One [print] of a sequence: the case where it raises is closed by
    [Hprint], the other goes on. *)
Ltac print_step Hprint :=
  rewrite bind_print_cases;
  match goal with
  | |- context [stdout ?py ?text] =>
      let e := fresh "e" in
      let E := fresh "E" in
      destruct (stdout py text) as [e|] eqn:E; [by eapply Hprint | clear E]
  end.

(** The call of the operation that [main] makes once the shapes passed its
    validation. *)
Lemma main_operation_run choice op_name op_func h m1 m2 o1 o2 d1 d2 :
  Dict.lookup choice OPERATIONS = Some (op_name, op_func) →
  wf_matrix h m1 o1 d1 → wf_matrix h m2 o2 d2 →
  compatible choice (rows o1) (cols o1) (rows o2) (cols o2) →
  ∃ h' dr,
    op_func m1 m2 h = (Ret (length (objs h)), h')
    ∧ (∃ o, wf_matrix h' (length (objs h)) o dr)
    ∧ no_zero dr ∧ extends h h'.
Proof.
  intros Hop Hw1 Hw2. unfold compatible.
  destruct (operations_lookup _ _ _ Hop) as [[-> ->]|[[-> ->]|[-> ->]]].
  - rewrite (bool_decide_eq_false_2 ("1"%string = "3"%string)) by done.
    intros [Hr Hc].
    destruct (add_spec h _ _ o1 o2 d1 d2 Hw1 Hw2 Hr Hc)
      as (h3 & dr & E & Hwr & Hnzr & Hext3 & _).
    exists h3, dr. split_and!; [done | by eexists | done..].
  - rewrite (bool_decide_eq_false_2 ("2"%string = "3"%string)) by done.
    intros [Hr Hc].
    destruct (subtract_spec h _ _ o1 o2 d1 d2 Hw1 Hw2 Hr Hc)
      as (h3 & dr & E & Hwr & Hnzr & Hext3 & _).
    exists h3, dr. split_and!; [done | by eexists | done..].
  - rewrite (bool_decide_eq_true_2 ("3"%string = "3"%string)) by done.
    intros Hc.
    destruct (multiply_spec h _ _ o1 o2 d1 d2 Hw1 Hw2 Hc)
      as (h3 & dr & E & Hwr & Hnzr & Hext3 & _).
    exists h3, dr. split_and!; [done | by eexists | done..].
Qed.

(** The validation of [main], as a test of [compatible]. *)
Lemma main_validation choice op_name op_func o1 o2 :
  Dict.lookup choice OPERATIONS = Some (op_name, op_func) →
  ((bool_decide (choice = "1"%string) || bool_decide (choice = "2"%string))
   && (negb (rows o1 =? rows o2) || negb (cols o1 =? cols o2)),
   bool_decide (choice = "3"%string) && negb (cols o1 =? rows o2))
  = if bool_decide (compatible choice (rows o1) (cols o1) (rows o2) (cols o2))
    then (false, false)
    else (negb (bool_decide (choice = "3"%string)),
          bool_decide (choice = "3"%string)).
Proof.
  intros Hop.
  destruct (bool_decide (compatible choice (rows o1) (cols o1) (rows o2)
                           (cols o2))) eqn:Hcompat;
    [apply bool_decide_eq_true in Hcompat
    |apply bool_decide_eq_false in Hcompat];
    unfold compatible in Hcompat;
    destruct (operations_lookup _ _ _ Hop) as [[-> _]|[[-> _]|[-> _]]].
  all: repeat match goal with
       | H : context [bool_decide (?x = ?x)] |- _ =>
           rewrite (bool_decide_eq_true_2 (x = x)) in H by done
       | H : context [bool_decide (String ?a ?x = String ?b ?y)] |- _ =>
           rewrite (bool_decide_eq_false_2 (String a x = String b y)) in H
             by done
       | |- context [bool_decide (?x = ?x)] =>
           rewrite (bool_decide_eq_true_2 (x = x)) by done
       | |- context [bool_decide (String ?a ?x = String ?b ?y)] =>
           rewrite (bool_decide_eq_false_2 (String a x = String b y)) by done
       end.
  all: cbn [orb andb negb].
  all: destruct (Z.eqb_spec (rows o1) (rows o2)),
         (Z.eqb_spec (cols o1) (cols o2)), (Z.eqb_spec (cols o1) (rows o2));
       cbn [negb orb]; try done; tauto.
Qed.

(** From the two loaded matrices on. *)
Lemma main_after_loading choice op_name op_func h m1 m2 o1 o2 d1 d2 :
  Dict.lookup choice OPERATIONS = Some (op_name, op_func) →
  wf_matrix h m1 o1 d1 → wf_matrix h m2 o2 d2 →
  ∀ out h',
  (print py ("Matrices loaded in " +:+ load_time +:+ " seconds");;
   o1 ← instance m1;
   its1 ← SparseMatrix_items m1;
   print py (msg_loaded "1" o1 its1);;
   o2 ← instance m2;
   its2 ← SparseMatrix_items m2;
   print py (msg_loaded "2" o2 its2);;
   if (bool_decide (choice = "1"%string) || bool_decide (choice = "2"%string))
      && (negb (rows o1 =? rows o2) || negb (cols o1 =? cols o2)) then
     raise (ValueError msg_main_dims_add)
   else if bool_decide (choice = "3"%string) && negb (cols o1 =? rows o2) then
     raise (ValueError msg_main_dims_mul)
   else
     print py (newline +:+ "Performing " +:+ op_name +:+ "...");;
     op_func m1 m2) h = (out, h') →
  extends h h'
  ∧ ((∃ e, out = Raise e ∧ print_error py e)
     ∨ (compatible choice (rows o1) (cols o1) (rows o2) (cols o2)
        ∧ ∃ r o d, out = Ret r ∧ wf_matrix h' r o d ∧ no_zero d)
     ∨ (¬ compatible choice (rows o1) (cols o1) (rows o2) (cols o2)
        ∧ out = Raise (ValueError (if bool_decide (choice = "3"%string)
                                   then msg_main_dims_mul
                                   else msg_main_dims_add)))).
Proof.
  intros Hop Hw1 Hw2 out h'.
  assert (∀ text e, stdout py text = Some e →
            (Raise e, h) = (out, h') →
            extends h h'
            ∧ ((∃ e, out = Raise e ∧ print_error py e)
               ∨ (compatible choice (rows o1) (cols o1) (rows o2) (cols o2)
                  ∧ ∃ r o d, out = Ret r ∧ wf_matrix h' r o d ∧ no_zero d)
               ∨ (¬ compatible choice (rows o1) (cols o1) (rows o2) (cols o2)
                  ∧ out = Raise (ValueError
                                   (if bool_decide (choice = "3"%string)
                                    then msg_main_dims_mul
                                    else msg_main_dims_add))))) as Hprint.
  { intros text e He [= <- <-]. split; [apply extends_refl|]. left.
    exists e. split; [done|]. by exists text. }
  destruct Hw1 as (Hm1 & Hok1 & Hb1). destruct Hw2 as (Hm2 & Hok2 & Hb2).
  print_step Hprint.
  erewrite bind_ret_run by apply instance_run, Hm1.
  erewrite bind_ret_run by by apply (SparseMatrix_items_run _ _ o1 d1).
  print_step Hprint.
  erewrite bind_ret_run by apply instance_run, Hm2.
  erewrite bind_ret_run by by apply (SparseMatrix_items_run _ _ o2 d2).
  print_step Hprint.
  pose proof (main_validation choice op_name op_func o1 o2 Hop) as Hval.
  destruct (bool_decide (compatible choice (rows o1) (cols o1) (rows o2)
                           (cols o2))) eqn:Hcompat.
  - apply bool_decide_eq_true in Hcompat. injection Hval as -> ->.
    print_step Hprint.
    destruct (main_operation_run choice op_name op_func h m1 m2 o1 o2 d1 d2)
      as (h3 & dr & E & [o Hwr] & Hnzr & Hext); [done..|].
    rewrite E. intros [= <- <-]. split; [done|]. right. left.
    split; [done|]. by eexists _, _, _.
  - apply bool_decide_eq_false in Hcompat. injection Hval as -> ->.
    destruct (bool_decide (choice = "3"%string)); cbn [negb];
      intros [= <- <-]; (split; [apply extends_refl|]); right; right; done.
Qed.

(** What the [try] block of [main] computes: a result that satisfies the
    invariants; or a ValueError with a message of the parser (no header;
    the message of [int] for a header; a malformed line) or one of the two
    mismatch messages of [main]; or an exception that [print] raised.
    Nothing else: [set] raises no IndexError, and the operation is called
    on shapes that it accepts. *)
Theorem main_outcomes choice op_name op_func lines1 lines2 h out h' :
  Dict.lookup choice OPERATIONS = Some (op_name, op_func) →
  main_load_and_operate py load_time choice op_name op_func lines1 lines2 h
  = (out, h') →
  extends h h'
  ∧ ((∃ r o d, out = Ret r ∧ wf_matrix h' r o d ∧ no_zero d)
     ∨ (∃ msg, out = Raise (ValueError msg)
               ∧ (parser_message py msg ∨ msg = msg_main_dims_add
                  ∨ msg = msg_main_dims_mul))
     ∨ (∃ e, out = Raise e ∧ print_error py e)).
Proof.
  intros Hop. unfold main_load_and_operate.
  rewrite bind_print_cases. destruct (stdout py _) as [e0|] eqn:Ep0.
  { intros [= <- <-]. split; [apply extends_refl|]. right. right.
    exists e0. split; [done|]. by eexists. }
  destruct (parse_matrix_file py lines1 h) as [out1 h1] eqn:E1.
  destruct (parse_outcome _ _ _ _ _ E1)
    as [Hext1 [(o1 & d1 & -> & Hw1 & Hnz1 & _)
               |[(msg & -> & Hmsg)|(e & -> & He)]]].
  2:{ erewrite bind_raise_run by exact E1. intros [= <- <-].
      split; [done|]. right. left. exists msg. split; [done | by left]. }
  2:{ erewrite bind_raise_run by exact E1. intros [= <- <-].
      split; [done|]. right. right. by exists e. }
  erewrite bind_ret_run by exact E1.
  destruct (parse_matrix_file py lines2 h1) as [out2 h2] eqn:E2.
  destruct (parse_outcome _ _ _ _ _ E2)
    as [Hext2 [(o2 & d2 & -> & Hw2 & Hnz2 & _)
               |[(msg & -> & Hmsg)|(e & -> & He)]]].
  2:{ erewrite bind_raise_run by exact E2. intros [= <- <-].
      split; [by eapply extends_trans|]. right. left.
      exists msg. split; [done | by left]. }
  2:{ erewrite bind_raise_run by exact E2. intros [= <- <-].
      split; [by eapply extends_trans|]. right. right. by exists e. }
  erewrite bind_ret_run by exact E2.
  pose proof (wf_extends _ _ _ _ _ Hext2 Hw1) as Hw1'.
  assert (extends h h2) as Hext by by eapply extends_trans.
  intros E.
  destruct (main_after_loading choice op_name op_func h2 _ _ o1 o2 d1 d2
              Hop Hw1' Hw2 _ _ E) as [Hext3 Hcase].
  split; [by eapply extends_trans|].
  destruct Hcase as [Hp|[[_ Hret]|[_ ->]]].
  - by right; right.
  - by left.
  - right. left. eexists. split; [done|].
    destruct (bool_decide (choice = "3"%string));
      [by right; right | by right; left].
Qed.
End main_facts.

Lemma main_outcomes_witness :
  ∃ r o d,
    (main_load_and_operate plain_python "0.0012" "3" "Multiply" multiply
       file_scenario4 file_scenario4 empty_heap).1 = Ret r
    ∧ wf_matrix
        (main_load_and_operate plain_python "0.0012" "3" "Multiply" multiply
           file_scenario4 file_scenario4 empty_heap).2 r o d
    ∧ no_zero d.
Proof.
  destruct (main_outcomes plain_python "0.0012" "3" "Multiply"
              multiply file_scenario4 file_scenario4 empty_heap _ _
              eq_refl (surjective_pairing _))
    as [_ [(r & o & d & E & Hw & Hnz)|[(msg & E & _)|(e & E & _)]]].
  - by exists r, o, d.
  - exfalso. revert E. vm_compute. discriminate.
  - exfalso. revert E. vm_compute. discriminate.
Defined.

Section main_well_formed.
Variable py : builtins.
Variable load_time : string.

(** The validation of [main] decides.  For two well-formed files, a choice
    of the table, and a standard output that accepts what is printed, the
    computation returns a result if the shapes that the headers declare
    are compatible for the chosen operation, and otherwise raises the
    mismatch message of [main] for that operation. *)
Theorem main_returns_iff_compatible choice op_name op_func h
    l0 l1 body1 entries1 r1 c1 l0' l1' body2 entries2 r2 c2 :
  accepts_all py →
  Dict.lookup choice OPERATIONS = Some (op_name, op_func) →
  header_dim py "rows=" l0 = Some r1 →
  header_dim py "cols=" l1 = Some c1 →
  Forall2 (λ line e, line_entry py line = Some e) body1 entries1 →
  header_dim py "rows=" l0' = Some r2 →
  header_dim py "cols=" l1' = Some c2 →
  Forall2 (λ line e, line_entry py line = Some e) body2 entries2 →
  let outcome :=
    main_load_and_operate py load_time choice op_name op_func
      (l0 :: l1 :: body1) (l0' :: l1' :: body2) h in
  (compatible choice r1 c1 r2 c2 →
   ∃ r o d, outcome.1 = Ret r ∧ wf_matrix outcome.2 r o d ∧ no_zero d)
  ∧ (¬ compatible choice r1 c1 r2 c2 →
     outcome.1
     = Raise (ValueError (if bool_decide (choice = "3"%string)
                          then msg_main_dims_mul else msg_main_dims_add))).
Proof.
  intros Hacc Hop Hr1 Hc1 Hb1 Hr2 Hc2 Hb2 outcome. subst outcome.
  unfold main_load_and_operate.
  rewrite bind_print_cases, Hacc.
  pose proof (parse_well_formed_run py h _ _ _ _ _ _ Hacc Hr1 Hc1 Hb1) as E1.
  destruct (parse_outcome _ _ _ _ _ E1)
    as [Hext1 [(o1 & d1 & _ & Hw1 & Hnz1
                 & (? & ? & ? & [= <- <- <-] & Hr1' & Hc1' & _))
               |[(msg & [=] & _)|(e & [=] & _)]]].
  erewrite bind_ret_run by exact E1.
  set (h1 := with_result h _ _) in *.
  pose proof (parse_well_formed_run py h1 _ _ _ _ _ _ Hacc Hr2 Hc2 Hb2) as E2.
  destruct (parse_outcome _ _ _ _ _ E2)
    as [Hext2 [(o2 & d2 & _ & Hw2 & Hnz2
                 & (? & ? & ? & [= <- <- <-] & Hr2' & Hc2' & _))
               |[(msg & [=] & _)|(e & [=] & _)]]].
  erewrite bind_ret_run by exact E2.
  set (h2 := with_result h1 _ _) in *.
  pose proof (wf_extends _ _ _ _ _ Hext2 Hw1) as Hw1'.
  assert (rows o1 = r1 ∧ cols o1 = c1 ∧ rows o2 = r2 ∧ cols o2 = c2)
    as (<- & <- & <- & <-) by (split_and!; congruence).
  match goal with
  | |- context [?m h2] =>
      destruct (m h2) as [out h3] eqn:E;
      destruct (main_after_loading py load_time choice op_name op_func h2
                  _ _ o1 o2 d1 d2 Hop Hw1' Hw2 _ _ E) as [_ Hcase]
  end.
  cbn [fst snd].
  destruct Hcase as [(e & -> & text & He)|[[Hcompat Hret]|[Hn ->]]].
  - by rewrite Hacc in He.
  - split; [by intros _ | done].
  - split; [done | by intros _].
Qed.
End main_well_formed.

Lemma main_returns_iff_compatible_witness :
  accepts_all plain_python
  ∧ (main_load_and_operate plain_python "0.0012" "1" "Add" add
       file_scenario4 ["rows=2"; "cols=3"]%string empty_heap).1
    = Raise (ValueError msg_main_dims_add).
Proof.
  assert (accepts_all plain_python) as Hacc by (intros text; reflexivity).
  split; [exact Hacc|].
  assert (Forall2 (λ line e, line_entry plain_python line = Some e)
            ["(0, 0, 5)"; "(2, 0, 7)"; "(1, 1, -3)"]%string
            [(0, 0, 5); (2, 0, 7); (1, 1, -3)]) as Hbody
    by (repeat constructor).
  refine (proj2 (main_returns_iff_compatible plain_python "0.0012" "1" "Add"
                   add empty_heap "rows=2" "cols=2" _ _ 2 2 "rows=2" "cols=3"
                   [] [] 2 3 Hacc eq_refl eq_refl eq_refl Hbody eq_refl
                   eq_refl (Forall2_nil_2 _ _ _)) _).
  unfold compatible. simpl. lia.
Defined.

(** * Matrices of floating-point numbers: properties *)

Module Float64Facts.
Import Float64.

Ltac unfold_F :=
  unfold mbind, M_bind, mret, M_ret, raise, instance, read_dict, write_dict,
    new_dict, new_instance.

(** ** Arithmetic of binary64 *)

Lemma float_sub_zero (x : float) : (x - 0)%float = x.
Proof.
  apply Prim2SF_inj. rewrite FloatAxioms.sub_spec.
  change (Prim2SF 0) with (S754_zero false).
  destruct (Prim2SF x) as [[]| | |]; reflexivity.
Qed.

Lemma SFsub_diag s m e :
  SFsub prec emax (S754_finite s m e) (S754_finite s m e) = S754_zero false.
Proof.
  assert (∀ z, BinIntDef.Z.sub z z = 0) as Hd by apply Z.sub_diag.
  unfold SFsub. by rewrite Hd.
Qed.

(** A finite number minus itself is zero; an infinity or NaN minus itself
    is NaN. *)
Lemma float_sub_diag (x : float) :
  is_finite x = true → (x - x =? 0)%float = true.
Proof.
  unfold is_finite, is_nan, is_infinity.
  rewrite !FloatAxioms.eqb_spec, FloatAxioms.abs_spec, FloatAxioms.sub_spec.
  change (Prim2SF 0) with (S754_zero false).
  change (Prim2SF infinity) with (S754_infinity false).
  destruct (Prim2SF x) as [[]|[]| |s m e]; try done.
  unfold SF64sub. by rewrite SFsub_diag.
Qed.

(** The two numbers that compare equal to zero. *)
Lemma float_eqb_zero (x : float) :
  (x =? 0)%float = true → x = 0%float ∨ x = (-0)%float.
Proof.
  rewrite FloatAxioms.eqb_spec. change (Prim2SF 0) with (S754_zero false).
  destruct (Prim2SF x) as [[]|[]| |[] m e] eqn:E; cbn; try discriminate.
  - intros _. right. apply Prim2SF_inj. by rewrite E.
  - intros _. left. apply Prim2SF_inj. by rewrite E.
Qed.

Lemma stored_sub_stored (a b : float) :
  stored (stored a - b) = stored (a - b).
Proof.
  unfold stored at 2. destruct (a =? 0)%float eqn:E; [|done].
  apply float_eqb_zero in E as [->| ->]; [done|].
  destruct (Prim2SF b) as [[]|[]| |[] m e] eqn:Eb.
  2:{ assert (b = 0%float) as -> by (apply Prim2SF_inj; by rewrite Eb). done. }
  all: f_equal; apply Prim2SF_inj; rewrite !FloatAxioms.sub_spec, Eb; done.
Qed.

Lemma stored_eqb x : (stored x =? 0)%float = (x =? 0)%float.
Proof. unfold stored. destruct (x =? 0)%float eqn:E; done. Qed.

(** ** Matrices in the store *)

Lemma float_heap_eta h : mkHeap (objs h) (dicts h) = h.
Proof. by destruct h. Qed.

Lemma float_set_run h self o d row col value :
  matrix_at h self o d →
  SparseMatrix_set self row col value h
  = if out_of_bounds o row col
    then (Raise (IndexError "Index out of bounds."), h)
    else (Ret tt,
          mkHeap (objs h)
            (<[data o := set_dict (row, col) value d]> (dicts h))).
Proof.
  intros [Ho Hd]. unfold SparseMatrix_set, set_dict. unfold_F. rewrite Ho.
  destruct (out_of_bounds o row col); [done|]. rewrite Hd.
  destruct (negb (value =? 0)%float); [by rewrite Hd|].
  destruct (Dict.contains (row, col) d); [by rewrite Hd|].
  by rewrite list_insert_id, float_heap_eta.
Qed.

Lemma float_get_run h self o d row col :
  matrix_at h self o d →
  SparseMatrix_get self row col h = (Ret (val d (row, col)), h).
Proof.
  intros [Ho Hd]. unfold SparseMatrix_get. unfold_F. by rewrite Ho, Hd.
Qed.

Lemma float_items_run h self o d :
  matrix_at h self o d →
  SparseMatrix_items self h = (Ret (Dict.items d), h).
Proof.
  intros [Ho Hd]. unfold SparseMatrix_items. unfold_F. by rewrite Ho, Hd.
Qed.

Lemma float_init_run h r c :
  SparseMatrix_init r c h
  = (Ret (length (objs h)),
     mkHeap (objs h ++ [mkSparseMatrix r c (length (dicts h))])
            (dicts h ++ [Dict.empty])).
Proof. done. Qed.

Lemma float_entry_val h a o d i j :
  matrix_at h a o d → entry h a i j = val d (i, j).
Proof.
  intros Hm. unfold entry. by rewrite (float_get_run _ _ _ _ _ _ Hm).
Qed.

(** *** The dictionary after [set] *)

Lemma float_val_set_dict k v d k' :
  Dict.ok d →
  val (set_dict k v d) k' = if decide (k' = k) then stored v else val d k'.
Proof.
  intros Hok. unfold val, set_dict, stored, Dict.get.
  destruct (v =? 0)%float; simpl.
  - destruct (Dict.contains k d) eqn:Hc.
    + rewrite DictFacts.lookup_delitem by done. by destruct (decide (k' = k)).
    + destruct (decide (k' = k)) as [->|]; [|done].
      unfold Dict.contains in Hc. by destruct (Dict.lookup k d).
  - rewrite DictFacts.lookup_setitem. by destruct (decide (k' = k)).
Qed.

Lemma float_ok_set_dict k v d : Dict.ok d → Dict.ok (set_dict k v d).
Proof.
  intros Hok. unfold set_dict.
  destruct (negb (v =? 0)%float); [by apply DictFacts.ok_setitem|].
  destruct (Dict.contains k d); [by apply DictFacts.ok_delitem | done].
Qed.

Lemma float_elem_set_dict k v d e :
  e ∈ set_dict k v d → (e = (k, v) ∧ (v =? 0)%float = false) ∨ e ∈ d.
Proof.
  unfold set_dict. destruct (v =? 0)%float; simpl.
  - destruct (Dict.contains k d); [|by right].
    intros ?%DictFacts.elem_delitem. by right.
  - intros [->|?]%DictFacts.elem_setitem; [by left | by right].
Qed.

(** Invariant I2 on floats: no stored value compares equal to zero. *)
Lemma float_no_zero_set_dict k v d :
  Forall (λ e, (e.2 =? 0)%float = false) d →
  Forall (λ e, (e.2 =? 0)%float = false) (set_dict k v d).
Proof.
  rewrite !Forall_forall. intros Hd e He.
  apply float_elem_set_dict in He as [[-> Hv]|He]; [done | auto].
Qed.

(** In a dictionary without zeros, the keys are the coordinates that read
    a non-zero value. *)
Lemma float_key_iff_nonzero d k :
  Forall (λ e, (e.2 =? 0)%float = false) d →
  k ∈ Dict.keys d ↔ (val d k =? 0)%float = false.
Proof.
  intros Hnz. unfold val, Dict.get.
  destruct (Dict.lookup k d) as [v|] eqn:E.
  - apply DictFacts.lookup_Some_elem in E as Hin. split.
    + intros _. rewrite Forall_forall in Hnz. apply (Hnz _ Hin).
    + intros _. unfold Dict.keys. apply list_elem_of_fmap. by exists (k, v).
  - apply DictFacts.lookup_None in E. split; [done|]. by vm_compute.
Qed.

(** ** Loops that fill a result matrix *)

Section result.
Context (h : heap) (o : SparseMatrix).
Hypothesis Hdata : data o = length (dicts h).

Let res : loc := length (objs h).

Lemma float_matrix_at_result d : matrix_at (with_result h o d) res o d.
Proof.
  unfold matrix_at, with_result, res. simpl. rewrite Hdata. split.
  - by rewrite lookup_app_r, Nat.sub_diag.
  - by rewrite lookup_app_r, Nat.sub_diag.
Qed.

Lemma float_matrix_at_old d a oa da :
  matrix_at h a oa da → matrix_at (with_result h o d) a oa da.
Proof.
  intros [Ha Hda]. unfold matrix_at, with_result. simpl. split.
  - by apply lookup_app_l_Some.
  - by apply lookup_app_l_Some.
Qed.

Lemma float_set_result d row col value :
  SparseMatrix_set res row col value (with_result h o d)
  = if out_of_bounds o row col
    then (Raise (IndexError "Index out of bounds."), with_result h o d)
    else (Ret tt, with_result h o (set_dict (row, col) value d)).
Proof.
  rewrite (float_set_run _ _ o d) by apply float_matrix_at_result.
  destruct (out_of_bounds o row col); [done|].
  unfold with_result. simpl. f_equal. f_equal. rewrite Hdata.
  replace (length (dicts h)) with (length (dicts h) + 0)%nat at 1 by lia.
  by rewrite insert_app_r.
Qed.

Lemma float_get_result d row col :
  SparseMatrix_get res row col (with_result h o d)
  = (Ret (val d (row, col)), with_result h o d).
Proof. apply (float_get_run _ _ o), float_matrix_at_result. Qed.

Lemma float_for_each_result {A} (l : list A) (body : A → M unit)
    (step : Dict.t (Z * Z) float → A → Dict.t (Z * Z) float) d :
  (∀ x d', x ∈ l →
     body x (with_result h o d') = (Ret tt, with_result h o (step d' x))) →
  for_each l body (with_result h o d)
  = (Ret tt, with_result h o (foldl step d l)).
Proof.
  revert d. induction l as [|x l IH]; intros d Hbody; simpl; [done|].
  unfold mbind, M_bind. rewrite Hbody by left.
  apply IH. intros y d' Hy. apply Hbody. by right.
Qed.
End result.

Lemma float_bind_ret_run {A B} (m : M A) (f : A → M B) h x h' :
  m h = (Ret x, h') → (m ≫= f) h = f x h'.
Proof. intros E. unfold mbind, M_bind. by rewrite E. Qed.

Lemma float_instance_run h a o :
  objs h !! a = Some o → instance a h = (Ret o, h).
Proof. intros E. unfold instance. by rewrite E. Qed.

Lemma float_check_subtract_run h a b oa ob :
  objs h !! a = Some oa → objs h !! b = Some ob →
  check_dimensions a b "subtract" h
  = if bool_decide (rows oa = rows ob ∧ cols oa = cols ob)
    then (Ret tt, h) else (Raise (ValueError msg_dims_add), h).
Proof.
  intros Ha Hb. unfold check_dimensions. simpl.
  rewrite (float_bind_ret_run _ _ h oa h) by by apply float_instance_run.
  rewrite (float_bind_ret_run _ _ h ob h) by by apply float_instance_run.
  destruct (Z.eqb_spec (rows oa) (rows ob)), (Z.eqb_spec (cols oa) (cols ob));
    simpl; case_bool_decide; try done; tauto.
Qed.

Lemma float_check_multiply_run h a b oa ob :
  objs h !! a = Some oa → objs h !! b = Some ob →
  check_dimensions a b "multiply" h
  = if bool_decide (cols oa = rows ob)
    then (Ret tt, h) else (Raise (ValueError msg_dims_mul), h).
Proof.
  intros Ha Hb. unfold check_dimensions. simpl.
  rewrite (float_bind_ret_run _ _ h oa h) by by apply float_instance_run.
  rewrite (float_bind_ret_run _ _ h ob h) by by apply float_instance_run.
  destruct (Z.eqb_spec (cols oa) (rows ob)); simpl; case_bool_decide; done.
Qed.

Lemma float_in_bounds_elem o d i j v :
  in_bounds o d → ((i, j), v) ∈ d → out_of_bounds o i j = false.
Proof.
  unfold in_bounds. rewrite Forall_forall. intros Hd He.
  apply out_of_bounds_false, (Hd _ He).
Qed.

Lemma float_in_bounds_same_shape o o' d :
  rows o = rows o' → cols o = cols o' → in_bounds o d → in_bounds o' d.
Proof. unfold in_bounds. intros -> ->. done. Qed.

(** ** subtract *)

Lemma float_ok_copy l d : Dict.ok d → Dict.ok (foldl copy_step d l).
Proof.
  revert d. induction l as [|e l IH]; intros d Hd; simpl; [done|].
  apply IH. by apply float_ok_set_dict.
Qed.

Lemma float_no_zero_copy l d :
  Forall (λ e, (e.2 =? 0)%float = false) d →
  Forall (λ e, (e.2 =? 0)%float = false) (foldl copy_step d l).
Proof.
  revert d. induction l as [|e l IH]; intros d Hd; simpl; [done|].
  apply IH. by apply float_no_zero_set_dict.
Qed.

Lemma float_no_zero_sub l d :
  Forall (λ e, (e.2 =? 0)%float = false) d →
  Forall (λ e, (e.2 =? 0)%float = false) (foldl sub_step d l).
Proof.
  revert d. induction l as [|e l IH]; intros d Hd; simpl; [done|].
  apply IH. by apply float_no_zero_set_dict.
Qed.

Lemma float_val_copy l d k :
  Dict.ok d → Dict.ok l →
  val (foldl copy_step d l) k
  = match Dict.lookup k l with Some v => stored v | None => val d k end.
Proof.
  revert d. induction l as [|[k1 v1] l IH]; intros d Hd Hl; simpl; [done|].
  apply DictFacts.ok_cons in Hl as [Hk1 Hl].
  rewrite IH by (done || by apply float_ok_set_dict).
  unfold copy_step. simpl. rewrite float_val_set_dict by done.
  destruct (decide (k = k1)) as [->|]; [|done].
  apply DictFacts.lookup_None in Hk1. by rewrite Hk1.
Qed.

Lemma float_val_sub l d k :
  Dict.ok d → Dict.ok l →
  val (foldl sub_step d l) k
  = match Dict.lookup k l with
    | Some v => stored (val d k - v)%float
    | None => val d k
    end.
Proof.
  revert d. induction l as [|[k1 v1] l IH]; intros d Hd Hl; simpl; [done|].
  apply DictFacts.ok_cons in Hl as [Hk1 Hl].
  rewrite IH by (done || by apply float_ok_set_dict).
  unfold sub_step. simpl. rewrite float_val_set_dict by done.
  destruct (decide (k = k1)) as [->|]; [|done].
  apply DictFacts.lookup_None in Hk1. by rewrite Hk1.
Qed.

Lemma float_copy_loop_run h o d l :
  data o = length (dicts h) → in_bounds o l →
  for_each l (λ '((i, j), val), SparseMatrix_set (length (objs h)) i j val)
    (with_result h o d)
  = (Ret tt, with_result h o (foldl copy_step d l)).
Proof.
  intros Hdata Hl. apply float_for_each_result. intros [[i j] v] d' He.
  rewrite float_set_result by done.
  by rewrite (float_in_bounds_elem _ _ _ _ _ Hl He).
Qed.

Lemma float_sub_loop_run h o d l :
  data o = length (dicts h) → in_bounds o l →
  for_each l (λ '((i, j), val),
      g ← SparseMatrix_get (length (objs h)) i j;
      SparseMatrix_set (length (objs h)) i j (g - val)%float)
    (with_result h o d)
  = (Ret tt, with_result h o (foldl sub_step d l)).
Proof.
  intros Hdata Hl. apply float_for_each_result. intros [[i j] v] d' He.
  erewrite float_bind_ret_run by by apply float_get_result.
  rewrite float_set_result by done.
  by rewrite (float_in_bounds_elem _ _ _ _ _ Hl He).
Qed.

Lemma float_subtract_run h a b oa ob da db :
  matrix_at h a oa da → matrix_at h b ob db →
  in_bounds oa da → in_bounds ob db →
  rows oa = rows ob → cols oa = cols ob →
  subtract a b h
  = (Ret (length (objs h)),
     with_result h (result_instance h (rows oa) (cols oa))
       (foldl sub_step (foldl copy_step Dict.empty da) db)).
Proof.
  intros Ha Hb Hia Hib Hr Hc. unfold subtract.
  erewrite float_bind_ret_run; last first.
  { rewrite (float_check_subtract_run _ _ _ oa ob) by apply Ha || apply Hb.
    by rewrite bool_decide_eq_true_2. }
  erewrite float_bind_ret_run by apply float_instance_run, Ha.
  erewrite float_bind_ret_run by apply float_init_run.
  set (o := result_instance h (rows oa) (cols oa)).
  change (mkHeap _ _) with (with_result h o Dict.empty).
  erewrite float_bind_ret_run
    by by eapply float_items_run, float_matrix_at_old.
  erewrite float_bind_ret_run by (apply float_copy_loop_run; [done|];
    by apply (float_in_bounds_same_shape oa)).
  erewrite float_bind_ret_run
    by by eapply float_items_run, float_matrix_at_old.
  erewrite float_bind_ret_run by (apply float_sub_loop_run; [done|];
    by apply (float_in_bounds_same_shape ob)).
  done.
Qed.

(** What [get] reads on the difference, at any coordinate. *)
Lemma float_val_subtract_dict da db k :
  Dict.ok da → Dict.ok db →
  val (foldl sub_step (foldl copy_step Dict.empty da) db) k
  = stored (val da k - val db k)%float.
Proof.
  intros Ha Hb.
  assert (Dict.ok (Dict.empty : Dict.t (Z * Z) float)) as He
    by apply DictFacts.ok_empty.
  rewrite float_val_sub by (done || by apply float_ok_copy).
  rewrite float_val_copy by done.
  unfold val, Dict.get. simpl.
  destruct (Dict.lookup k db) as [vb|], (Dict.lookup k da) as [va|].
  - apply stored_sub_stored.
  - done.
  - by rewrite float_sub_zero.
  - done.
Qed.

(** ** multiply *)

Lemma float_b_cols_step_lookup b_cols r c v k :
  Dict.lookup k (b_cols_step b_cols ((r, c), v))
  = if decide (k = r)
    then Some (Dict.setitem c v (Dict.get r Dict.empty b_cols))
    else Dict.lookup k b_cols.
Proof.
  unfold b_cols_step, Dict.contains, Dict.get.
  destruct (Dict.lookup r b_cols) as [row|] eqn:E; simpl.
  - rewrite E, DictFacts.lookup_setitem. by destruct (decide (k = r)).
  - rewrite !DictFacts.lookup_setitem.
    destruct (decide (r = r)); [|done]. by destruct (decide (k = r)).
Qed.

Lemma float_nested_step b_cols r c v kj :
  nested (b_cols_step b_cols ((r, c), v)) kj
  = if decide (kj = (r, c)) then Some v else nested b_cols kj.
Proof.
  destruct kj as [k j]. unfold nested. cbn [fst snd].
  rewrite float_b_cols_step_lookup.
  destruct (decide (k = r)) as [->|Hk].
  - rewrite DictFacts.lookup_setitem. unfold Dict.get.
    destruct (decide (j = c)) as [->|Hj].
    + by rewrite decide_True.
    + rewrite decide_False by congruence.
      by destruct (Dict.lookup r b_cols).
  - rewrite decide_False by congruence. done.
Qed.

Lemma float_rows_ok_step b_cols e :
  rows_ok b_cols → rows_ok (b_cols_step b_cols e).
Proof.
  destruct e as [[r c] v]. intros Hok k row_k.
  rewrite float_b_cols_step_lookup.
  destruct (decide (k = r)) as [->|]; [|apply Hok].
  intros [= <-]. apply DictFacts.ok_setitem. unfold Dict.get.
  destruct (Dict.lookup r b_cols) eqn:E;
    [by eapply Hok | apply DictFacts.ok_empty].
Qed.

Lemma float_rows_ok_fold l b_cols :
  rows_ok b_cols → rows_ok (foldl b_cols_step b_cols l).
Proof.
  revert b_cols. induction l as [|e l IH]; intros bc Hbc; simpl; [done|].
  by apply IH, float_rows_ok_step.
Qed.

Lemma float_nested_fold l b_cols kj :
  Dict.ok l →
  nested (foldl b_cols_step b_cols l) kj
  = match Dict.lookup kj l with Some v => Some v | None => nested b_cols kj end.
Proof.
  revert b_cols. induction l as [|[[r c] v] l IH]; intros bc Hl; [done|].
  apply DictFacts.ok_cons in Hl as [Hk1 Hl].
  cbn [foldl Dict.lookup]. rewrite IH by done. rewrite float_nested_step.
  destruct (decide (kj = (r, c))) as [->|]; [|done].
  apply DictFacts.lookup_None in Hk1. by rewrite Hk1.
Qed.

(** The index of [multiply] holds, under row k and column j, what B
    stores at (k, j). *)
Lemma float_nested_index db kj :
  Dict.ok db → nested (foldl b_cols_step Dict.empty db) kj = Dict.lookup kj db.
Proof.
  intros Hdb. rewrite float_nested_fold by done.
  by destruct (Dict.lookup kj db).
Qed.

Lemma float_index_elem db k row_k j v :
  Dict.ok db →
  Dict.lookup k (foldl b_cols_step Dict.empty db) = Some row_k →
  (j, v) ∈ row_k → ((k, j), v) ∈ db.
Proof.
  intros Hdb Hk Hj. apply DictFacts.lookup_Some_elem.
  rewrite <- float_nested_index by done. unfold nested. cbn [fst snd].
  rewrite Hk. apply DictFacts.elem_lookup_Some; [|done].
  eapply float_rows_ok_fold; [|done]. intros ? ? [=].
Qed.

Lemma float_ok_mul_inner i va row d :
  Dict.ok d → Dict.ok (foldl (mul_inner_step i va) d row).
Proof.
  revert d. induction row as [|e row IH]; intros d Hd; simpl; [done|].
  by apply IH, float_ok_set_dict.
Qed.

Lemma float_no_zero_mul_inner i va row d :
  Forall (λ e, (e.2 =? 0)%float = false) d →
  Forall (λ e, (e.2 =? 0)%float = false) (foldl (mul_inner_step i va) d row).
Proof.
  revert d. induction row as [|e row IH]; intros d Hd; simpl; [done|].
  by apply IH, float_no_zero_set_dict.
Qed.

Lemma float_no_zero_mul_outer b_cols l d :
  Forall (λ e, (e.2 =? 0)%float = false) d →
  Forall (λ e, (e.2 =? 0)%float = false) (foldl (mul_outer_step b_cols) d l).
Proof.
  revert d. induction l as [|e l IH]; intros d Hd; simpl; [done|].
  apply IH. unfold mul_outer_step.
  destruct (Dict.lookup _ b_cols); [by apply float_no_zero_mul_inner | done].
Qed.

(** One item of A, and the row of the index that goes with it: the
    coordinate (i', j) changes only when i' is the row of the item and the
    index row holds column j, and then once. *)
Lemma float_val_mul_inner i va (row : Dict.t Z float) d i' j :
  Dict.ok d → Dict.ok row →
  val (foldl (mul_inner_step i va) d row) (i', j)
  = if decide (i' = i) then
      match Dict.lookup j row with
      | Some vb => stored (val d (i', j) + va * vb)%float
      | None => val d (i', j)
      end
    else val d (i', j).
Proof.
  revert d. induction row as [|[j1 v1] row IH]; intros d Hd Hrow.
  - simpl. by destruct (decide (i' = i)).
  - apply DictFacts.ok_cons in Hrow as [Hj1 Hrow].
    cbn [foldl]. rewrite IH by (done || by apply float_ok_set_dict).
    unfold mul_inner_step. cbn [fst snd]. rewrite !float_val_set_dict by done.
    cbn [Dict.lookup].
    destruct (decide (i' = i)) as [->|Hi].
    + destruct (decide (j = j1)) as [->|Hj].
      * rewrite decide_True by done. apply DictFacts.lookup_None in Hj1.
        by rewrite Hj1.
      * rewrite decide_False by congruence. done.
    + rewrite decide_False by congruence. done.
Qed.

Lemma float_val_mul_outer b_cols l d i j :
  Dict.ok d → rows_ok b_cols →
  val (foldl (mul_outer_step b_cols) d l) (i, j)
  = foldl (λ acc e,
             if decide (e.1.1 = i) then
               match nested b_cols (e.1.2, j) with
               | Some vb => stored (acc + e.2 * vb)%float
               | None => acc
               end
             else acc)
      (val d (i, j)) l.
Proof.
  intros Hd Hbc. revert d Hd.
  induction l as [|[[i1 k1] v1] l IH]; intros d Hd; [done|].
  assert (Dict.ok (mul_outer_step b_cols d (i1, k1, v1))) as Hd1.
  { unfold mul_outer_step.
    destruct (Dict.lookup _ b_cols); [by apply float_ok_mul_inner | done]. }
  cbn [foldl]. rewrite IH by done. f_equal.
  unfold mul_outer_step, nested. cbn [fst snd].
  destruct (Dict.lookup k1 b_cols) as [row|] eqn:E.
  - rewrite float_val_mul_inner by (done || by eapply Hbc). unfold Dict.items.
    destruct (decide (i = i1)), (decide (i1 = i)); try congruence; done.
  - by destruct (decide (i1 = i)).
Qed.

Lemma float_mul_inner_loop_run h o d i val_a (row_k : Dict.t Z float) :
  data o = length (dicts h) →
  (∀ e, e ∈ row_k → out_of_bounds o i e.1 = false) →
  for_each (Dict.items row_k) (λ '(j, val_b),
      g ← SparseMatrix_get (length (objs h)) i j;
      SparseMatrix_set (length (objs h)) i j (g + val_a * val_b)%float)
    (with_result h o d)
  = (Ret tt, with_result h o (foldl (mul_inner_step i val_a) d row_k)).
Proof.
  intros Hdata Hrow. apply float_for_each_result. intros [j vb] d' He.
  erewrite float_bind_ret_run by by apply float_get_result.
  rewrite float_set_result by done. specialize (Hrow _ He). simpl in Hrow.
  by rewrite Hrow.
Qed.

Lemma float_mul_outer_loop_run h o d b_cols l :
  data o = length (dicts h) →
  (∀ e row_k x, e ∈ l → Dict.lookup e.1.2 b_cols = Some row_k → x ∈ row_k →
     out_of_bounds o e.1.1 x.1 = false) →
  for_each l (λ '((i, k), val_a),
      match Dict.lookup k b_cols with
      | Some row_k =>
          for_each (Dict.items row_k) (λ '(j, val_b),
            g ← SparseMatrix_get (length (objs h)) i j;
            SparseMatrix_set (length (objs h)) i j (g + val_a * val_b)%float)
      | None => mret tt
      end)
    (with_result h o d)
  = (Ret tt, with_result h o (foldl (mul_outer_step b_cols) d l)).
Proof.
  intros Hdata Hl. apply float_for_each_result. intros [[i k] va] d' He.
  unfold mul_outer_step. cbn [fst snd].
  destruct (Dict.lookup k b_cols) as [row_k|] eqn:E; [|done].
  apply float_mul_inner_loop_run; [done|]. intros x Hx.
  by apply (Hl _ _ _ He E Hx).
Qed.

Lemma float_multiply_run h a b oa ob da db :
  matrix_at h a oa da → matrix_at h b ob db →
  in_bounds oa da → in_bounds ob db → Dict.ok db →
  cols oa = rows ob →
  multiply a b h
  = (Ret (length (objs h)),
     with_result h (result_instance h (rows oa) (cols ob))
       (foldl (mul_outer_step (foldl b_cols_step Dict.empty db))
          Dict.empty da)).
Proof.
  intros Ha Hb Hia Hib Hdb Hc. unfold multiply.
  erewrite float_bind_ret_run; last first.
  { rewrite (float_check_multiply_run _ _ _ oa ob) by apply Ha || apply Hb.
    by rewrite bool_decide_eq_true_2. }
  erewrite float_bind_ret_run by apply float_instance_run, Ha.
  erewrite float_bind_ret_run by apply float_instance_run, Hb.
  erewrite float_bind_ret_run by apply float_init_run.
  set (o := result_instance h (rows oa) (cols ob)).
  change (mkHeap _ _) with (with_result h o Dict.empty).
  erewrite float_bind_ret_run
    by by eapply float_items_run, float_matrix_at_old.
  erewrite float_bind_ret_run
    by by eapply float_items_run, float_matrix_at_old.
  erewrite float_bind_ret_run; [done|].
  apply float_mul_outer_loop_run; [done|].
  intros [[i k] va] row_k [j vb] He Hk Hx. cbn [fst snd] in *.
  apply (float_index_elem _ _ _ _ _ Hdb Hk) in Hx.
  apply (float_in_bounds_elem _ _ _ _ _ Hia) in He.
  apply (float_in_bounds_elem _ _ _ _ _ Hib) in Hx.
  apply out_of_bounds_false in He, Hx. apply out_of_bounds_false.
  subst o. simpl. lia.
Qed.

(** What [get] reads on the product, at any coordinate. *)
Lemma float_val_multiply_dict da db i j :
  Dict.ok db →
  val (foldl (mul_outer_step (foldl b_cols_step Dict.empty db)) Dict.empty da)
      (i, j)
  = accumulated da db i j.
Proof.
  intros Hb.
  rewrite float_val_mul_outer;
    [| apply DictFacts.ok_empty | apply float_rows_ok_fold; intros ? ? [=]].
  unfold accumulated. change (val Dict.empty (i, j)) with 0%float.
  generalize 0%float. induction da as [|e da IH]; intros acc; [done|].
  cbn [foldl]. rewrite IH. f_equal. unfold accumulate.
  by rewrite float_nested_index.
Qed.

(** ** C7: subtract *)

Lemma float_keys_nil {V} (d : Dict.t (Z * Z) V) :
  (∀ k, k ∉ Dict.keys d) → d = [].
Proof.
  destruct d as [|[k v] d]; [done|]. intros Hk. exfalso.
  apply (Hk k). unfold Dict.keys. rewrite fmap_cons. left.
Qed.

Lemma float_finite_cancels (d : Dict.t (Z * Z) float) k :
  Forall (λ e, is_finite e.2 = true) d →
  (val d k - val d k =? 0)%float = true.
Proof.
  intros Hfin. unfold val, Dict.get.
  destruct (Dict.lookup k d) as [v|] eqn:E; [|done].
  apply DictFacts.lookup_Some_elem in E. rewrite Forall_forall in Hfin.
  apply float_sub_diag, (Hfin _ E).
Qed.

(** C7, amended.  For matrices A and B of one shape, [subtract(A, B)]
    returns a new matrix of that shape; [get(i, j)] on it returns
    A.get(i, j) - B.get(i, j), or 0 when that difference compares equal to
    zero, and the keys of the result are the coordinates where the
    difference does not compare equal to zero: the entry that the first
    loop copied from A is removed by [set] when the second loop gives it a
    zero.  So for every matrix A whose values are finite (neither an
    infinity nor NaN) [subtract(A, A)] returns a matrix of the shape of A
    with an empty mapping. *)
Theorem subtract_self_empty h a b oa ob da db :
  wf_matrix h a oa da → wf_matrix h b ob db →
  rows oa = rows ob → cols oa = cols ob →
  let r := length (objs h) in
  (∃ h' dr,
     subtract a b h = (Ret r, h')
     ∧ objs h !! r = None
     ∧ matrix_at h' r (mkSparseMatrix (rows oa) (cols oa) (length (dicts h))) dr
     ∧ (∀ i j, SparseMatrix_get r i j h'
               = (Ret (stored (entry h a i j - entry h b i j)%float), h'))
     ∧ (∀ i j, (i, j) ∈ Dict.keys dr
               ↔ (entry h a i j - entry h b i j =? 0)%float = false))
  ∧ (Forall (λ e, is_finite e.2 = true) da →
     ∃ h',
       subtract a a h = (Ret r, h')
       ∧ matrix_at h' r (mkSparseMatrix (rows oa) (cols oa) (length (dicts h)))
           Dict.empty
       ∧ SparseMatrix_items r h' = (Ret [], h')).
Proof.
  intros (Ha & Hoka & Hia) (Hb & Hokb & Hib) Hr Hc r. subst r.
  assert (∀ d d' : Dict.t (Z * Z) float,
            Dict.ok d → Dict.ok d' →
            ∀ k, k ∈ Dict.keys
                       (foldl sub_step (foldl copy_step Dict.empty d) d')
                 ↔ (val d k - val d' k =? 0)%float = false) as Hkeys.
  { intros d d' Hd Hd' k. rewrite float_key_iff_nonzero.
    - by rewrite float_val_subtract_dict, stored_eqb.
    - apply float_no_zero_sub, float_no_zero_copy, Forall_nil_2. }
  split.
  - rewrite (float_subtract_run h a b oa ob da db) by done.
    set (dr := foldl sub_step (foldl copy_step Dict.empty da) db).
    assert (matrix_at
              (with_result h (result_instance h (rows oa) (cols oa)) dr)
              (length (objs h)) (result_instance h (rows oa) (cols oa)) dr)
      as Hres by by apply float_matrix_at_result.
    exists (with_result h (result_instance h (rows oa) (cols oa)) dr), dr.
    split_and!; [done | by apply lookup_ge_None | done | |].
    + intros i j. rewrite (float_get_run _ _ _ _ _ _ Hres). subst dr.
      rewrite float_val_subtract_dict by done.
      by rewrite (float_entry_val _ _ _ _ _ _ Ha),
        (float_entry_val _ _ _ _ _ _ Hb).
    + intros i j. subst dr. rewrite Hkeys by done.
      by rewrite (float_entry_val _ _ _ _ _ _ Ha),
        (float_entry_val _ _ _ _ _ _ Hb).
  - intros Hfin.
    rewrite (float_subtract_run h a a oa oa da da) by done.
    assert (foldl sub_step (foldl copy_step Dict.empty da) da = []) as ->.
    { apply float_keys_nil. intros k. rewrite Hkeys by done.
      by rewrite float_finite_cancels. }
    assert (matrix_at
              (with_result h (result_instance h (rows oa) (cols oa)) [])
              (length (objs h)) (result_instance h (rows oa) (cols oa)) [])
      as Hres by by apply float_matrix_at_result.
    eexists. split_and!; [done | done |].
    by rewrite (float_items_run _ _ _ _ Hres).
Qed.

Lemma float_wf_two_matrices_0 :
  wf_matrix two_matrices 0 (mkSparseMatrix 2 2 0)
    [((0, 0), 2.5%float); ((0, 1), 3%float)].
Proof.
  split_and!; [by split | |].
  - unfold Dict.ok. apply (bool_decide_unpack _). by vm_compute.
  - repeat constructor; simpl; lia.
Defined.

Lemma float_wf_two_matrices_1 :
  wf_matrix two_matrices 1 (mkSparseMatrix 2 2 1)
    [((0, 0), 4%float); ((1, 0), 0.5%float)].
Proof.
  split_and!; [by split | |].
  - unfold Dict.ok. apply (bool_decide_unpack _). by vm_compute.
  - repeat constructor; simpl; lia.
Defined.

Lemma subtract_self_empty_witness :
  wf_matrix two_matrices 0 (mkSparseMatrix 2 2 0)
    [((0, 0), 2.5%float); ((0, 1), 3%float)]
  ∧ wf_matrix two_matrices 1 (mkSparseMatrix 2 2 1)
      [((0, 0), 4%float); ((1, 0), 0.5%float)]
  ∧ Forall (λ e : Z * Z * float, is_finite e.2 = true)
      [((0, 0), 2.5%float); ((0, 1), 3%float)]
  ∧ (∃ h', subtract 0 1 two_matrices = (Ret 2%nat, h')
           ∧ SparseMatrix_get 2 0 0 h' = (Ret (-1.5)%float, h'))
  ∧ (∃ h', subtract 0 0 two_matrices = (Ret 2%nat, h')
           ∧ SparseMatrix_items 2 h' = (Ret [], h')).
Proof.
  assert (Forall (λ e : Z * Z * float, is_finite e.2 = true)
            [((0, 0), 2.5%float); ((0, 1), 3%float)]) as Hfin
    by (repeat constructor).
  split; [exact float_wf_two_matrices_0|].
  split; [exact float_wf_two_matrices_1|]. split; [exact Hfin|].
  destruct (subtract_self_empty two_matrices 0 1 _ _ _ _
              float_wf_two_matrices_0 float_wf_two_matrices_1
              eq_refl eq_refl)
    as [(h' & dr & E & _ & _ & Hget & _) Hself].
  split.
  - exists h'. split; [exact E | exact (Hget 0 0)].
  - destruct (Hself Hfin) as (h'' & E' & _ & Hitems).
    exists h''. split; [exact E' | exact Hitems].
Defined.

(** C7 as it is stated fails on the matrix {(0,0): inf}, which the parser
    builds from the line [(0, 0, inf)]: inf - inf is NaN, NaN != 0 holds,
    and [set] stores it.  [subtract(A, A)] then has one item. *)
Lemma subtract_self_infinity :
  wf_matrix infinite_entry 0 (mkSparseMatrix 1 1 0) [((0, 0), infinity)]
  ∧ ((r ← subtract 0 0; SparseMatrix_items r) infinite_entry).1
    = Ret [((0, 0), nan)].
Proof.
  split; [|reflexivity].
  split_and!; [by split | |].
  - unfold Dict.ok. apply (bool_decide_unpack _). by vm_compute.
  - repeat constructor; simpl; lia.
Qed.

(** ** C1: multiply *)

(** C1, amended.  For matrices A and B with A.cols = B.rows,
    [multiply(A, B)] returns a new matrix of shape (A.rows, B.cols), and
    [get(i, j)] on it returns the sum of the products
    A.get(i, k) * B.get(k, j) taken over the items ((i, k), v) of A for
    which B stores a value at (k, j), accumulated in floating point in the
    order in which A holds its items, a sum that compares equal to zero
    being read as 0; the keys of the result are the coordinates where that
    sum does not compare equal to zero.  In scenario 3 the result has the
    single item ((0, 0), 23.0), and [get(0, 1)] returns 0. *)
Theorem multiply_accumulates_products h a b oa ob da db :
  wf_matrix h a oa da → wf_matrix h b ob db →
  cols oa = rows ob →
  let r := length (objs h) in
  (∃ h' dr,
     multiply a b h = (Ret r, h')
     ∧ objs h !! r = None
     ∧ dicts h !! length (dicts h) = None
     ∧ matrix_at h' r (mkSparseMatrix (rows oa) (cols ob) (length (dicts h))) dr
     ∧ (∀ i j, SparseMatrix_get r i j h' = (Ret (accumulated da db i j), h'))
     ∧ (∀ i j, (i, j) ∈ Dict.keys dr
               ↔ (accumulated da db i j =? 0)%float = false))
  ∧ (scenario3 empty_heap).1 = Ret ([((0, 0), 23%float)], 0%float).
Proof.
  intros (Ha & Hoka & Hia) (Hb & Hokb & Hib) Hc r. subst r.
  split; [|reflexivity].
  rewrite (float_multiply_run h a b oa ob da db) by done.
  eexists _, _. split; [done|].
  set (dr := foldl (mul_outer_step (foldl b_cols_step Dict.empty db))
               Dict.empty da).
  assert (matrix_at
            (with_result h (result_instance h (rows oa) (cols ob)) dr)
            (length (objs h)) (result_instance h (rows oa) (cols ob)) dr)
    as Hres by by apply float_matrix_at_result.
  split_and!; try done.
  - by apply lookup_ge_None.
  - by apply lookup_ge_None.
  - intros i j. rewrite (float_get_run _ _ _ _ _ _ Hres). subst dr.
    by rewrite float_val_multiply_dict.
  - intros i j. subst dr. rewrite float_key_iff_nonzero.
    + by rewrite float_val_multiply_dict.
    + apply float_no_zero_mul_outer, Forall_nil_2.
Qed.

Lemma multiply_accumulates_products_witness :
  wf_matrix two_matrices 0 (mkSparseMatrix 2 2 0)
    [((0, 0), 2.5%float); ((0, 1), 3%float)]
  ∧ wf_matrix two_matrices 1 (mkSparseMatrix 2 2 1)
      [((0, 0), 4%float); ((1, 0), 0.5%float)]
  ∧ ∃ h', multiply 0 1 two_matrices = (Ret 2%nat, h')
          ∧ SparseMatrix_get 2 0 0 h' = (Ret 11.5%float, h')
          ∧ SparseMatrix_get 2 0 1 h' = (Ret 0%float, h').
Proof.
  split; [exact float_wf_two_matrices_0|].
  split; [exact float_wf_two_matrices_1|].
  destruct (multiply_accumulates_products two_matrices 0 1 _ _ _ _
              float_wf_two_matrices_0 float_wf_two_matrices_1 eq_refl)
    as [(h' & dr & E & _ & _ & _ & Hget & _) _].
  exists h'. split; [exact E|]. split; [exact (Hget 0 0) | exact (Hget 0 1)].
Defined.

(** C1 as it is stated fails in two ways.

    The matrix {(0,0): inf} times the empty 1 by 1 matrix: the sum over k
    in [0, 1) has the one term A.get(0, 0) * B.get(0, 0) = inf * 0, which
    is NaN, while [multiply] skips the entry of A (B stores nothing in row
    0) and returns the empty matrix, where [get(0, 0)] is 0.

    The 1 by 3 matrix {1e16, 1.0, -1e16} times the column of ones: the
    two stores hold the same three items of A, so A.get and B.get agree
    on both and so does any formula in them; but [multiply] returns the
    empty matrix when -1e16 comes last (1e16 + 1.0 rounds to 1e16) and
    {(0,0): 1.0} when 1.0 comes last. *)
Lemma multiply_is_not_the_sum :
  (entry infinite_entry 0 0 0 * entry infinite_entry 1 0 0)%float = nan
  ∧ ((r ← multiply 0 1; SparseMatrix_get r 0 0) infinite_entry).1
    = Ret 0%float
  ∧ ((r ← multiply 0 1; SparseMatrix_items r) infinite_entry).1 = Ret []
  ∧ (∀ i j, entry cancel_late 0 i j = entry cancel_early 0 i j)
  ∧ (∀ i j, entry cancel_late 1 i j = entry cancel_early 1 i j)
  ∧ ((r ← multiply 0 1; SparseMatrix_items r) cancel_late).1 = Ret []
  ∧ ((r ← multiply 0 1; SparseMatrix_items r) cancel_early).1
    = Ret [((0, 0), 1%float)].
Proof.
  split_and!; try reflexivity.
  intros i j. unfold entry, cancel_late, cancel_early, SparseMatrix_get.
  unfold_F. cbn [objs dicts lookup list_lookup data]. unfold Dict.get.
  cbn [Dict.lookup].
  repeat case_decide; simplify_eq; done.
Qed.
End Float64Facts.
